(** * Nutrition tracker (src/app/page.tsx): a shallow embedding

    The page component keeps an ordered collection of meal records,
    parses the analysis text into macro values, scales the uploaded
    picture, persists the collection under one storage key and drives
    a small submission workflow.  Each part is embedded below next to
    the source lines it comes from. *)

From Stdlib Require Import ZArith NArith Lia Ascii String List Bool.
From stdpp Require Import base list strings gmap.

Local Open Scope Z_scope.

(** ** JavaScript strings

    A string is a sequence of UTF-16 code units.  The patterns of
    [parseMacros] carry no [u] flag, so matching is per code unit. *)

Abbreviation jschar := N (only parsing).
Abbreviation jsstring := (list N) (only parsing).

(** An ASCII literal, one code unit per character. *)
Definition lit (s : string) : jsstring :=
  map N_of_ascii (list_ascii_of_string s).

(** U+26A1 HIGH VOLTAGE SIGN, a single code unit. *)
Definition bolt : jschar := 9889%N.

Definition is_digit (c : jschar) : bool := ((48 <=? c) && (c <=? 57))%N.

Definition digit_val (c : jschar) : N := (c - 48)%N.

(** ** JavaScript numbers

    A Number is an IEEE 754 binary64 value.  A finite one is kept by
    its exact value [z / 2^k] in lowest terms ([k = 0] or [z] odd).
    Every arithmetic operation is the exact result rounded to the
    nearest representable value, ties to even ([rnd]). *)

Inductive number :=
| Fin (z : Z) (k : nat)
| NegZero
| PInf
| NInf
| NaN.

Definition number_eqb (a b : number) : bool :=
  match a, b with
  | Fin z k, Fin z' k' => (z =? z') && Nat.eqb k k'
  | NegZero, NegZero | PInf, PInf | NInf, NInf | NaN, NaN => true
  | _, _ => false
  end.

Definition pow2 (s : Z) : Z := 2 ^ Z.max 0 s.

(** [2^d <= p / q] *)
Definition ge_pow2 (p q d : Z) : bool := q * pow2 d <=? p * pow2 (- d).

(** [floor (log2 (p / q))] for positive [p] and [q]. *)
Definition ilog2_ratio (p q : Z) : Z :=
  let d := Z.log2 p - Z.log2 q in
  if ge_pow2 p q d then d else d - 1.

(** Lowest terms of [z / 2^k]. *)
Fixpoint reduce (z : Z) (k : nat) : number :=
  match k with
  | O => Fin z 0
  | S k' => if Z.even z then reduce (z / 2) k' else Fin z k
  end.

(** The value [m * 2^u]. *)
Definition normalise (m u : Z) : number :=
  if 0 <=? u then Fin (m * 2 ^ u) 0 else reduce m (Z.to_nat (- u)).

(** Nearest binary64 to [p / q], for [0 < p] and [0 < q]: 53 bits of
    significand, least exponent [-1074], overflow to infinity from
    [2^1024] on. *)
Definition rnd_pos (p q : Z) : number :=
  let u := Z.max (ilog2_ratio p q - 52) (-1074) in
  let num := p * pow2 (- u) in
  let den := q * pow2 u in
  let m := num / den in
  let r := num mod den in
  let m' := match 2 * r ?= den with
            | Lt => m
            | Gt => m + 1
            | Eq => if Z.even m then m else m + 1
            end in
  if 2 ^ 1024 * pow2 (- u) <=? m' * pow2 u then PInf else normalise m' u.

Definition negate (x : number) : number :=
  match x with
  | Fin 0 _ => NegZero
  | Fin z k => Fin (- z) k
  | NegZero => Fin 0 0
  | PInf => NInf
  | NInf => PInf
  | NaN => NaN
  end.

(** Nearest binary64 to the rational [p / q], [0 < q]. *)
Definition rnd (p q : Z) : number :=
  match p with
  | Z0 => Fin 0 0
  | Zpos _ => rnd_pos p q
  | Zneg _ => negate (rnd_pos (- p) q)
  end.

Definition of_N (n : N) : number := rnd (Z.of_N n) 1.

Definition zero : number := Fin 0 0.

(** [x + y] on Numbers. *)
Definition num_add (x y : number) : number :=
  match x, y with
  | NaN, _ | _, NaN => NaN
  | PInf, NInf | NInf, PInf => NaN
  | PInf, _ | _, PInf => PInf
  | NInf, _ | _, NInf => NInf
  | NegZero, NegZero => NegZero
  | NegZero, v | v, NegZero => v
  | Fin z1 k1, Fin z2 k2 =>
      rnd (z1 * 2 ^ Z.of_nat k2 + z2 * 2 ^ Z.of_nat k1)
          (2 ^ Z.of_nat (k1 + k2))
  end.

Definition is_neg (x : number) : bool :=
  match x with
  | Fin z _ => z <? 0
  | NegZero | NInf => true
  | PInf | NaN => false
  end.

Definition signed (neg : bool) (x : number) : number :=
  if neg then negate x else x.

(** [x / y] on Numbers. *)
Definition num_div (x y : number) : number :=
  match x, y with
  | NaN, _ | _, NaN => NaN
  | (PInf | NInf), (PInf | NInf) => NaN
  | (PInf | NInf), _ => signed (xorb (is_neg x) (is_neg y)) PInf
  | _, (PInf | NInf) => signed (xorb (is_neg x) (is_neg y)) zero
  | (Fin 0 _ | NegZero), (Fin 0 _ | NegZero) => NaN
  | (Fin 0 _ | NegZero), _ => signed (xorb (is_neg x) (is_neg y)) zero
  | _, (Fin 0 _ | NegZero) => signed (xorb (is_neg x) (is_neg y)) PInf
  | Fin z1 k1, Fin z2 k2 =>
      signed (xorb (z1 <? 0) (z2 <? 0))
             (rnd (Z.abs z1 * 2 ^ Z.of_nat k2) (Z.abs z2 * 2 ^ Z.of_nat k1))
  end.

(** [x * y] on Numbers. *)
Definition num_mul (x y : number) : number :=
  match x, y with
  | NaN, _ | _, NaN => NaN
  | (PInf | NInf), (Fin 0 _ | NegZero) => NaN
  | (Fin 0 _ | NegZero), (PInf | NInf) => NaN
  | (PInf | NInf), _ | _, (PInf | NInf) =>
      signed (xorb (is_neg x) (is_neg y)) PInf
  | (Fin 0 _ | NegZero), _ | _, (Fin 0 _ | NegZero) =>
      signed (xorb (is_neg x) (is_neg y)) zero
  | Fin z1 k1, Fin z2 k2 =>
      signed (xorb (z1 <? 0) (z2 <? 0))
             (rnd (Z.abs z1 * Z.abs z2) (2 ^ Z.of_nat (k1 + k2)))
  end.

(** ** [parseInt (s, 10)]

    Leading white space and a sign are skipped, the longest run of
    decimal digits is read, and the Number nearest to that integer is
    returned; [NaN] when there is no digit.  (For more than twenty
    significant digits the language lets an engine zero the later
    ones; the exact reading is taken here.) *)

Definition is_white (c : jschar) : bool :=
  existsb (N.eqb c)
    [9; 10; 11; 12; 13; 32; 160; 5760; 8232; 8233; 8239; 8287; 12288; 65279]%N
  || ((8192 <=? c) && (c <=? 8202))%N.

Fixpoint skip_white (s : jsstring) : jsstring :=
  match s with
  | c :: r => if is_white c then skip_white r else s
  | [] => []
  end.

(** The longest prefix of digits, and what follows it. *)
Fixpoint span_digits (s : jsstring) : jsstring * jsstring :=
  match s with
  | c :: r =>
      if is_digit c
      then let (ds, rest) := span_digits r in (c :: ds, rest)
      else ([], s)
  | [] => ([], [])
  end.

Definition digits_value (ds : jsstring) : N :=
  fold_left (fun acc c => (acc * 10 + digit_val c)%N) ds 0%N.

(** An optional sign: whether it is a minus, and what follows. *)
Definition split_sign (s : jsstring) : bool * jsstring :=
  match s with
  | c :: r =>
      if (c =? 45)%N then (true, r)
      else if (c =? 43)%N then (false, r)
      else (false, s)
  | [] => (false, s)
  end.

Definition parseInt (s : jsstring) : number :=
  let (neg, s2) := split_sign (skip_white s) in
  match fst (span_digits s2) with
  | [] => NaN
  | ds => signed neg (of_N (digits_value ds))
  end.

(** ** The patterns of [parseMacros]

    Each of the four regular expressions is a literal, the group
    [(\d+)] and a literal.  [exec_at] is one attempt of the
    backtracking matcher at the head of its input: the literal, then as
    many digits as possible, giving digits back one at a time while the
    rest of the pattern fails.  [exec] is [String.prototype.match]
    without the [g] flag: attempts from left to right, the first
    success wins; its result is capture group 1. *)

Record pattern := Pattern { pre : jsstring; suf : jsstring }.

Fixpoint strip_prefix (p s : jsstring) : option jsstring :=
  match p, s with
  | [], _ => Some s
  | a :: p', b :: s' => if (a =? b)%N then strip_prefix p' s' else None
  | _ :: _, [] => None
  end.

Definition starts_with (p s : jsstring) : bool :=
  match strip_prefix p s with Some _ => true | None => false end.

Fixpoint digits_then (sf s : jsstring) : option jsstring :=
  match s with
  | c :: r =>
      if is_digit c then
        match digits_then sf r with
        | Some ds => Some (c :: ds)
        | None => if starts_with sf r then Some [c] else None
        end
      else None
  | [] => None
  end.

Definition exec_at (re : pattern) (s : jsstring) : option jsstring :=
  match strip_prefix (pre re) s with
  | Some r => digits_then (suf re) r
  | None => None
  end.

Fixpoint exec (re : pattern) (s : jsstring) : option jsstring :=
  match exec_at re s with
  | Some g => Some g
  | None => match s with
            | [] => None
            | _ :: r => exec re r
            end
  end.

(** [/# ⚡ (\d+) Calories/] and the three bolded labels. *)
Definition re_calories : pattern :=
  Pattern (lit "# " ++ bolt :: lit " ") (lit " Calories").
Definition re_protein : pattern := Pattern (lit "**Protein:** ") (lit "g").
Definition re_carbs : pattern := Pattern (lit "**Carbs:** ") (lit "g").
Definition re_fat : pattern := Pattern (lit "**Fat:** ") (lit "g").

(** ** Data model (page.tsx, lines 7-20) *)

Record Macros := mkMacros {
  calories : number;
  protein : number;
  carbs : number;
  fat : number
}.

Record Meal := mkMeal {
  id : jsstring;
  timestamp : number;
  image : jsstring;
  macros : Macros;
  rawText : jsstring
}.

(** ** [parseMacros] (lines 54-65) *)

Definition getVal (text : jsstring) (regex : pattern) : number :=
  match exec regex text with
  | Some g => parseInt g
  | None => zero
  end.

Definition parseMacros (text : jsstring) : Macros :=
  {| calories := getVal text re_calories;
     protein := getVal text re_protein;
     carbs := getVal text re_carbs;
     fat := getVal text re_fat |}.

(** The two-line answer template of the analysis prompt, around four
    digit strings. *)
Definition template (c p cb f : jsstring) : jsstring :=
  lit "# " ++ bolt :: lit " " ++ c ++ lit " Calories" ++ 10%N ::
  lit "**Protein:** " ++ p ++ lit "g  |  **Carbs:** " ++ cb ++
  lit "g  |  **Fat:** " ++ f ++ lit "g".

Definition all_digits (ds : jsstring) : bool := forallb is_digit ds.

(** Decimal digits of a natural number, as [Number.prototype.toString]
    prints an integer below [10^21]. *)
Fixpoint digits_fuel (fuel : nat) (n : N) (acc : jsstring) : jsstring :=
  match fuel with
  | O => acc
  | S f =>
      let acc' := (48 + n mod 10)%N :: acc in
      if (n <? 10)%N then acc' else digits_fuel f (n / 10)%N acc'
  end.

Definition digits_of (n : N) : jsstring :=
  digits_fuel (S (N.to_nat (N.log2 n))) n [].

(** ** The meal collection (lines 121, 133-135) and its totals (137-142) *)

(** [setMeals (prev => [newMeal, ...prev])] *)
Definition insertMeal (newMeal : Meal) (prev : list Meal) : list Meal :=
  newMeal :: prev.

(** [setMeals (prev => prev.filter (m => m.id !== id))] *)
Definition deleteMeal (i : jsstring) (prev : list Meal) : list Meal :=
  filter (λ m, id m ≠ i) prev.

Definition no_macros : Macros :=
  {| calories := zero; protein := zero; carbs := zero; fat := zero |}.

(** The callback handed to [reduce]. *)
Definition add_meal (acc : Macros) (meal : Meal) : Macros :=
  {| calories := num_add (calories acc) (calories (macros meal));
     protein := num_add (protein acc) (protein (macros meal));
     carbs := num_add (carbs acc) (carbs (macros meal));
     fat := num_add (fat acc) (fat (macros meal)) |}.

Definition totalMacros (meals : list Meal) : Macros :=
  fold_left add_meal meals no_macros.

(** A macro value that is a whole number [n]. *)
Definition whole (n : N) : number := Fin (Z.of_N n) 0.

Definition macros_of (c p cb f : N) : Macros :=
  {| calories := whole c; protein := whole p; carbs := whole cb;
     fat := whole f |}.

(** The exact field-wise sums of a collection whose macro values are
    whole numbers; [None] when some value is not. *)
Definition whole_of (x : number) : option N :=
  match x with
  | Fin z O => if 0 <=? z then Some (Z.to_N z) else None
  | _ => None
  end.

Definition field_sum (f : Macros → number) (meals : list Meal) : option N :=
  foldr (λ meal acc,
           match whole_of (f (macros meal)), acc with
           | Some n, Some s => Some (n + s)%N
           | _, _ => None
           end) (Some 0%N) meals.

(** ** [compressImage] (lines 67-92): the canvas a decoded picture is
    drawn on

    [img.width] and [img.height] are unsigned integers.  Assigning a
    Number to [canvas.height] converts it to an unsigned long: not a
    finite number gives 0, the fraction is dropped, the result is taken
    modulo [2^32]; a value above [2^31 - 1] is replaced by the
    attribute's default, 150. *)

Definition MAX_WIDTH : N := 300.

Definition to_unsigned_long (x : number) : N :=
  match x with
  | Fin z k => Z.to_N (Z.quot z (2 ^ Z.of_nat k) mod 2 ^ 32)
  | _ => 0%N
  end.

Definition set_canvas_dim (default : N) (x : number) : N :=
  let v := to_unsigned_long x in
  if (2147483647 <? v)%N then default else v.

Definition canvas_size (img_width img_height : N) : N * N :=
  let scaleSize := num_div (of_N MAX_WIDTH) (of_N img_width) in
  (set_canvas_dim 300 (of_N MAX_WIDTH),
   set_canvas_dim 150 (num_mul (of_N img_height) scaleSize)).

(** ** Printing a Number ([Number.prototype.toString], radix 10)

    For a positive finite [x] the language asks for integers [n], [k]
    and [s] with [k] as small as possible such that [s] has [k] digits
    and [s * 10^(n-k)] rounds to [x]; among several [s] the one nearest
    to [x] is taken.  [shortest] looks for them with [k] = 1, 2, ...;
    should seventeen digits not do, the exact decimal expansion of [x]
    is printed. *)

Definition pow10 (s : Z) : Z := 10 ^ Z.max 0 s.

(** The Number nearest to [s * 10^e]. *)
Definition dec_value (s e : Z) : number := rnd (s * pow10 e) (pow10 (- e)).

Fixpoint scale_up (fuel : nat) (p q j : Z) : Z :=
  match fuel with
  | O => j
  | S f => if q <=? p then j else scale_up f (p * 10) q (j + 1)
  end.

(** The [n] with [10^(n-1) <= p / q < 10^n]. *)
Definition dec_exponent (p q : Z) : Z :=
  if q <=? p
  then Z.of_nat (length (digits_of (Z.to_N (p / q))))
  else 1 - scale_up 400 p q 0.

Fixpoint shortest (fuel : nat) (k : Z) (x : number) (p q n0 : Z)
  : option (Z * Z) :=
  match fuel with
  | O => None
  | S f =>
      let e := n0 - k in
      let lo := (p * pow10 (- e)) / (q * pow10 e) in
      let hi := lo + 1 in
      match number_eqb (dec_value lo e) x, number_eqb (dec_value hi e) x with
      | true, true =>
          match 2 * p * pow10 (- e) ?= (2 * lo + 1) * q * pow10 e with
          | Lt => Some (lo, e)
          | Gt => Some (hi, e)
          | Eq => Some (if Z.even lo then lo else hi, e)
          end
      | true, false => Some (lo, e)
      | false, true => Some (hi, e)
      | false, false => shortest f (k + 1) x p q n0
      end
  end.

(** Trailing zeros of [s] moved into the exponent. *)
Fixpoint strip_zeros (fuel : nat) (s e : Z) : Z * Z :=
  match fuel with
  | O => (s, e)
  | S f => if (s mod 10 =? 0) && (0 <? s)
           then strip_zeros f (s / 10) (e + 1) else (s, e)
  end.

(** Digits [s] and exponent [e] with [s * 10^e] rounding to
    [z / 2^k], for [0 < z]. *)
Definition decimal_of (z : Z) (k : nat) : Z * Z :=
  let q := 2 ^ Z.of_nat k in
  let (s, e) := match shortest 17 1 (Fin z k) z q (dec_exponent z q) with
                | Some se => se
                | None => (z * 5 ^ Z.of_nat k, - Z.of_nat k)
                end in
  strip_zeros (Z.to_nat (Z.log2 s)) s e.

Definition zeros (n : Z) : jsstring := repeat 48%N (Z.to_nat n).

Definition format_decimal (s e : Z) : jsstring :=
  let ds := digits_of (Z.to_N s) in
  let k := Z.of_nat (length ds) in
  let n := e + k in
  if (k <=? n) && (n <=? 21) then ds ++ zeros (n - k)
  else if (0 <? n) && (n <=? 21)
  then take (Z.to_nat n) ds ++ 46%N :: drop (Z.to_nat n) ds
  else if (-6 <? n) && (n <=? 0)
  then 48%N :: 46%N :: zeros (- n) ++ ds
  else
    let mant := match ds with
                | d :: ((_ :: _) as r) => d :: 46%N :: r
                | _ => ds
                end in
    mant ++ 101%N :: (if n - 1 <? 0 then 45%N else 43%N)
         :: digits_of (Z.to_N (Z.abs (n - 1))).

Definition Number_toString (x : number) : jsstring :=
  match x with
  | NaN => lit "NaN"
  | PInf => lit "Infinity"
  | NInf => lit "-Infinity"
  | NegZero | Fin Z0 _ => lit "0"
  | Fin (Zpos _ as z) k => let (s, e) := decimal_of z k in format_decimal s e
  | Fin (Zneg _ as z) k =>
      let (s, e) := decimal_of (- z) k in 45%N :: format_decimal s e
  end.

(** [Date.now ().toString ()]: the clock is a whole number of
    milliseconds, far below [10^21]. *)
Definition Date_toString (now : N) : jsstring := digits_of now.

(** ** JSON values, [JSON.stringify] and [JSON.parse]

    What [JSON.parse] can return.  An object keeps its properties in
    enumeration order: array indices ascending, then the other keys in
    order of creation. *)

#[warnings="-register-all"] Inductive value :=
| VNull
| VBool (b : bool)
| VNum (x : number)
| VStr (s : jsstring)
| VArr (items : list value)
| VObj (props : list (jsstring * value)).

Definition hex_digit (n : N) : jschar :=
  (if n <? 10 then 48 + n else 87 + n)%N.

Definition hex4 (c : jschar) : jsstring :=
  [hex_digit (c / 4096 mod 16); hex_digit (c / 256 mod 16);
   hex_digit (c / 16 mod 16); hex_digit (c mod 16)]%N.

(** [\uXXXX] *)
Definition unicode_escape (c : jschar) : jsstring := 92%N :: 117%N :: hex4 c.

Definition is_high (c : jschar) : bool := ((55296 <=? c) && (c <=? 56319))%N.
Definition is_low (c : jschar) : bool := ((56320 <=? c) && (c <=? 57343))%N.

(** One code unit that is not a surrogate, as [QuoteJSONString]
    writes it. *)
Definition escape_unit (c : jschar) : jsstring :=
  (if c =? 8 then [92; 98]
   else if c =? 9 then [92; 116]
   else if c =? 10 then [92; 110]
   else if c =? 12 then [92; 102]
   else if c =? 13 then [92; 114]
   else if c =? 34 then [92; 34]
   else if c =? 92 then [92; 92]
   else if c <? 32 then unicode_escape c
   else [c])%N.

(** A surrogate pair is copied, a lone surrogate is escaped. *)
Fixpoint quote_units (s : jsstring) : jsstring :=
  match s with
  | [] => []
  | c :: r =>
      if is_high c then
        match r with
        | d :: r' =>
            if is_low d then c :: d :: quote_units r'
            else unicode_escape c ++ quote_units r
        | [] => unicode_escape c
        end
      else if is_low c then unicode_escape c ++ quote_units r
      else escape_unit c ++ quote_units r
  end.

Definition quote (s : jsstring) : jsstring :=
  34%N :: quote_units s ++ [34%N].

Definition join_commas (parts : list jsstring) : jsstring :=
  match parts with
  | [] => []
  | p :: ps => p ++ concat (map (λ x, 44%N :: x) ps)
  end.

Fixpoint JSON_stringify (v : value) : jsstring :=
  match v with
  | VNull => lit "null"
  | VBool true => lit "true"
  | VBool false => lit "false"
  | VNum (Fin _ _ as x) | VNum (NegZero as x) => Number_toString x
  | VNum _ => lit "null"
  | VStr s => quote s
  | VArr items => 91%N :: join_commas (map JSON_stringify items) ++ [93%N]
  | VObj props =>
      123%N :: join_commas
                 (map (λ kv, quote (fst kv) ++ 58%N :: JSON_stringify (snd kv))
                      props) ++ [125%N]
  end.

(** *** Reading *)

Definition hex_val (c : jschar) : option N :=
  (if (48 <=? c) && (c <=? 57) then Some (c - 48)
   else if (97 <=? c) && (c <=? 102) then Some (c - 87)
   else if (65 <=? c) && (c <=? 70) then Some (c - 55)
   else None)%N.

Definition unescape (e : jschar) : option jschar :=
  (if e =? 34 then Some 34
   else if e =? 92 then Some 92
   else if e =? 47 then Some 47
   else if e =? 98 then Some 8
   else if e =? 102 then Some 12
   else if e =? 110 then Some 10
   else if e =? 114 then Some 13
   else if e =? 116 then Some 9
   else None)%N.

Definition push (c : jschar) (o : option (jsstring * jsstring))
  : option (jsstring * jsstring) :=
  match o with
  | Some (str, rest) => Some (c :: str, rest)
  | None => None
  end.

(** The characters of a string literal after its opening quote, up to
    and including the closing one. *)
Fixpoint parse_chars (s : jsstring) : option (jsstring * jsstring) :=
  match s with
  | [] => None
  | c :: r =>
      if (c =? 34)%N then Some ([], r)
      else if (c =? 92)%N then
        match r with
        | [] => None
        | e :: r1 =>
            if (e =? 117)%N then
              match r1 with
              | h1 :: h2 :: h3 :: h4 :: r2 =>
                  match hex_val h1, hex_val h2, hex_val h3, hex_val h4 with
                  | Some a, Some b, Some c', Some d =>
                      push (a * 4096 + b * 256 + c' * 16 + d)%N
                           (parse_chars r2)
                  | _, _, _, _ => None
                  end
              | _ => None
              end
            else
              match unescape e with
              | Some c' => push c' (parse_chars r1)
              | None => None
              end
        end
      else if (c <? 32)%N then None
      else push c (parse_chars r)
  end.

Definition is_ws (c : jschar) : bool :=
  ((c =? 9) || (c =? 10) || (c =? 13) || (c =? 32))%N.

Fixpoint skip_ws (s : jsstring) : jsstring :=
  match s with
  | c :: r => if is_ws c then skip_ws r else s
  | [] => []
  end.

(** A number literal: an optional minus, an integer part without a
    leading zero, an optional fraction and an optional exponent; it is
    read as the Number nearest to its decimal value. *)
Definition read_minus (s : jsstring) : bool * jsstring :=
  match s with
  | c :: r => if (c =? 45)%N then (true, r) else (false, s)
  | [] => (false, s)
  end.

Definition read_int (s : jsstring) : jsstring * jsstring :=
  match s with
  | c :: r => if (c =? 48)%N then ([c], r) else span_digits s
  | [] => ([], [])
  end.

Definition read_frac (s : jsstring) : option (jsstring * jsstring) :=
  match s with
  | c :: r =>
      if (c =? 46)%N then
        match span_digits r with
        | ([], _) => None
        | (fp, s') => Some (fp, s')
        end
      else Some ([], s)
  | [] => Some ([], s)
  end.

Definition read_exp (s : jsstring) : option (Z * jsstring) :=
  match s with
  | c :: r =>
      if (c =? 101)%N || (c =? 69)%N then
        let (eneg, r') :=
          match r with
          | c' :: r'' =>
              if (c' =? 45)%N then (true, r'')
              else if (c' =? 43)%N then (false, r'')
              else (false, r)
          | [] => (false, r)
          end in
        match span_digits r' with
        | ([], _) => None
        | (ep, s') =>
            let e := Z.of_N (digits_value ep) in
            Some (if eneg then - e else e, s')
        end
      else Some (0, s)
  | [] => Some (0, s)
  end.

Definition parse_number (s : jsstring) : option (number * jsstring) :=
  let (neg, s1) := read_minus s in
  let (ip, s2) := read_int s1 in
  match ip with
  | [] => None
  | _ :: _ =>
      match read_frac s2 with
      | None => None
      | Some (fp, s3) =>
          match read_exp s3 with
          | None => None
          | Some (e, s4) =>
              Some (signed neg
                      (dec_value (Z.of_N (digits_value (ip ++ fp)))
                                 (e - Z.of_nat (length fp))), s4)
          end
      end
  end.

(** An array index is a canonical decimal numeral below [2^32 - 1]. *)
Definition array_index (k : jsstring) : option N :=
  match k with
  | [] => None
  | c :: r =>
      if all_digits k && (negb (c =? 48)%N || match r with [] => true | _ => false end)
         && (digits_value k <? 4294967295)%N
      then Some (digits_value k) else None
  end.

(** Creating property [k]: among the array indices in ascending order
    when [k] is one, after all properties otherwise. *)
Fixpoint obj_add (k : jsstring) (v : value) (ps : list (jsstring * value))
  : list (jsstring * value) :=
  match ps with
  | [] => [(k, v)]
  | (k', v') :: r =>
      match array_index k, array_index k' with
      | Some i, Some i' =>
          if (i <? i')%N then (k, v) :: ps else (k', v') :: obj_add k v r
      | Some _, None => (k, v) :: ps
      | None, _ => (k', v') :: obj_add k v r
      end
  end.

Fixpoint obj_replace (k : jsstring) (v : value) (ps : list (jsstring * value))
  : option (list (jsstring * value)) :=
  match ps with
  | [] => None
  | (k', v') :: r =>
      if decide (k' = k) then Some ((k, v) :: r)
      else match obj_replace k v r with
           | Some r' => Some ((k', v') :: r')
           | None => None
           end
  end.

(** Defining property [k]: a later member of the same name replaces
    the value of the earlier one. *)
Definition obj_set (k : jsstring) (v : value) (ps : list (jsstring * value))
  : list (jsstring * value) :=
  match obj_replace k v ps with
  | Some ps' => ps'
  | None => obj_add k v ps
  end.

(** The recursive-descent reader runs on fuel; [Starved] tells running
    out of it from rejecting the text. *)
Inductive parsed (A : Type) :=
| Done (a : A) (rest : jsstring)
| Invalid
| Starved.
Arguments Done {A} a rest.
Arguments Invalid {A}.
Arguments Starved {A}.

Fixpoint parse_value (fuel : nat) (s : jsstring) : parsed value :=
  match fuel with
  | O => Starved
  | S f =>
      match skip_ws s with
      | [] => Invalid
      | (c :: r) as s' =>
          if (c =? 34)%N then
            match parse_chars r with
            | Some (str, r') => Done (VStr str) r'
            | None => Invalid
            end
          else if (c =? 91)%N then
            match skip_ws r with
            | c' :: r' =>
                if (c' =? 93)%N then Done (VArr []) r'
                else match parse_elements f r with
                     | Done vs r'' => Done (VArr vs) r''
                     | Invalid => Invalid
                     | Starved => Starved
                     end
            | [] => Invalid
            end
          else if (c =? 123)%N then
            match skip_ws r with
            | c' :: r' =>
                if (c' =? 125)%N then Done (VObj []) r'
                else match parse_members f r [] with
                     | Done ps r'' => Done (VObj ps) r''
                     | Invalid => Invalid
                     | Starved => Starved
                     end
            | [] => Invalid
            end
          else
            match strip_prefix (lit "null") s' with
            | Some r' => Done VNull r'
            | None =>
                match strip_prefix (lit "true") s' with
                | Some r' => Done (VBool true) r'
                | None =>
                    match strip_prefix (lit "false") s' with
                    | Some r' => Done (VBool false) r'
                    | None =>
                        match parse_number s' with
                        | Some (x, r') => Done (VNum x) r'
                        | None => Invalid
                        end
                    end
                end
            end
      end
  end
with parse_elements (fuel : nat) (s : jsstring) : parsed (list value) :=
  match fuel with
  | O => Starved
  | S f =>
      match parse_value f s with
      | Done v r =>
          match skip_ws r with
          | c :: r' =>
              if (c =? 44)%N then
                match parse_elements f r' with
                | Done vs r'' => Done (v :: vs) r''
                | Invalid => Invalid
                | Starved => Starved
                end
              else if (c =? 93)%N then Done [v] r'
              else Invalid
          | [] => Invalid
          end
      | Invalid => Invalid
      | Starved => Starved
      end
  end
with parse_members (fuel : nat) (s : jsstring) (acc : list (jsstring * value))
  : parsed (list (jsstring * value)) :=
  match fuel with
  | O => Starved
  | S f =>
      match skip_ws s with
      | c :: r =>
          if (c =? 34)%N then
            match parse_chars r with
            | Some (key, r1) =>
                match skip_ws r1 with
                | c1 :: r2 =>
                    if (c1 =? 58)%N then
                      match parse_value f r2 with
                      | Done v r3 =>
                          match skip_ws r3 with
                          | c3 :: r4 =>
                              if (c3 =? 44)%N
                              then parse_members f r4 (obj_set key v acc)
                              else if (c3 =? 125)%N
                              then Done (obj_set key v acc) r4
                              else Invalid
                          | [] => Invalid
                          end
                      | Invalid => Invalid
                      | Starved => Starved
                      end
                    else Invalid
                | [] => Invalid
                end
            | None => Invalid
            end
          else Invalid
      | [] => Invalid
      end
  end.

(** What evaluating an expression can end in. *)
Inductive completion (A : Type) :=
| Normal (a : A)
| Throw (message : jsstring).
Arguments Normal {A} a.
Arguments Throw {A} message.

(** [JSON.parse (text)]: one value between optional white space, or a
    SyntaxError. *)
Definition JSON_parse (text : jsstring) : completion value :=
  match parse_value (2 * length text + 1) text with
  | Done v rest =>
      match skip_ws rest with
      | [] => Normal v
      | _ :: _ => Throw (lit "SyntaxError")
      end
  | Invalid | Starved => Throw (lit "SyntaxError")
  end.

(** ** Durable storage (lines 29-42)

    [localStorage] maps keys to strings.  The collection lives under
    one key.  The state variable holds whatever [JSON.parse] returned:
    the [Meal[]] annotation is erased at run time. *)

Definition storage_key : jsstring := lit "nutrition_tracker_meals".

Definition truthy (s : jsstring) : bool :=
  match s with [] => false | _ :: _ => true end.

Definition macros_value (m : Macros) : value :=
  VObj [(lit "calories", VNum (calories m)); (lit "protein", VNum (protein m));
        (lit "carbs", VNum (carbs m)); (lit "fat", VNum (fat m))].

Definition meal_value (m : Meal) : value :=
  VObj [(lit "id", VStr (id m)); (lit "timestamp", VNum (timestamp m));
        (lit "image", VStr (image m)); (lit "macros", macros_value (macros m));
        (lit "rawText", VStr (rawText m))].

(** A typed collection as the run-time value of the state variable. *)
Definition meals_value (meals : list Meal) : value :=
  VArr (map meal_value meals).

(** The value of [useState<Meal[]>([])]. *)
Definition initial_meals : value := VArr [].

(** The first effect: read the key, parse, [setMeals]; a parse error is
    logged and the state is left alone. *)
Definition load (localStorage : gmap (list N) (list N)) (meals : value)
  : value :=
  match localStorage !! storage_key with
  | Some saved =>
      if truthy saved then
        match JSON_parse saved with
        | Normal v => v
        | Throw _ => meals
        end
      else meals
  | None => meals
  end.

(** The second effect: [localStorage.setItem (key, JSON.stringify (meals))]. *)
Definition save (localStorage : gmap (list N) (list N)) (meals : value)
  : gmap (list N) (list N) :=
  <[storage_key := JSON_stringify meals]> localStorage.

(** The shape a stored collection is meant to have: an array of
    objects with the five fields of [Meal], each of its type. *)
Fixpoint get (k : jsstring) (ps : list (jsstring * value)) : option value :=
  match ps with
  | [] => None
  | (k', v) :: r => if decide (k' = k) then Some v else get k r
  end.

Definition is_num (o : option value) : bool :=
  match o with Some (VNum _) => true | _ => false end.

Definition is_str (o : option value) : bool :=
  match o with Some (VStr _) => true | _ => false end.

Definition is_macros (o : option value) : bool :=
  match o with
  | Some (VObj ps) =>
      is_num (get (lit "calories") ps) && is_num (get (lit "protein") ps)
      && is_num (get (lit "carbs") ps) && is_num (get (lit "fat") ps)
  | _ => false
  end.

Definition is_meal (v : value) : bool :=
  match v with
  | VObj ps =>
      is_str (get (lit "id") ps) && is_num (get (lit "timestamp") ps)
      && is_str (get (lit "image") ps) && is_macros (get (lit "macros") ps)
      && is_str (get (lit "rawText") ps)
  | _ => false
  end.

Definition is_meal_array (v : value) : bool :=
  match v with
  | VArr items => forallb is_meal items
  | _ => false
  end.

(** A finite Number that is its own rounding and not negative zero:
    the values [JSON.stringify] writes without loss. *)
Definition exact (x : number) : bool :=
  match x with
  | Fin z k => number_eqb (rnd z (2 ^ Z.of_nat k)) x
  | _ => false
  end.

Definition exact_macros (m : Macros) : bool :=
  exact (calories m) && exact (protein m) && exact (carbs m) && exact (fat m).

Definition exact_meal (m : Meal) : bool :=
  exact (timestamp m) && exact_macros (macros m).

(** ** The submission workflow (lines 22-27, 94-131, and the server
    action [analyzeImage]) *)

Record File := mkFile {
  file_name : jsstring;
  file_type : jsstring;
  file_bytes : list N
}.

Record State := mkState {
  meals : list Meal;
  loading : bool;
  error : option jsstring;
  file : option File;
  preview : option jsstring
}.

Record Response := mkResponse {
  resp_text : option jsstring;
  resp_error : option jsstring
}.

Inductive settled (A : Type) :=
| Fulfilled (a : A)
| Rejected.
Arguments Fulfilled {A} a.
Arguments Rejected {A}.

(** What a run of [handleSubmit] meets outside the component: the
    server's credential and model, the transport, the picture decoder,
    the drawing surface, the encoder and the clock. *)
Record World := mkWorld {
  api_key : option jsstring;
  generateContent : File → option jsstring;
  reachable : bool;
  decode : File → option (N * N);
  context2d : bool;
  toDataURL : File → N → N → jsstring;
  clock_id : N;
  clock_timestamp : N
}.

(** The server action. *)
Definition analyzeImage (w : World) (formData : option File) : Response :=
  match formData with
  | None => mkResponse None (Some (lit "No image provided"))
  | Some f =>
      match api_key w with
      | Some (_ :: _) =>
          match generateContent w f with
          | Some t => mkResponse (Some t) None
          | None => mkResponse None (Some (lit "Failed to analyze image"))
          end
      | _ => mkResponse None (Some (lit "GEMINI_API_KEY is not set"))
      end
  end.

(** [compressImage] (lines 67-92): the promise rejects when the file
    cannot be read or decoded or when no 2D context is to be had. *)
Definition compressImage (w : World) (f : File) : settled jsstring :=
  match decode w f with
  | None => Rejected
  | Some (img_width, img_height) =>
      let (cw, ch) := canvas_size img_width img_height in
      if context2d w then Fulfilled (toDataURL w f cw ch) else Rejected
  end.

Definition unexpected : jsstring := lit "An unexpected error occurred.".

(** One run of [handleSubmit]: the state it leaves and the files it
    sent for analysis. *)
Definition handleSubmit (w : World) (st : State) : State * list File :=
  match file st with
  | None => (st, [])
  | Some f =>
      let failed msg :=
        mkState (meals st) false (Some msg) (file st) (preview st) in
      let response :=
        if reachable w then Fulfilled (analyzeImage w (Some f)) else Rejected in
      match response with
      | Rejected => (failed unexpected, [f])
      | Fulfilled r =>
          match resp_error r with
          | Some ((_ :: _) as e) => (failed e, [f])
          | _ =>
              let text := match resp_text r with
                          | Some t => t
                          | None => []
                          end in
              let macros := parseMacros text in
              match compressImage w f with
              | Rejected => (failed unexpected, [f])
              | Fulfilled compressedImage =>
                  let newMeal :=
                    {| id := Date_toString (clock_id w);
                       timestamp := of_N (clock_timestamp w);
                       image := compressedImage;
                       macros := macros;
                       rawText := text |} in
                  (mkState (insertMeal newMeal (meals st)) false None None None,
                   [f])
              end
          end
      end
  end.

(** [handleFileChange] (lines 44-52). *)
Definition handleFileChange (selected : option (File * jsstring)) (st : State)
  : State :=
  match selected with
  | Some (f, objectUrl) =>
      mkState (meals st) (loading st) None (Some f) (Some objectUrl)
  | None => st
  end.

(** ** Histories of the collection

    The two ways the collection changes, and a history of them applied
    in turn. *)

Inductive action :=
| Insert (newMeal : Meal)
| Delete (i : jsstring).

Definition apply_action (ms : list Meal) (a : action) : list Meal :=
  match a with
  | Insert newMeal => insertMeal newMeal ms
  | Delete i => deleteMeal i ms
  end.

Definition run (history : list action) (ms : list Meal) : list Meal :=
  fold_left apply_action history ms.

(** The records a history inserts, latest first. *)
Fixpoint inserted (history : list action) (earlier : list Meal) : list Meal :=
  match history with
  | [] => earlier
  | Insert newMeal :: h => inserted h (newMeal :: earlier)
  | Delete _ :: h => inserted h earlier
  end.

(** ** Sample records *)

Definition sample_meal (i : string) (c p cb f : N) : Meal :=
  {| id := lit i; timestamp := whole 1700000000000; image := lit "data:,";
     macros := macros_of c p cb f; rawText := [] |}.

(** The four fields of [Macros], for statements about each of them. *)
Inductive field := Calories | Protein | Carbs | Fat.

Definition proj (fd : field) : Macros → number :=
  match fd with
  | Calories => calories
  | Protein => protein
  | Carbs => carbs
  | Fat => fat
  end.

(** A server without its credential, a selected file and the state
    after selecting it. *)
Definition sample_file : File :=
  mkFile (lit "lunch.png") (lit "image/png") [137; 80; 78; 71]%N.

Definition sample_world : World :=
  {| api_key := None; generateContent := λ _, None; reachable := true;
     decode := λ _, Some (1200, 800)%N; context2d := true;
     toDataURL := λ _ _ _, lit "data:image/jpeg;base64,"; clock_id := 1700000000000;
     clock_timestamp := 1700000000000 |}.

Definition sample_state : State :=
  handleFileChange (Some (sample_file, lit "blob:preview"))
    (mkState [] false None None None).

(** The pattern of each field. *)
Definition pattern_of (fd : field) : pattern :=
  match fd with
  | Calories => re_calories
  | Protein => re_protein
  | Carbs => re_carbs
  | Fat => re_fat
  end.

(** A number literal put together from its integer digits, its
    fraction digits (none when empty) and its exponent (sign and
    digits), as [Number_toString] writes them. *)
Definition number_literal (ip fp : jsstring) (ex : option (bool * jsstring))
  : jsstring :=
  ip ++ match fp with [] => [] | _ :: _ => 46%N :: fp end
     ++ match ex with
        | None => []
        | Some (eneg, ep) => 101%N :: (if eneg then 45%N else 43%N) :: ep
        end.

(** A character that cannot continue a number literal. *)
Definition ends_number (c : jschar) : Prop :=
  is_digit c = false ∧ c ≠ 46%N ∧ c ≠ 101%N ∧ c ≠ 69%N.

(** ** Values that are written and read back unchanged

    Numbers that [exact] accepts, and objects whose keys are distinct
    and none an array index (so that reading creates the properties in
    the order written). *)

Definition plain_key (k : jsstring) : bool :=
  match array_index k with None => true | Some _ => false end.

Fixpoint printable (v : value) : bool :=
  match v with
  | VNull | VBool _ | VStr _ => true
  | VNum x => exact x
  | VArr items => forallb printable items
  | VObj props =>
      forallb (λ kv, match kv with (k, v') => plain_key k && printable v' end)
              props
      && bool_decide (NoDup (map fst props))
  end.

(** Fuel that reading the text of a value takes at most. *)
Fixpoint weight (v : value) : nat :=
  match v with
  | VArr items => S (fold_right (λ x acc, S (weight x + acc)) O items)
  | VObj props =>
      S (fold_right (λ kv acc, match kv with (_, v') => S (weight v' + acc) end)
                    O props)
  | _ => 1
  end.

(** What may follow the text of a value inside an array or object. *)
Definition delimited (rest : jsstring) : Prop :=
  ∃ c r, rest = c :: r ∧ (c = 44%N ∨ c = 93%N ∨ c = 125%N).

(** The text of one member of an object. *)
Definition member_text (kv : jsstring * value) : jsstring :=
  quote (fst kv) ++ 58%N :: JSON_stringify (snd kv).

(** How a value's text begins: never with white space nor with a
    closing bracket. *)
Definition opens (c : N) : Prop :=
  is_ws c = false ∧ c ≠ 93%N ∧ c ≠ 125%N.

(** A record whose calorie figure overflowed to infinity, as [parseInt]
    gives for a run of more than 308 digits. *)
Definition overflowed_meal : Meal :=
  {| id := lit "1700000000000"; timestamp := whole 1700000000000;
     image := lit "data:,";
     macros := {| calories := PInf; protein := whole 30; carbs := whole 60;
                  fat := whole 20 |};
     rawText := [] |}.

(** A server that has its credential and a model that answers in the
    template, and the state after one record has been stored. *)
Definition sample_answer : jsstring :=
  template (lit "540") (lit "30") (lit "60") (lit "20").

Definition answering_world : World :=
  {| api_key := Some (lit "key"); generateContent := λ _, Some sample_answer;
     reachable := true; decode := λ _, Some (1200, 800)%N; context2d := true;
     toDataURL := λ _ _ _, lit "data:image/jpeg;base64,";
     clock_id := 1700000000000; clock_timestamp := 1700000000000 |}.

Definition stored_state : State :=
  mkState [sample_meal "1699999999999" 20 4 5 6] false None (Some sample_file)
          (Some (lit "blob:preview")).

(** ** Histories of the page

    The events the page reacts to, each handled to its end before the
    next one: the file dialog closed with a file (and the object URL
    made for it) or without one (lines 44-52), a submission by the
    button or by retry (lines 94-131) met by some outside world, and
    the delete button of a record (lines 133-135).  [mounted ms] is the
    state once a stored collection [ms] has been loaded; [page] is the
    state after a history of events. *)
Inductive event :=
| Select (selected : option (File * jsstring))
| Submit (w : World)
| Remove (i : jsstring).

Definition handle (st : State) (e : event) : State :=
  match e with
  | Select selected => handleFileChange selected st
  | Submit w => fst (handleSubmit w st)
  | Remove i =>
      mkState (deleteMeal i (meals st)) (loading st) (error st) (file st)
              (preview st)
  end.

Definition mounted (ms : list Meal) : State := mkState ms false None None None.

Definition page (ms : list Meal) (history : list event) : State :=
  fold_left handle history (mounted ms).

(** The files sent for analysis in the course of a history, latest
    first. *)
Fixpoint sent (st : State) (history : list event) (earlier : list File)
  : list File :=
  match history with
  | [] => earlier
  | e :: h =>
      sent (handle st e) h
           (match e with
            | Submit w => snd (handleSubmit w st) ++ earlier
            | _ => earlier
            end)
  end.

Definition is_submit (e : event) : bool :=
  match e with Submit _ => true | _ => false end.

(** What the page shows of its state (lines 222-232): the error box
    and its retry button, under [error &&]. *)
Definition shows_retry (st : State) : bool :=
  match error st with Some e => truthy e | None => false end.

(** A Number that is neither [NaN] nor negative (nor negative zero). *)
Definition nonneg (x : number) : bool :=
  match x with
  | Fin z _ => 0 <=? z
  | PInf => true
  | _ => false
  end.

(** ** The note shown under a record (line 282)

    [meal.rawText.replace (/# ⚡.*|\*\*Protein:\*\*.*|\*\*Carbs:\*\*.*|\*\*Fat:\*\*.*/g, '').trim ()].
    The expression has no [s] flag, so [.] is any code unit but a line
    terminator and [.*] runs to the end of the line.  A match is
    therefore one of the four markers with the rest of its line; as no
    marker holds a line terminator, that is everything from the
    marker's first code unit up to the next line terminator or the end
    of the text.  With the [g] flag the search goes on where a match
    ended.  [cut skipping s] is the replacement: [skipping] says that
    the scan is inside a match.  [trim] drops white space and line
    terminators (the code units of [is_white]) at both ends. *)
Definition is_line_terminator (c : jschar) : bool :=
  existsb (N.eqb c) [10; 13; 8232; 8233]%N.

Definition markers : list jsstring :=
  [lit "# " ++ [bolt]; lit "**Protein:**"; lit "**Carbs:**"; lit "**Fat:**"].

Definition marker_at (s : jsstring) : bool :=
  existsb (λ m, starts_with m s) markers.

Fixpoint cut (skipping : bool) (s : jsstring) : jsstring :=
  match s with
  | [] => []
  | c :: r =>
      if skipping && negb (is_line_terminator c) then cut true r
      else if marker_at (c :: r) then cut true r
      else c :: cut false r
  end.

Definition trim (s : jsstring) : jsstring :=
  rev (skip_white (rev (skip_white s))).

Definition note (rawText : jsstring) : jsstring := trim (cut false rawText).

(** ** The two effects when the page is opened (lines 29-42)

    After the first render, whose collection is the initial [[]], the
    effects run in the order they are written.  The first reads the
    store and, when there is a stored text and it parses, calls
    [setMeals] with the parsed value; [first_effect] is that value, if
    any.  The second still sees the collection of the first render and
    writes it.  [effects_on_mount] is the state asked for and the store
    after this first pass; [setMeals] takes effect in a later render,
    after which the second effect runs once more. *)
Definition first_effect (localStorage : gmap (list N) (list N))
  : option value :=
  match localStorage !! storage_key with
  | Some saved =>
      if truthy saved then
        match JSON_parse saved with
        | Normal v => Some v
        | Throw _ => None
        end
      else None
  | None => None
  end.

Definition effects_on_mount (localStorage : gmap (list N) (list N))
  : option value * gmap (list N) (list N) :=
  (first_effect localStorage, save localStorage initial_meals).

(** * Properties *)

(** ** Rounding is exact on small whole numbers *)

Lemma pow2_nonneg_eq s : 0 <= s → pow2 s = 2 ^ s.
Proof. intros H. unfold pow2. by rewrite Z.max_r. Qed.

Lemma pow2_nonpos_eq s : s <= 0 → pow2 s = 1.
Proof. intros H. unfold pow2. by rewrite Z.max_l. Qed.

Lemma reduce_pow2 p j : reduce (p * 2 ^ Z.of_nat j) j = Fin p 0.
Proof.
  revert p. induction j as [|j IH]; intros p.
  - simpl. by rewrite Z.mul_1_r.
  - rewrite Nat2Z.inj_succ, Z.pow_succ_r by lia.
    cbn [reduce].
    replace (p * (2 * 2 ^ Z.of_nat j)) with (2 * (p * 2 ^ Z.of_nat j)) by ring.
    rewrite Z.even_mul. cbn [Z.even orb].
    replace (2 * (p * 2 ^ Z.of_nat j) / 2) with (p * 2 ^ Z.of_nat j).
    + apply IH.
    + symmetry. rewrite Z.mul_comm. apply Z.div_mul. lia.
Qed.

Lemma ilog2_ratio_whole p : 0 < p → ilog2_ratio p 1 = Z.log2 p.
Proof.
  intros Hp. unfold ilog2_ratio, ge_pow2. cbn [Z.log2].
  rewrite Z.sub_0_r.
  pose proof (Z.log2_nonneg p) as Hl.
  rewrite pow2_nonneg_eq, pow2_nonpos_eq by lia.
  destruct (Z.log2_spec p Hp) as [Hlo _].
  rewrite Z.mul_1_l, Z.mul_1_r.
  destruct (Z.leb_spec (2 ^ Z.log2 p) p); [done | lia].
Qed.

Lemma rnd_pos_whole p : 0 < p < 2 ^ 53 → rnd_pos p 1 = Fin p 0.
Proof.
  intros [Hp Hlt]. unfold rnd_pos. rewrite ilog2_ratio_whole by done.
  pose proof (Z.log2_nonneg p) as Hl.
  assert (Z.log2 p < 53) as Hl53 by (apply Z.log2_lt_pow2; lia).
  rewrite Z.max_l by lia.
  remember (Z.log2 p - 52) as u eqn:Hu0.
  rewrite (pow2_nonpos_eq u), (pow2_nonneg_eq (- u)) by lia.
  rewrite !Z.mul_1_l, Z.div_1_r, Z.mod_1_r.
  change (2 * 0 ?= 1) with Lt. cbv iota.
  assert (0 < 2 ^ (- u)) as Hpow by (apply Z.pow_pos_nonneg; lia).
  assert (2 ^ 53 < 2 ^ 1024) as Hbig by (apply Z.pow_lt_mono_r; lia).
  match goal with
  | |- context [?a <=? ?b] => destruct (Z.leb_spec a b) as [Hle|_]
  end.
  - exfalso. rewrite Z.mul_1_r in Hle.
    apply Z.mul_le_mono_pos_r in Hle; [lia | done].
  - unfold normalise. destruct (Z.leb_spec 0 u) as [Hu|Hu].
    + replace u with 0 by lia. change (- 0) with 0.
      rewrite Z.pow_0_r. f_equal. lia.
    + replace (- u) with (Z.of_nat (Z.to_nat (- u))) at 1 by lia.
      apply reduce_pow2.
Qed.

Lemma of_N_whole n : (n <= 2 ^ 53)%N → of_N n = whole n.
Proof.
  intros Hn. unfold of_N, whole.
  destruct (decide (n = 2 ^ 53)%N) as [->|Hne]; [by vm_compute|].
  destruct n as [|q]; [done|].
  unfold rnd. cbn [Z.of_N]. apply rnd_pos_whole. lia.
Qed.

Lemma num_add_whole a b :
  (a + b <= 2 ^ 53)%N → num_add (whole a) (whole b) = whole (a + b).
Proof.
  intros H. unfold whole at 1 2. cbn [num_add Nat.add Z.of_nat Z.pow].
  rewrite !Z.mul_1_r, <- N2Z.inj_add. by apply of_N_whole.
Qed.

(** ** The collection *)

Lemma deleteMeal_absent (i : jsstring) (ms : list Meal) :
  Forall (λ m, id m ≠ i) ms → deleteMeal i ms = ms.
Proof.
  unfold deleteMeal. induction 1 as [|m ms Hm _ IH]; [done|].
  rewrite filter_cons_True by done. by rewrite IH.
Qed.

Lemma deleteMeal_insert (r : Meal) (ms : list Meal) :
  deleteMeal (id r) (insertMeal r ms) = deleteMeal (id r) ms.
Proof.
  unfold deleteMeal, insertMeal. rewrite filter_cons_False; [done|].
  intros H. by apply H.
Qed.

Lemma run_sublist (history : list action) (ms : list Meal) :
  run history ms `sublist_of` inserted history ms.
Proof.
  revert ms. induction history as [|a h IH]; intros ms; [done|].
  destruct a as [r|i]; cbn [run fold_left apply_action inserted].
  - apply IH.
  - fold (run h (deleteMeal i ms)). etrans; [apply IH|].
    clear IH. assert (deleteMeal i ms `sublist_of` ms) as Hsub
      by apply sublist_filter.
    revert Hsub. generalize (deleteMeal i ms) as ms'. revert ms.
    induction h as [|a h IH]; intros ms ms' Hsub; [done|].
    destruct a; cbn [inserted]; apply IH; [by apply sublist_skip | done].
Qed.

(** C5: the collection is ordered newest first.  Inserting puts the new
    record at index 0 and shifts every existing record, unchanged, one
    place down; deleting by any identifier leaves a subsequence of the
    collection, so the relative order of the records that remain is
    kept; and after any history of inserts and deletes the collection
    is a subsequence of the inserted records taken latest first. *)
Theorem collection_newest_first (ms : list Meal) (r : Meal) (i : jsstring)
    (history : list action) :
  insertMeal r ms !! 0%nat = Some r
  ∧ (∀ n : nat, insertMeal r ms !! S n = ms !! n)
  ∧ deleteMeal i ms `sublist_of` ms
  ∧ run history [] `sublist_of` inserted history [].
Proof.
  split_and!; [done | done | apply sublist_filter | apply run_sublist].
Qed.

(** C10: deleting by an identifier removes every record that bears it,
    not only the first: what remains are exactly the records of the
    collection with another identifier, so no record with the deleted
    identifier is left however many there were. *)
Theorem deleteMeal_removes_all (ms : list Meal) (i : jsstring) :
  (∀ m, m ∈ deleteMeal i ms ↔ m ∈ ms ∧ id m ≠ i)
  ∧ Forall (λ m, id m ≠ i) (deleteMeal i ms)
  ∧ ∀ a b, deleteMeal i (a ++ b) = deleteMeal i a ++ deleteMeal i b.
Proof.
  split_and!.
  - intros m. unfold deleteMeal. rewrite list_elem_of_filter. tauto.
  - apply Forall_forall. intros m Hm.
    unfold deleteMeal in Hm. apply list_elem_of_filter in Hm. tauto.
  - intros a b. apply filter_app.
Qed.

(** C6, as amended: inserting a record whose identifier no record of
    the collection bears and then deleting by that identifier gives the
    prior collection back, content and order; whatever the collection,
    the result is the prior collection without the records bearing that
    identifier; and deleting an identifier that is absent changes
    nothing. *)
Theorem insert_then_delete (ms : list Meal) (r : Meal) (i : jsstring) :
  Forall (λ m, id m ≠ id r) ms →
  Forall (λ m, id m ≠ i) ms →
  deleteMeal (id r) (insertMeal r ms) = ms
  ∧ (∀ ms', deleteMeal (id r) (insertMeal r ms') = deleteMeal (id r) ms')
  ∧ deleteMeal i ms = ms.
Proof.
  intros Hr Hi. split_and!.
  - rewrite deleteMeal_insert. by apply deleteMeal_absent.
  - intros ms'. apply deleteMeal_insert.
  - by apply deleteMeal_absent.
Qed.

Lemma insert_then_delete_witness :
  deleteMeal (lit "3")
    (insertMeal (sample_meal "3" 540 30 60 20)
       [sample_meal "2" 10 1 2 3; sample_meal "1" 20 4 5 6])
  = [sample_meal "2" 10 1 2 3; sample_meal "1" 20 4 5 6]
  ∧ deleteMeal (lit "9")
      [sample_meal "2" 10 1 2 3; sample_meal "1" 20 4 5 6]
    = [sample_meal "2" 10 1 2 3; sample_meal "1" 20 4 5 6].
Proof.
  destruct (insert_then_delete
              [sample_meal "2" 10 1 2 3; sample_meal "1" 20 4 5 6]
              (sample_meal "3" 540 30 60 20) (lit "9")) as (H1 & _ & H3).
  - repeat constructor; vm_compute; discriminate.
  - repeat constructor; vm_compute; discriminate.
  - split; [exact H1 | exact H3].
Defined.

(** C6 as stated fails when the collection already holds a record with
    the identifier of the inserted one: the delete takes both. *)
Lemma insert_then_delete_duplicate :
  deleteMeal (id (sample_meal "1" 540 30 60 20))
    (insertMeal (sample_meal "1" 540 30 60 20) [sample_meal "1" 20 4 5 6])
  ≠ [sample_meal "1" 20 4 5 6].
Proof. vm_compute. discriminate. Qed.

(** ** Totals *)

Lemma Macros_ext (a b : Macros) : (∀ fd, proj fd a = proj fd b) → a = b.
Proof.
  intros H. destruct a, b.
  pose proof (H Calories). pose proof (H Protein).
  pose proof (H Carbs). pose proof (H Fat). simpl in *. congruence.
Qed.

Lemma proj_add_meal fd acc meal :
  proj fd (add_meal acc meal) = num_add (proj fd acc) (proj fd (macros meal)).
Proof. by destruct fd. Qed.

Lemma whole_of_Some x n : whole_of x = Some n → x = whole n.
Proof.
  destruct x as [z [|k]| | | |]; try done. cbn [whole_of].
  destruct (Z.leb_spec 0 z); [|done]. intros [= <-].
  unfold whole. by rewrite Z2N.id.
Qed.

Lemma field_sum_cons f meal ms s :
  field_sum f (meal :: ms) = Some s →
  ∃ n s', f (macros meal) = whole n ∧ field_sum f ms = Some s'
          ∧ s = (n + s')%N.
Proof.
  cbn [field_sum foldr]. fold (field_sum f ms).
  destruct (whole_of (f (macros meal))) as [n|] eqn:Hn; [|done].
  destruct (field_sum f ms) as [s'|]; [|done].
  intros [= <-]. exists n, s'. split_and!; [by apply whole_of_Some | done..].
Qed.

Lemma total_field fd ms : ∀ acc a s,
  proj fd acc = whole a →
  field_sum (proj fd) ms = Some s →
  (a + s <= 2 ^ 53)%N →
  proj fd (fold_left add_meal ms acc) = whole (a + s).
Proof.
  induction ms as [|meal ms IH]; intros acc a s Hacc Hsum Hle.
  - injection Hsum as <-. by rewrite N.add_0_r.
  - apply field_sum_cons in Hsum as (n & s' & Hn & Hs' & ->).
    cbn [fold_left]. rewrite N.add_assoc. apply IH; [|done|lia].
    rewrite proj_add_meal, Hacc, Hn. apply num_add_whole. lia.
Qed.

Lemma field_sum_perm f (ms ms' : list Meal) :
  ms' ≡ₚ ms → field_sum f ms' = field_sum f ms.
Proof.
  intros Hp. unfold field_sum.
  apply (foldr_permutation_proper (=)); [solve_proper| |done].
  intros a1 a2 b.
  destruct (whole_of (f (macros a1))), (whole_of (f (macros a2))), b;
    try done. f_equal. lia.
Qed.

Lemma totalMacros_whole ms c p cb f :
  field_sum calories ms = Some c → field_sum protein ms = Some p →
  field_sum carbs ms = Some cb → field_sum fat ms = Some f →
  (c <= 2 ^ 53)%N → (p <= 2 ^ 53)%N → (cb <= 2 ^ 53)%N → (f <= 2 ^ 53)%N →
  totalMacros ms = macros_of c p cb f.
Proof.
  intros Hc Hp Hcb Hf ? ? ? ?. apply Macros_ext. intros fd. unfold totalMacros.
  destruct fd.
  - by apply (total_field Calories ms no_macros 0%N c).
  - by apply (total_field Protein ms no_macros 0%N p).
  - by apply (total_field Carbs ms no_macros 0%N cb).
  - by apply (total_field Fat ms no_macros 0%N f).
Qed.

(** C4, as amended: for a collection whose macro values are whole
    numbers with every field's sum at most 2^53, the totals are the
    field-wise sums; they are the same for every reordering of the
    collection; and the empty collection has all-zero totals. *)
Theorem totalMacros_sums (ms : list Meal) (c p cb f : N) :
  field_sum calories ms = Some c → field_sum protein ms = Some p →
  field_sum carbs ms = Some cb → field_sum fat ms = Some f →
  (c <= 2 ^ 53)%N → (p <= 2 ^ 53)%N → (cb <= 2 ^ 53)%N → (f <= 2 ^ 53)%N →
  totalMacros ms = macros_of c p cb f
  ∧ (∀ ms', ms' ≡ₚ ms → totalMacros ms' = totalMacros ms)
  ∧ totalMacros [] = macros_of 0 0 0 0.
Proof.
  intros Hc Hp Hcb Hf ? ? ? ?. split_and!.
  - by apply totalMacros_whole.
  - intros ms' Hperm.
    rewrite (totalMacros_whole ms c p cb f) by done.
    apply totalMacros_whole; try done; by rewrite (field_sum_perm _ ms).
  - done.
Qed.

Lemma totalMacros_sums_witness :
  totalMacros [sample_meal "1" 10 1 2 3; sample_meal "2" 20 4 5 6]
  = macros_of 30 5 7 9
  ∧ totalMacros [sample_meal "2" 20 4 5 6; sample_meal "1" 10 1 2 3]
    = totalMacros [sample_meal "1" 10 1 2 3; sample_meal "2" 20 4 5 6].
Proof.
  destruct (totalMacros_sums
              [sample_meal "1" 10 1 2 3; sample_meal "2" 20 4 5 6] 30 5 7 9)
    as (H1 & H2 & _);
    [vm_compute; reflexivity.. | lia | lia | lia | lia |].
  split; [exact H1|]. apply H2. apply Permutation_swap.
Defined.

(** C4 as stated fails once a sum passes 2^53, where the additions
    round: three records that [parseMacros] can produce total 2^53
    calories in one order and 2^53 + 2 in another. *)
Lemma totalMacros_order_dependent :
  [sample_meal "1" 9007199254740992 0 0 0; sample_meal "2" 1 0 0 0;
   sample_meal "3" 1 0 0 0]
  ≡ₚ [sample_meal "2" 1 0 0 0; sample_meal "3" 1 0 0 0;
      sample_meal "1" 9007199254740992 0 0 0]
  ∧ calories (totalMacros [sample_meal "1" 9007199254740992 0 0 0;
                           sample_meal "2" 1 0 0 0; sample_meal "3" 1 0 0 0])
    = whole 9007199254740992
  ∧ calories (totalMacros [sample_meal "2" 1 0 0 0; sample_meal "3" 1 0 0 0;
                           sample_meal "1" 9007199254740992 0 0 0])
    = whole 9007199254740994.
Proof.
  split_and!; [|by vm_compute..].
  apply (Permutation_app_comm [_] [_; _]).
Qed.

(** ** The submission workflow *)

(** C9: when a submission with a selected image ends with an error
    shown (the analysis reports an error, the call fails, or the
    preprocessing fails), the selected image, its preview and the
    collection are as before, and a retry from that state sends the
    same file for analysis again, whatever the outside world then
    does; when it ends without error the selected image and the
    preview are cleared and one record has been put in front. *)
Theorem failed_submission_keeps_image (w : World) (st : State) (f : File) :
  file st = Some f →
  (error (fst (handleSubmit w st)) ≠ None →
     file (fst (handleSubmit w st)) = Some f
     ∧ preview (fst (handleSubmit w st)) = preview st
     ∧ meals (fst (handleSubmit w st)) = meals st
     ∧ snd (handleSubmit w st) = [f]
     ∧ ∀ w', snd (handleSubmit w' (fst (handleSubmit w st))) = [f])
  ∧ (error (fst (handleSubmit w st)) = None →
     file (fst (handleSubmit w st)) = None
     ∧ preview (fst (handleSubmit w st)) = None
     ∧ ∃ newMeal, meals (fst (handleSubmit w st)) = newMeal :: meals st)
  ∧ (reachable w = false → error (fst (handleSubmit w st)) = Some unexpected)
  ∧ (∀ e, reachable w = true → resp_error (analyzeImage w (Some f)) = Some e →
          truthy e = true → error (fst (handleSubmit w st)) = Some e)
  ∧ (reachable w = true → compressImage w f = Rejected →
     error (fst (handleSubmit w st)) ≠ None).
Proof.
  intros Hf.
  assert (∀ msg w', snd (handleSubmit w'
            (mkState (meals st) false (Some msg) (Some f) (preview st))) = [f])
    as Hretry.
  { intros msg w'. unfold handleSubmit. cbn [file].
    destruct (reachable w'); [|done].
    destruct (resp_error _) as [[|? ?]|]; try done;
      by destruct (compressImage w' f). }
  remember (handleSubmit w st) as res eqn:Hres.
  unfold handleSubmit in Hres. rewrite Hf in Hres.
  destruct (reachable w) eqn:Hreach; cbv beta iota zeta in Hres.
  - destruct (resp_error (analyzeImage w (Some f))) as [[|c e]|] eqn:Herr;
      cbv beta iota zeta in Hres;
      destruct (compressImage w f) eqn:Hc; subst res;
      cbn [fst snd error file preview meals];
      (split_and!;
       [ try done; intros _; split_and!; try done; apply Hretry
       | try done; intros _; split_and!; eauto
       | done
       | intros e' _ [= <-]; done
       | done ]).
  - subst res. cbn [fst snd error file preview meals].
    split_and!; try done.
Qed.

Lemma failed_submission_keeps_image_witness :
  error (fst (handleSubmit sample_world sample_state))
  = Some (lit "GEMINI_API_KEY is not set")
  ∧ file (fst (handleSubmit sample_world sample_state)) = Some sample_file
  ∧ preview (fst (handleSubmit sample_world sample_state))
    = Some (lit "blob:preview")
  ∧ ∀ w', snd (handleSubmit w' (fst (handleSubmit sample_world sample_state)))
          = [sample_file].
Proof.
  destruct (failed_submission_keeps_image sample_world sample_state sample_file
              eq_refl) as (Hfail & _ & _ & Herr & _).
  pose proof (Herr (lit "GEMINI_API_KEY is not set") eq_refl eq_refl eq_refl)
    as He.
  destruct Hfail as (H1 & H2 & _ & _ & H5).
  - rewrite He. discriminate.
  - split_and!; [exact He | exact H1 | exact H2 | exact H5].
Defined.

(** ** The parser *)

Lemma exec_None re s : exec re s = None ↔ ∀ n : nat, exec_at re (drop n s) = None.
Proof.
  induction s as [|c s IH].
  - cbn [exec]. split.
    + intros H n. rewrite drop_nil. by destruct (exec_at re []).
    + intros H. pose proof (H 0%nat) as H0. cbn [drop] in H0. by rewrite H0.
  - cbn [exec]. split.
    + intros H n. destruct (exec_at re (c :: s)) eqn:E; [done|].
      destruct n as [|n]; [done|]. cbn [drop]. by apply IH.
    + intros H. pose proof (H 0%nat) as H0. cbn [drop] in H0. rewrite H0.
      apply IH. intros n. apply (H (S n)).
Qed.

Lemma exec_first re s (n : nat) g :
  exec_at re (drop n s) = Some g →
  (∀ j : nat, (j < n)%nat → exec_at re (drop j s) = None) →
  exec re s = Some g.
Proof.
  revert s. induction n as [|n IH]; intros s Hn Hbefore.
  - rewrite drop_0 in Hn. destruct s; cbn [exec]; by rewrite Hn.
  - destruct s as [|c s].
    + rewrite drop_nil in Hn. cbn [exec]. by rewrite Hn.
    + cbn [exec]. pose proof (Hbefore 0%nat ltac:(lia)) as H0.
      cbn [drop] in H0. rewrite H0.
      apply IH; [done|]. intros j Hj. apply (Hbefore (S j)). lia.
Qed.

Lemma exec_Some re s g :
  exec re s = Some g →
  ∃ n : nat, exec_at re (drop n s) = Some g
             ∧ ∀ j : nat, (j < n)%nat → exec_at re (drop j s) = None.
Proof.
  induction s as [|c s IH]; cbn [exec].
  - destruct (exec_at re []) eqn:E; [|done]. intros [= <-].
    exists 0%nat. split; [done | lia].
  - destruct (exec_at re (c :: s)) eqn:E.
    + intros [= <-]. exists 0%nat. split; [done | lia].
    + intros H. destruct (IH H) as (n & Hn & Hb). exists (S n).
      split; [done|]. intros [|j] Hj; [done|]. apply Hb. lia.
Qed.

Lemma digits_then_digits sf s g :
  digits_then sf s = Some g → all_digits g = true ∧ g ≠ [].
Proof.
  revert g. induction s as [|c s IH]; intros g; cbn [digits_then]; [done|].
  destruct (is_digit c) eqn:Hc; [|done].
  destruct (digits_then sf s) as [ds|].
  - intros [= <-]. destruct (IH ds eq_refl) as [Hd _].
    split; [|done]. cbn [all_digits forallb]. by rewrite Hc.
  - destruct (starts_with sf s); [|done]. intros [= <-].
    split; [|done]. cbn [all_digits forallb]. by rewrite Hc.
Qed.

Lemma is_digit_not_white c : is_digit c = true → is_white c = false.
Proof.
  unfold is_digit, is_white. intros H.
  apply andb_true_iff in H as [H1 H2].
  apply N.leb_le in H1. apply N.leb_le in H2.
  apply orb_false_iff. split.
  - cbn [existsb]. repeat (apply orb_false_iff; split); try done;
      apply N.eqb_neq; lia.
  - apply andb_false_iff. left. apply N.leb_gt. lia.
Qed.

Lemma span_digits_all ds : all_digits ds = true → span_digits ds = (ds, []).
Proof.
  induction ds as [|c ds IH]; [done|]. cbn [all_digits forallb].
  intros H. apply andb_true_iff in H as [Hc Hds].
  cbn [span_digits]. rewrite Hc, IH; done.
Qed.

Lemma parseInt_digits ds :
  all_digits ds = true → ds ≠ [] → parseInt ds = of_N (digits_value ds).
Proof.
  intros Hall Hne. destruct ds as [|c ds]; [done|].
  pose proof Hall as Hall'. cbn [all_digits forallb] in Hall'.
  apply andb_true_iff in Hall' as [Hc _].
  unfold parseInt. cbn [skip_white]. rewrite (is_digit_not_white c Hc).
  assert (c ≠ 45%N ∧ c ≠ 43%N) as [H45 H43].
  { unfold is_digit in Hc. apply andb_true_iff in Hc as [H1 H2].
    apply N.leb_le in H1. apply N.leb_le in H2. lia. }
  unfold split_sign.
  apply N.eqb_neq in H45. apply N.eqb_neq in H43. rewrite H45, H43.
  by rewrite (span_digits_all _ Hall).
Qed.

Lemma getVal_whole text re : ∃ n, getVal text re = of_N n.
Proof.
  unfold getVal. destruct (exec re text) as [g|] eqn:E.
  - apply exec_Some in E as (n & Hn & _). unfold exec_at in Hn.
    destruct (strip_prefix _ _); [|done].
    apply digits_then_digits in Hn as [Hall Hne].
    exists (digits_value g). by apply parseInt_digits.
  - by exists 0%N.
Qed.

Lemma exec_cons_None re c s :
  exec_at re (c :: s) = None → exec re (c :: s) = exec re s.
Proof. intros H. cbn [exec]. by rewrite H. Qed.

Lemma exec_at_Some re s g : exec_at re s = Some g → exec re s = Some g.
Proof. intros H. destruct s; cbn [exec]; by rewrite H. Qed.

Lemma exec_skip_digits re a pr ds t :
  pre re = a :: pr → is_digit a = false → all_digits ds = true →
  exec re (ds ++ t) = exec re t.
Proof.
  intros Hpre Ha. induction ds as [|d ds IH]; [done|].
  cbn [all_digits forallb]. intros H. apply andb_true_iff in H as [Hd Hds].
  cbn [app]. rewrite exec_cons_None; [by apply IH|].
  unfold exec_at. rewrite Hpre. cbn [strip_prefix].
  destruct (N.eqb_spec a d) as [->|]; [congruence | done].
Qed.

Lemma strip_prefix_digit x sf d s :
  is_digit x = false → is_digit d = true → strip_prefix (x :: sf) (d :: s) = None.
Proof.
  intros Hx Hd. cbn [strip_prefix].
  destruct (N.eqb_spec x d) as [->|]; [congruence | done].
Qed.

Lemma digits_then_cons sf c r :
  digits_then sf (c :: r)
  = if is_digit c then
      match digits_then sf r with
      | Some ds => Some (c :: ds)
      | None => if starts_with sf r then Some [c] else None
      end
    else None.
Proof. done. Qed.

Lemma strip_prefix_app l r : strip_prefix l (l ++ r) = Some r.
Proof.
  induction l as [|y l IHl]; [done|].
  cbn [app strip_prefix]. by rewrite N.eqb_refl.
Qed.

(** A run of digits followed by the rest of the pattern is captured
    whole: giving a digit back cannot help, the rest of the pattern
    does not begin with a digit. *)
Lemma digits_then_run x sf ds rest :
  is_digit x = false → all_digits ds = true → ds ≠ [] →
  digits_then (x :: sf) (ds ++ (x :: sf) ++ rest) = Some ds.
Proof.
  intros Hx. induction ds as [|d ds IH]; [done|].
  cbn [all_digits forallb]. intros H _. apply andb_true_iff in H as [Hd Hds].
  change ((d :: ds) ++ (x :: sf) ++ rest)
    with (d :: (ds ++ (x :: sf) ++ rest)).
  rewrite digits_then_cons, Hd.
  destruct ds as [|d' ds].
  - change ([] ++ (x :: sf) ++ rest) with (x :: (sf ++ rest)).
    rewrite digits_then_cons, Hx. unfold starts_with.
    change (x :: sf ++ rest) with ((x :: sf) ++ rest).
    by rewrite strip_prefix_app.
  - by rewrite IH.
Qed.

Ltac norm_text :=
  match goal with
  | |- context [exec ?re ?t] =>
      let t1 := eval cbv - [app] in t in
      let t2 := eval cbn [app] in t1 in
      change t with t2
  end.

Ltac skip_to_match :=
  repeat first
    [ rewrite exec_cons_None by reflexivity
    | erewrite exec_skip_digits by (first [reflexivity | eassumption]) ].

Lemma exec_at_capture re x sf ds rest :
  suf re = x :: sf → is_digit x = false → all_digits ds = true → ds ≠ [] →
  exec_at re (pre re ++ ds ++ (x :: sf) ++ rest) = Some ds.
Proof.
  intros Hsuf Hx Hall Hne. unfold exec_at.
  rewrite strip_prefix_app, Hsuf. by apply digits_then_run.
Qed.

Ltac capture re ds :=
  apply exec_at_Some;
  let sfx := eval cbv in (suf re) in
  match sfx with
  | ?x :: ?sf =>
      eapply (exec_at_capture re x sf ds);
      [reflexivity | reflexivity | eassumption | eassumption]
  end.

Lemma exec_template fd c p cb f :
  all_digits c = true → c ≠ [] → all_digits p = true → p ≠ [] →
  all_digits cb = true → cb ≠ [] → all_digits f = true → f ≠ [] →
  exec (pattern_of fd) (template c p cb f)
  = Some (match fd with
          | Calories => c
          | Protein => p
          | Carbs => cb
          | Fat => f
          end).
Proof.
  intros Hc Hc' Hp Hp' Hcb Hcb' Hf Hf'.
  destruct fd; cbn [pattern_of]; norm_text; skip_to_match.
  - capture re_calories c.
  - capture re_protein p.
  - capture re_carbs cb.
  - capture re_fat f.
Qed.

Lemma getVal_template fd c p cb f :
  all_digits c = true → c ≠ [] → all_digits p = true → p ≠ [] →
  all_digits cb = true → cb ≠ [] → all_digits f = true → f ≠ [] →
  getVal (template c p cb f) (pattern_of fd)
  = of_N (digits_value (match fd with
                        | Calories => c
                        | Protein => p
                        | Carbs => cb
                        | Fat => f
                        end)).
Proof.
  intros. unfold getVal. rewrite exec_template by done.
  destruct fd; by apply parseInt_digits.
Qed.

(** C1, as amended: for every answer that is the two-line template
    around four non-empty digit strings, each denoting an integer of at
    most 2^53, [parseMacros] returns exactly those four integers, each
    under its own field; and for every text, when a pattern matches at
    some position and at no earlier one, the field is read from that
    earliest match. *)
Theorem parseMacros_template (c p cb f : jsstring) :
  all_digits c = true → c ≠ [] → all_digits p = true → p ≠ [] →
  all_digits cb = true → cb ≠ [] → all_digits f = true → f ≠ [] →
  (digits_value c <= 2 ^ 53)%N → (digits_value p <= 2 ^ 53)%N →
  (digits_value cb <= 2 ^ 53)%N → (digits_value f <= 2 ^ 53)%N →
  parseMacros (template c p cb f)
  = macros_of (digits_value c) (digits_value p) (digits_value cb)
              (digits_value f)
  ∧ ∀ fd text (n : nat) g,
      exec_at (pattern_of fd) (drop n text) = Some g →
      (∀ j : nat, (j < n)%nat → exec_at (pattern_of fd) (drop j text) = None) →
      proj fd (parseMacros text) = parseInt g.
Proof.
  intros Hc Hc' Hp Hp' Hcb Hcb' Hf Hf' Bc Bp Bcb Bf. split.
  - apply Macros_ext. intros fd.
    transitivity (getVal (template c p cb f) (pattern_of fd));
      [by destruct fd|].
    rewrite getVal_template by done.
    destruct fd; by apply of_N_whole.
  - intros fd text n g Hn Hbefore.
    transitivity (getVal text (pattern_of fd)); [by destruct fd|].
    unfold getVal. by rewrite (exec_first _ _ n g).
Qed.

Lemma parseMacros_template_witness :
  parseMacros (template (lit "540") (lit "30") (lit "60") (lit "20"))
  = macros_of 540 30 60 20
  ∧ fat (parseMacros (lit "**Fat:** 7x **Fat:** 12g **Fat:** 9g"))
    = parseInt (lit "12").
Proof.
  destruct (parseMacros_template (lit "540") (lit "30") (lit "60") (lit "20"))
    as [H1 H2];
    [reflexivity | discriminate | reflexivity | discriminate
    | reflexivity | discriminate | reflexivity | discriminate
    | vm_compute; discriminate.. |].
  split; [exact H1|].
  apply (H2 Fat (lit "**Fat:** 7x **Fat:** 12g **Fat:** 9g") 12%nat (lit "12")).
  - reflexivity.
  - intros j Hj.
    do 12 (destruct j as [|j]; [reflexivity|]). lia.
Defined.

(** C1 as stated fails for an embedded integer above 2^53 that is not a
    binary64 value: [parseInt] gives the nearest Number. *)
Lemma parseMacros_rounds :
  all_digits (lit "9007199254740993") = true
  ∧ digits_value (lit "9007199254740993") = 9007199254740993%N
  ∧ calories (parseMacros (template (lit "9007199254740993") (lit "30")
                                    (lit "60") (lit "20")))
    = whole 9007199254740992
  ∧ whole 9007199254740992 ≠ whole 9007199254740993.
Proof. split_and!; [by vm_compute.. | discriminate]. Qed.

(** C2: [parseMacros] is a total function of the text, so every string
    gets a value and nothing is thrown.  Each field is read with its
    own pattern alone; it is always a whole number (never [NaN]); it is
    0 when the pattern matches at no position of the text; and the
    empty string gives all zeros. *)
Theorem parseMacros_never_fails (text : jsstring) (fd : field) :
  proj fd (parseMacros text) = getVal text (pattern_of fd)
  ∧ (∃ n, proj fd (parseMacros text) = of_N n)
  ∧ ((∀ n : nat, exec_at (pattern_of fd) (drop n text) = None) →
     proj fd (parseMacros text) = zero)
  ∧ parseMacros [] = no_macros.
Proof.
  assert (proj fd (parseMacros text) = getVal text (pattern_of fd)) as Hfd
    by (by destruct fd).
  split_and!; [done | | | done].
  - rewrite Hfd. apply getVal_whole.
  - intros Hnone. rewrite Hfd. unfold getVal.
    apply exec_None in Hnone. by rewrite Hnone.
Qed.

Lemma parseMacros_never_fails_witness :
  calories (parseMacros (lit "**Fat:** 7g, about 63 Calories")) = zero
  ∧ parseMacros [] = no_macros.
Proof.
  destruct (parseMacros_never_fails (lit "**Fat:** 7g, about 63 Calories")
              Calories) as (_ & _ & H & H0).
  split; [|exact H0]. apply H.
  apply exec_None. reflexivity.
Defined.

(** ** Loading *)

(** What [load] does, case by case: when the value under the storage
    key does not parse as JSON, or is absent or empty, it throws
    nothing and leaves the collection empty; a value that does parse
    is what [setMeals] is called with. *)
Lemma load_tolerates_unparsable (localStorage : gmap (list N) (list N))
    (saved : jsstring) :
  localStorage !! storage_key = Some saved →
  ((truthy saved = false ∨ ∃ msg, JSON_parse saved = Throw msg) →
   load localStorage initial_meals = initial_meals)
  ∧ (∀ v, truthy saved = true → JSON_parse saved = Normal v →
          load localStorage initial_meals = v)
  ∧ load (delete storage_key localStorage) initial_meals = initial_meals.
Proof.
  intros Hsaved. unfold load. rewrite Hsaved, lookup_delete_eq. split_and!.
  - intros [Hempty | [msg Hthrow]].
    + by rewrite Hempty.
    + rewrite Hthrow. by destruct (truthy saved).
  - intros v Ht Hv. by rewrite Ht, Hv.
  - done.
Qed.

Lemma load_tolerates_unparsable_witness :
  load {[storage_key := lit "[{id: 1700000000000"]} initial_meals
  = initial_meals.
Proof.
  destruct (load_tolerates_unparsable
              {[storage_key := lit "[{id: 1700000000000"]}
              (lit "[{id: 1700000000000")) as (H & _ & _).
  - apply lookup_singleton_eq.
  - apply H. right. exists (lit "SyntaxError"). reflexivity.
Defined.

(** C3: the code misses a case.  The effect guards [JSON.parse] with
    [try]/[catch] and keeps the empty collection when the stored text
    is absent, empty or does not parse, but it hands whatever does
    parse to [setMeals] without looking at it.  Stored text that is
    JSON of another shape, as [[1]] or [null], is not a collection of
    meal records and becomes the collection all the same, where text
    cut short in the middle of a record leaves the collection empty.
    (The render that follows reads [meals.reduce] and
    [meal.macros.calories] of it, lines 137-138.) *)
Theorem load_adopts_non_collection :
  load {[storage_key := lit "[1]"]} initial_meals = VArr [VNum (whole 1)]
  ∧ is_meal_array (VArr [VNum (whole 1)]) = false
  ∧ VArr [VNum (whole 1)] ≠ initial_meals
  ∧ load {[storage_key := lit "null"]} initial_meals = VNull
  ∧ is_meal_array VNull = false
  ∧ VNull ≠ initial_meals
  ∧ load {[storage_key := lit "[{id: 1700000000000"]} initial_meals
    = initial_meals.
Proof.
  unfold load. rewrite !lookup_singleton_eq.
  split_and!; first [reflexivity | discriminate].
Qed.

(** ** Strings survive [JSON.stringify] and [JSON.parse] *)

Ltac case_N :=
  repeat match goal with
         | |- context [(?a <=? ?b)%N] => destruct (N.leb_spec a b)
         | |- context [(?a <? ?b)%N] => destruct (N.ltb_spec a b)
         | |- context [(?a =? ?b)%N] => destruct (N.eqb_spec a b)
         end; cbn [andb orb negb].

Lemma hex_val_digit n : (n < 16)%N → hex_val (hex_digit n) = Some n.
Proof.
  intros Hn. unfold hex_digit, hex_val.
  destruct (N.ltb_spec n 10); case_N; try lia; f_equal; lia.
Qed.

Lemma parse_chars_raw c t :
  (32 <= c)%N → c ≠ 34%N → c ≠ 92%N →
  parse_chars (c :: t) = push c (parse_chars t).
Proof.
  intros H32 H34 H92. cbn [parse_chars].
  apply N.eqb_neq in H34. apply N.eqb_neq in H92. rewrite H34, H92.
  by destruct (N.ltb_spec c 32); [lia|].
Qed.

Lemma parse_chars_unicode c t :
  (c < 65536)%N → parse_chars (unicode_escape c ++ t) = push c (parse_chars t).
Proof.
  intros Hc. unfold unicode_escape, hex4.
  cbn [app parse_chars N.eqb Pos.eqb].
  rewrite !hex_val_digit by (apply N.mod_lt; lia).
  f_equal.
  pose proof (N.div_mod c 16 ltac:(lia)).
  pose proof (N.div_mod (c / 16) 16 ltac:(lia)).
  pose proof (N.div_mod (c / 16 / 16) 16 ltac:(lia)).
  assert (c / 16 / 16 / 16 < 16)%N.
  { rewrite !N.Div0.div_div. apply N.Div0.div_lt_upper_bound. lia. }
  rewrite <- !N.Div0.div_div with (b := 16%N) (c := 16%N) in *.
  replace (c / 256)%N with (c / 16 / 16)%N
    by (rewrite N.Div0.div_div; f_equal).
  replace (c / 4096)%N with (c / 16 / 16 / 16)%N
    by (rewrite !N.Div0.div_div; f_equal).
  rewrite (N.mod_small (c / 16 / 16 / 16) 16) by done.
  lia.
Qed.

Lemma parse_chars_escape c t :
  is_high c = false → is_low c = false →
  parse_chars (escape_unit c ++ t) = push c (parse_chars t).
Proof.
  intros Hh Hl. unfold escape_unit.
  destruct (N.eqb_spec c 8) as [->|]; [done|].
  destruct (N.eqb_spec c 9) as [->|]; [done|].
  destruct (N.eqb_spec c 10) as [->|]; [done|].
  destruct (N.eqb_spec c 12) as [->|]; [done|].
  destruct (N.eqb_spec c 13) as [->|]; [done|].
  destruct (N.eqb_spec c 34) as [->|]; [done|].
  destruct (N.eqb_spec c 92) as [->|]; [done|].
  destruct (N.ltb_spec c 32).
  - apply parse_chars_unicode. lia.
  - by apply parse_chars_raw.
Qed.

Lemma surrogate_bounds c :
  is_high c = true ∨ is_low c = true →
  (32 <= c)%N ∧ c ≠ 34%N ∧ c ≠ 92%N ∧ (c < 65536)%N.
Proof.
  unfold is_high, is_low. intros [H|H];
    apply andb_true_iff in H as [H1 H2];
    apply N.leb_le in H1; apply N.leb_le in H2; lia.
Qed.

Lemma parse_chars_quote_units s : ∀ rest,
  parse_chars (quote_units s ++ 34%N :: rest) = Some (s, rest).
Proof.
  assert (∀ (n : nat) s rest, (length s <= n)%nat →
            parse_chars (quote_units s ++ 34%N :: rest) = Some (s, rest))
    as Hind.
  { clear s. induction n as [|n IH]; intros s rest Hlen.
    - destruct s; [done | cbn [length] in Hlen; lia].
    - destruct s as [|c r]; [done|]. cbn [length] in Hlen.
      cbn [quote_units].
      destruct (is_high c) eqn:Hh.
      + destruct (surrogate_bounds c (or_introl Hh)) as (? & ? & ? & ?).
        destruct r as [|d r'].
        * rewrite parse_chars_unicode by done. done.
        * destruct (is_low d) eqn:Hl.
          -- destruct (surrogate_bounds d (or_intror Hl)) as (? & ? & ? & ?).
             cbn [app]. rewrite !parse_chars_raw by done.
             rewrite IH by (cbn [length] in Hlen; lia). done.
          -- rewrite <- app_assoc, parse_chars_unicode by done.
             rewrite IH by lia. done.
      + destruct (is_low c) eqn:Hl.
        * destruct (surrogate_bounds c (or_intror Hl)) as (? & ? & ? & ?).
          rewrite <- app_assoc, parse_chars_unicode by done.
          rewrite IH by lia. done.
        * rewrite <- app_assoc, parse_chars_escape by done.
          rewrite IH by lia. done. }
  intros rest. by apply (Hind (length s)).
Qed.

(** ** Rounding depends on the ratio only *)

Lemma pow2_pos s : 0 < pow2 s.
Proof. unfold pow2. apply Z.pow_pos_nonneg; lia. Qed.

Lemma pow2_add a b : 0 <= a → 0 <= b → 2 ^ (a + b) = 2 ^ a * 2 ^ b.
Proof. intros. by apply Z.pow_add_r. Qed.

(** [ge_pow2 p q e] with both sides scaled by a common power of two. *)
Lemma ge_pow2_shift p q e k :
  Z.abs e <= k → ge_pow2 p q e = (q * 2 ^ (k + e) <=? p * 2 ^ k).
Proof.
  intros Hk. unfold ge_pow2.
  destruct (Z.le_gt_cases 0 e) as [He|He].
  - rewrite (pow2_nonneg_eq e), (pow2_nonpos_eq (- e)) by lia.
    rewrite pow2_add by lia.
    assert (0 < 2 ^ k) by (apply Z.pow_pos_nonneg; lia).
    apply eq_true_iff_eq. rewrite !Z.leb_le. nia.
  - rewrite (pow2_nonpos_eq e), (pow2_nonneg_eq (- e)) by lia.
    replace k with ((k + e) + - e) at 2 by lia.
    rewrite (pow2_add (k + e) (- e)) by lia.
    assert (0 < 2 ^ (k + e)) by (apply Z.pow_pos_nonneg; lia).
    apply eq_true_iff_eq. rewrite !Z.leb_le. nia.
Qed.

Lemma ge_pow2_mono p q e e' :
  0 < q → e' <= e → ge_pow2 p q e = true → ge_pow2 p q e' = true.
Proof.
  intros Hq Hle.
  rewrite (ge_pow2_shift p q e (Z.abs e + Z.abs e')) by lia.
  rewrite (ge_pow2_shift p q e' (Z.abs e + Z.abs e')) by lia.
  rewrite !Z.leb_le. intros H. etrans; [|exact H].
  apply Z.mul_le_mono_nonneg_l; [lia|].
  apply Z.pow_le_mono_r; lia.
Qed.

Lemma ge_pow2_scale p q c e :
  0 < c → ge_pow2 (p * c) (q * c) e = ge_pow2 p q e.
Proof.
  intros Hc. unfold ge_pow2. apply eq_true_iff_eq. rewrite !Z.leb_le.
  pose proof (pow2_pos e). pose proof (pow2_pos (- e)). nia.
Qed.

Lemma ilog2_ratio_spec p q :
  0 < p → 0 < q →
  ge_pow2 p q (ilog2_ratio p q) = true
  ∧ ge_pow2 p q (ilog2_ratio p q + 1) = false.
Proof.
  intros Hp Hq.
  destruct (Z.log2_spec p Hp) as [Hp1 Hp2].
  destruct (Z.log2_spec q Hq) as [Hq1 Hq2].
  pose proof (Z.log2_nonneg p). pose proof (Z.log2_nonneg q).
  set (lp := Z.log2 p) in *. set (lq := Z.log2 q) in *.
  assert (ge_pow2 p q (lp - lq - 1) = true) as Hlow.
  { rewrite (ge_pow2_shift p q _ (lp + lq + 1)) by lia.
    apply Z.leb_le.
    replace (lp + lq + 1 + (lp - lq - 1)) with (lp + lp) by lia.
    rewrite !pow2_add by lia.
    assert (0 < 2 ^ lp) by (apply Z.pow_pos_nonneg; lia).
    assert (0 < 2 ^ lq) by (apply Z.pow_pos_nonneg; lia).
    rewrite Z.pow_succ_r in Hq2 by lia. change (2 ^ 1) with 2.
    remember (2 ^ lp) as A eqn:HA'. remember (2 ^ lq) as B eqn:HB'.
    clear HA' HB'.
    assert (q * A <= 2 * B * A) by nia.
    assert (2 * B * A * A <= 2 * B * A * p) by nia. nia. }
  assert (ge_pow2 p q (lp - lq + 1) = false) as Hhigh.
  { rewrite (ge_pow2_shift p q _ (lp + lq + 1)) by lia.
    apply Z.leb_gt.
    replace (lp + lq + 1 + (lp - lq + 1)) with (lp + 1 + (lp + 1)) by lia.
    rewrite !pow2_add by lia.
    assert (0 < 2 ^ lp) by (apply Z.pow_pos_nonneg; lia).
    assert (0 < 2 ^ lq) by (apply Z.pow_pos_nonneg; lia).
    rewrite Z.pow_succ_r in Hp2 by lia. change (2 ^ 1) with 2.
    remember (2 ^ lp) as A eqn:HA'. remember (2 ^ lq) as B eqn:HB'.
    clear HA' HB'.
    assert (p * (A * B) < 2 * A * (A * B)) by nia.
    assert (2 * A * (A * B) <= 2 * A * (A * q)) by nia. nia. }
  unfold ilog2_ratio. fold lp lq.
  destruct (ge_pow2 p q (lp - lq)) eqn:Hd.
  - done.
  - by replace (lp - lq - 1 + 1) with (lp - lq) by lia.
Qed.

Lemma ilog2_ratio_unique p q e :
  0 < p → 0 < q →
  ge_pow2 p q e = true → ge_pow2 p q (e + 1) = false → ilog2_ratio p q = e.
Proof.
  intros Hp Hq He1 He2.
  destruct (ilog2_ratio_spec p q Hp Hq) as [H1 H2].
  destruct (Z.lt_trichotomy (ilog2_ratio p q) e) as [Hlt | [Heq | Hgt]];
    [|done|].
  - rewrite (ge_pow2_mono p q e (ilog2_ratio p q + 1)) in H2 by (done || lia).
    done.
  - rewrite (ge_pow2_mono p q (ilog2_ratio p q) (e + 1)) in He2
      by (done || lia).
    done.
Qed.

Lemma ilog2_ratio_scale p q c :
  0 < p → 0 < q → 0 < c → ilog2_ratio (p * c) (q * c) = ilog2_ratio p q.
Proof.
  intros Hp Hq Hc.
  destruct (ilog2_ratio_spec p q Hp Hq) as [H1 H2].
  apply ilog2_ratio_unique; [nia | nia | |]; by rewrite ge_pow2_scale.
Qed.

Lemma compare_mul_l c a b : 0 < c → (c * a ?= c * b) = (a ?= b).
Proof.
  intros Hc. destruct (Z.compare_spec a b) as [->|H|H].
  - apply Z.compare_refl.
  - apply Z.compare_lt_iff. nia.
  - apply Z.compare_gt_iff. nia.
Qed.

Lemma rnd_pos_scale p q c :
  0 < p → 0 < q → 0 < c → rnd_pos (p * c) (q * c) = rnd_pos p q.
Proof.
  intros Hp Hq Hc. unfold rnd_pos. rewrite ilog2_ratio_scale by done.
  set (u := Z.max (ilog2_ratio p q - 52) (-1074)).
  pose proof (pow2_pos u). pose proof (pow2_pos (- u)).
  replace (p * c * pow2 (- u)) with (c * (p * pow2 (- u))) by ring.
  replace (q * c * pow2 u) with (c * (q * pow2 u)) by ring.
  rewrite Z.div_mul_cancel_l by nia.
  rewrite Z.mul_mod_distr_l by nia.
  replace (2 * (c * ((p * pow2 (- u)) mod (q * pow2 u))))
    with (c * (2 * ((p * pow2 (- u)) mod (q * pow2 u)))) by ring.
  by rewrite compare_mul_l by done.
Qed.

Lemma rnd_scale p q c : 0 < q → 0 < c → rnd (p * c) (q * c) = rnd p q.
Proof.
  intros Hq Hc. destruct p as [|p|p].
  - done.
  - assert (∃ r, Z.pos p * c = Z.pos r) as [r Hr].
    { destruct (Z.pos p * c) eqn:E; try lia. by eexists. }
    unfold rnd at 1. rewrite Hr, <- Hr. cbn [rnd].
    by apply rnd_pos_scale.
  - assert (∃ r, Z.neg p * c = Z.neg r) as [r Hr].
    { destruct (Z.neg p * c) eqn:E; try lia. by eexists. }
    unfold rnd at 1. rewrite Hr, <- Hr. cbn [rnd]. f_equal.
    replace (- (Z.neg p * c)) with (- Z.neg p * c) by ring.
    apply rnd_pos_scale; lia.
Qed.

(** ** The decimal printed for a Number rounds back to it *)

Lemma number_eqb_eq a b : number_eqb a b = true → a = b.
Proof.
  destruct a, b; cbn [number_eqb]; try done.
  intros H. apply andb_true_iff in H as [Hz Hk].
  apply Z.eqb_eq in Hz. apply Nat.eqb_eq in Hk. by subst.
Qed.

Lemma pow10_pos s : 0 < pow10 s.
Proof. unfold pow10. apply Z.pow_pos_nonneg; lia. Qed.

Lemma pow10_nonneg_eq s : 0 <= s → pow10 s = 10 ^ s.
Proof. intros H. unfold pow10. by rewrite Z.max_r. Qed.

Lemma pow10_nonpos_eq s : s <= 0 → pow10 s = 1.
Proof. intros H. unfold pow10. by rewrite Z.max_l. Qed.

Lemma dec_value_shift s e : dec_value (10 * s) e = dec_value s (e + 1).
Proof.
  unfold dec_value. destruct (Z.le_gt_cases 0 e) as [He|He].
  - rewrite (pow10_nonneg_eq e), (pow10_nonneg_eq (e + 1)) by lia.
    rewrite !pow10_nonpos_eq by lia.
    rewrite Z.pow_add_r by lia. f_equal. ring.
  - rewrite (pow10_nonpos_eq e), (pow10_nonpos_eq (e + 1)) by lia.
    rewrite !pow10_nonneg_eq by lia.
    replace (- e) with (- (e + 1) + 1) by lia.
    rewrite Z.pow_add_r by lia.
    replace (10 * s * 1) with (s * 1 * 10 ^ 1) by ring.
    apply rnd_scale; [apply Z.pow_pos_nonneg; lia | done].
Qed.

Lemma strip_zeros_sound fuel : ∀ s e s' e',
  0 < s → strip_zeros fuel s e = (s', e') →
  0 < s' ∧ dec_value s' e' = dec_value s e.
Proof.
  induction fuel as [|fuel IH]; intros s e s' e' Hs; cbn [strip_zeros].
  - by intros [= <- <-].
  - destruct (Z.eqb_spec (s mod 10) 0) as [Hmod|Hmod]; cbn [andb].
    + destruct (Z.ltb_spec 0 s); [|lia].
      intros Hstrip.
      pose proof (Z.div_mod s 10 ltac:(lia)) as Hdiv.
      apply IH in Hstrip as [Hpos Hval]; [|lia].
      split; [done|]. rewrite Hval, <- dec_value_shift. f_equal. lia.
    + by intros [= <- <-].
Qed.

Lemma dec_value_nonpos s e x k :
  0 <= s → 0 < x → dec_value s e = Fin x k → 0 < s.
Proof.
  intros Hs Hx Hval. destruct (decide (s = 0)) as [->|]; [|lia].
  unfold dec_value in Hval. cbn in Hval. injection Hval. lia.
Qed.

Lemma shortest_sound fuel : ∀ kk x p q n0 s e,
  0 < p → 0 < q →
  shortest fuel kk x p q n0 = Some (s, e) → dec_value s e = x ∧ 0 <= s.
Proof.
  induction fuel as [|fuel IH]; intros kk x p q n0 s e Hp Hq; [done|].
  cbn [shortest].
  set (e0 := n0 - kk).
  set (lo := p * pow10 (- e0) / (q * pow10 e0)).
  assert (0 <= lo) as Hlo.
  { pose proof (pow10_pos e0). pose proof (pow10_pos (- e0)).
    apply Z.div_pos; nia. }
  destruct (number_eqb (dec_value lo e0) x) eqn:E1;
    destruct (number_eqb (dec_value (lo + 1) e0) x) eqn:E2.
  - apply number_eqb_eq in E1. apply number_eqb_eq in E2.
    destruct (_ ?= _); [destruct (Z.even lo)|..]; intros [= <- <-];
      split; (done || lia).
  - apply number_eqb_eq in E1. intros [= <- <-]. done.
  - apply number_eqb_eq in E2. intros [= <- <-]. split; [done | lia].
  - by apply IH.
Qed.

Lemma fallback_sound z k : dec_value (z * 5 ^ Z.of_nat k) (- Z.of_nat k)
                           = rnd z (2 ^ Z.of_nat k).
Proof.
  unfold dec_value. rewrite pow10_nonpos_eq by lia.
  rewrite Z.opp_involutive, pow10_nonneg_eq by lia.
  rewrite Z.mul_1_r.
  replace (10 ^ Z.of_nat k) with (2 ^ Z.of_nat k * 5 ^ Z.of_nat k)
    by (rewrite <- Z.pow_mul_l; done).
  apply rnd_scale; apply Z.pow_pos_nonneg; lia.
Qed.

Lemma decimal_of_sound z k s e :
  0 < z → rnd z (2 ^ Z.of_nat k) = Fin z k →
  decimal_of z k = (s, e) → 0 < s ∧ dec_value s e = Fin z k.
Proof.
  intros Hz Hexact. unfold decimal_of.
  assert (0 < 2 ^ Z.of_nat k) by (apply Z.pow_pos_nonneg; lia).
  destruct (shortest 17 1 (Fin z k) z (2 ^ Z.of_nat k) _) as [[s0 e0]|] eqn:Es.
  - apply shortest_sound in Es as [Hval Hs0]; [|done..].
    pose proof (dec_value_nonpos s0 e0 z k Hs0 Hz Hval) as Hpos.
    intros Hstrip. apply strip_zeros_sound in Hstrip as [? Hv]; [|done].
    split; [done|]. by rewrite Hv.
  - assert (0 < z * 5 ^ Z.of_nat k).
    { apply Z.mul_pos_pos; [done|]. apply Z.pow_pos_nonneg; lia. }
    intros Hstrip. apply strip_zeros_sound in Hstrip as [? Hv]; [|done].
    split; [done|]. by rewrite Hv, fallback_sound.
Qed.

(** ** Decimal digits *)

Lemma digits_value_snoc ds c :
  digits_value (ds ++ [c]) = (digits_value ds * 10 + digit_val c)%N.
Proof. unfold digits_value. by rewrite fold_left_app. Qed.

Lemma digits_value_app a b :
  digits_value (a ++ b)
  = (digits_value a * 10 ^ N.of_nat (length b) + digits_value b)%N.
Proof.
  induction b as [|c b IH] using rev_ind.
  - rewrite app_nil_r. cbn. lia.
  - rewrite app_assoc, !digits_value_snoc, IH, length_app. cbn [length].
    replace (N.of_nat (length b + 1)) with (N.succ (N.of_nat (length b)))
      by lia.
    rewrite N.pow_succ_r'. lia.
Qed.

Lemma all_digits_app a b :
  all_digits (a ++ b) = all_digits a && all_digits b.
Proof. apply forallb_app. Qed.

Lemma is_digit_mod (n : N) : is_digit (48 + n mod 10)%N = true.
Proof.
  pose proof (N.mod_lt n 10 ltac:(lia)).
  pose proof (N.le_0_l (n mod 10)). unfold is_digit.
  destruct (N.leb_spec 48 (48 + n mod 10)); [|lia].
  destruct (N.leb_spec (48 + n mod 10) 57); [done | lia].
Qed.

Lemma digits_fuel_spec fuel : ∀ n acc,
  (n < 2 ^ N.of_nat (S fuel))%N →
  ∃ ds, digits_fuel (S fuel) n acc = ds ++ acc
        ∧ all_digits ds = true ∧ ds ≠ []
        ∧ digits_value ds = n
        ∧ ((0 < n)%N → ∀ d r, ds = d :: r → d ≠ 48%N).
Proof.
  assert (∀ n acc, (n < 10)%N →
            ∃ ds, (48 + n mod 10)%N :: acc = ds ++ acc
                  ∧ all_digits ds = true ∧ ds ≠ []
                  ∧ digits_value ds = n
                  ∧ ((0 < n)%N → ∀ d r, ds = d :: r → d ≠ 48%N)) as Hsmall.
  { intros n acc Hlt. exists [(48 + n mod 10)%N].
    rewrite N.mod_small by done. split_and!; try done.
    - cbn. unfold is_digit. case_N; [done | lia..].
    - cbn. unfold digit_val. lia.
    - intros Hpos d r [= <- <-]. lia. }
  induction fuel as [|fuel IH]; intros n acc Hn.
  - cbn [digits_fuel]. destruct (N.ltb_spec n 10) as [Hlt|Hge].
    + by apply Hsmall.
    + cbn in Hn. lia.
  - remember (S fuel) as fuel' eqn:Hfuel. cbn [digits_fuel].
    pose proof (N.mod_lt n 10 ltac:(lia)) as Hmod.
    destruct (N.ltb_spec n 10) as [Hlt|Hge]; [by apply Hsmall|].
    subst fuel'.
    destruct (IH (n / 10)%N ((48 + n mod 10)%N :: acc)) as
      (ds & Hds & Hall & Hne & Hval & Hhd).
    { replace (N.of_nat (S (S fuel))) with (N.succ (N.of_nat (S fuel))) in Hn
        by lia.
      rewrite N.pow_succ_r' in Hn.
      apply N.Div0.div_lt_upper_bound.
      generalize dependent (2 ^ N.of_nat (S fuel))%N. intros; lia. }
    exists (ds ++ [(48 + n mod 10)%N]). split_and!.
    + by rewrite Hds, <- app_assoc.
    + rewrite all_digits_app, Hall. cbn [all_digits forallb andb].
      by rewrite is_digit_mod.
    + by destruct ds.
    + rewrite digits_value_snoc, Hval. unfold digit_val.
      pose proof (N.div_mod n 10 ltac:(lia)) as Hdm.
      clear - Hdm. remember (n / 10)%N as q. remember (n mod 10)%N as r. lia.
    + intros Hpos d r Heq. destruct ds as [|d' ds']; [done|].
      injection Heq as <- _.
      apply (Hhd ltac:(apply N.div_str_pos; lia) d' ds' eq_refl).
Qed.

Lemma digits_of_spec n :
  all_digits (digits_of n) = true ∧ digits_of n ≠ []
  ∧ digits_value (digits_of n) = n
  ∧ ((0 < n)%N → ∀ d r, digits_of n = d :: r → d ≠ 48%N).
Proof.
  unfold digits_of.
  destruct (digits_fuel_spec (N.to_nat (N.log2 n)) n []) as
    (ds & Hds & H).
  - destruct n as [|q]; [done|].
    replace (N.of_nat (S (N.to_nat (N.log2 (N.pos q)))))
      with (N.succ (N.log2 (N.pos q))) by lia.
    apply N.log2_spec. lia.
  - rewrite Hds, app_nil_r. exact H.
Qed.

Lemma zeros_spec n :
  all_digits (zeros n) = true ∧ digits_value (zeros n) = 0%N
  ∧ length (zeros n) = Z.to_nat n.
Proof.
  unfold zeros. split_and!; [| |apply repeat_length].
  - induction (Z.to_nat n) as [|m IH]; [done|]. exact IH.
  - induction (Z.to_nat n) as [|m IH]; [done|]. exact IH.
Qed.

Lemma span_digits_stop ds c rest :
  all_digits ds = true → is_digit c = false →
  span_digits (ds ++ c :: rest) = (ds, c :: rest).
Proof.
  intros Hall Hc. induction ds as [|d ds IH].
  - cbn [app span_digits]. by rewrite Hc.
  - cbn [all_digits forallb] in Hall. apply andb_true_iff in Hall as [Hd Hds].
    cbn [app span_digits]. rewrite Hd, IH; done.
Qed.

(** ** Reading back a printed Number *)

Lemma is_digit_ne c x : is_digit c = true → is_digit x = false → c ≠ x.
Proof. intros Hc Hx ->. congruence. Qed.

Lemma read_int_digits ip x t :
  all_digits ip = true → ip ≠ [] →
  (∀ d r, ip = d :: r → d = 48%N → r = []) →
  is_digit x = false →
  read_minus (ip ++ x :: t) = (false, ip ++ x :: t)
  ∧ read_int (ip ++ x :: t) = (ip, x :: t).
Proof.
  intros Hall Hne Hzero Hx. destruct ip as [|d r]; [done|].
  pose proof Hall as Hall'. cbn [all_digits forallb] in Hall'.
  apply andb_true_iff in Hall' as [Hd _].
  cbn [app read_minus read_int]. split.
  - destruct (N.eqb_spec d 45) as [->|]; done.
  - destruct (N.eqb_spec d 48) as [->|].
    + by rewrite (Hzero 48%N r eq_refl eq_refl).
    + change (d :: r ++ x :: t) with ((d :: r) ++ x :: t).
      by apply span_digits_stop.
Qed.

Lemma read_frac_none x t :
  x ≠ 46%N → read_frac (x :: t) = Some ([], x :: t).
Proof. intros Hx. cbn [read_frac]. by destruct (N.eqb_spec x 46). Qed.

Lemma read_frac_digits fp x t :
  all_digits fp = true → fp ≠ [] → is_digit x = false →
  read_frac (46%N :: fp ++ x :: t) = Some (fp, x :: t).
Proof.
  intros Hall Hne Hx. cbn [read_frac N.eqb Pos.eqb].
  rewrite span_digits_stop by done. by destruct fp.
Qed.

Lemma read_exp_none x t :
  x ≠ 101%N → x ≠ 69%N → read_exp (x :: t) = Some (0, x :: t).
Proof.
  intros H1 H2. cbn [read_exp].
  by destruct (N.eqb_spec x 101), (N.eqb_spec x 69).
Qed.

Lemma read_exp_digits (eneg : bool) ep x t :
  all_digits ep = true → ep ≠ [] → is_digit x = false →
  read_exp (101%N :: (if eneg then 45%N else 43%N) :: ep ++ x :: t)
  = Some (if eneg then - Z.of_N (digits_value ep)
          else Z.of_N (digits_value ep), x :: t).
Proof.
  intros Hall Hne Hx. cbn [read_exp N.eqb Pos.eqb orb].
  destruct eneg; cbn [N.eqb Pos.eqb];
    rewrite span_digits_stop by done; by destruct ep.
Qed.

Lemma parse_number_literal ip fp ex c rest :
  all_digits ip = true → ip ≠ [] →
  (∀ d r, ip = d :: r → d = 48%N → r = []) →
  all_digits fp = true →
  (∀ eneg ep, ex = Some (eneg, ep) → all_digits ep = true ∧ ep ≠ []) →
  ends_number c →
  parse_number (number_literal ip fp ex ++ c :: rest)
  = Some (dec_value (Z.of_N (digits_value (ip ++ fp)))
            (match ex with
             | Some (true, ep) => - Z.of_N (digits_value ep)
             | Some (false, ep) => Z.of_N (digits_value ep)
             | None => 0
             end - Z.of_nat (length fp)), c :: rest).
Proof.
  intros Hip Hne Hzero Hfp Hex (Hc & H46 & H101 & H69).
  unfold number_literal, parse_number.
  assert (∀ x t, is_digit x = false →
            read_minus (ip ++ x :: t) = (false, ip ++ x :: t)
            ∧ read_int (ip ++ x :: t) = (ip, x :: t)) as Hint
    by (intros; by apply read_int_digits).
  destruct fp as [|f0 fp']; destruct ex as [[[|] ep]|];
    try (destruct (Hex _ ep eq_refl) as [Hep Hepne]);
    rewrite <- ?app_assoc; cbn [app];
    match goal with
    | |- context [read_minus (ip ++ ?x :: ?t)] =>
        destruct (Hint x t eq_refl) as [Hm Hi]
    | |- context [read_minus (ip ++ c :: ?t)] =>
        destruct (Hint c t Hc) as [Hm Hi]
    end.
  all: rewrite Hm; cbv beta iota; rewrite Hi; cbv beta iota;
    (destruct ip; [done|]).
  - rewrite read_frac_none by done.
    by rewrite (read_exp_digits true) by done.
  - rewrite read_frac_none by done.
    by rewrite (read_exp_digits false) by done.
  - rewrite read_frac_none by done.
    by rewrite read_exp_none by done.
  - change (f0 :: fp' ++ ?t) with ((f0 :: fp') ++ t).
    rewrite read_frac_digits by done.
    by rewrite (read_exp_digits true) by done.
  - change (f0 :: fp' ++ ?t) with ((f0 :: fp') ++ t).
    rewrite read_frac_digits by done.
    by rewrite (read_exp_digits false) by done.
  - change (f0 :: fp' ++ ?t) with ((f0 :: fp') ++ t).
    rewrite read_frac_digits by done.
    by rewrite read_exp_none by done.
Qed.

Lemma dec_value_whole s e : 0 <= e → dec_value (s * 10 ^ e) 0 = dec_value s e.
Proof.
  intros He. unfold dec_value.
  rewrite (pow10_nonneg_eq e), (pow10_nonpos_eq (- e)) by lia.
  change (pow10 0) with 1. change (pow10 (- 0)) with 1. f_equal. ring.
Qed.

Lemma digits_value_zero_app t : digits_value (48%N :: t) = digits_value t.
Proof. done. Qed.

Lemma digits_value_zeros_app n t :
  digits_value (zeros n ++ t) = digits_value t.
Proof.
  unfold zeros. induction (Z.to_nat n) as [|m IH]; [done|].
  cbn [repeat app]. by rewrite digits_value_zero_app.
Qed.

Lemma read_plain ip c rest :
  all_digits ip = true → ip ≠ [] → (∀ d r, ip = d :: r → d ≠ 48%N) →
  ends_number c →
  parse_number (ip ++ c :: rest)
  = Some (dec_value (Z.of_N (digits_value ip)) 0, c :: rest).
Proof.
  intros Hall Hne Hhd Hc.
  pose proof (parse_number_literal ip [] None c rest) as Hlit.
  unfold number_literal in Hlit. rewrite !app_nil_r in Hlit.
  rewrite Hlit; try done.
  intros d r Heq Hd. destruct (Hhd d r Heq Hd).
Qed.

Lemma read_point ip fp c rest :
  all_digits ip = true → ip ≠ [] →
  (∀ d r, ip = d :: r → d = 48%N → r = []) →
  all_digits fp = true → fp ≠ [] → ends_number c →
  parse_number (ip ++ 46%N :: fp ++ c :: rest)
  = Some (dec_value (Z.of_N (digits_value (ip ++ fp)))
                    (- Z.of_nat (length fp)), c :: rest).
Proof.
  intros Hall Hne Hhd Hfp Hfpne Hc.
  pose proof (parse_number_literal ip fp None c rest) as Hlit.
  unfold number_literal in Hlit. rewrite app_nil_r in Hlit.
  destruct fp as [|f0 fp']; [done|].
  rewrite <- app_assoc in Hlit. cbn [app] in Hlit. cbn [app].
  by rewrite Hlit.
Qed.

Lemma read_exponent d fp (eneg : bool) ep c rest :
  is_digit d = true → all_digits fp = true →
  all_digits ep = true → ep ≠ [] → ends_number c →
  parse_number (match fp with [] => [d] | _ :: _ => d :: 46%N :: fp end
                  ++ 101%N :: (if eneg then 45%N else 43%N) :: ep
                  ++ c :: rest)
  = Some (dec_value (Z.of_N (digits_value (d :: fp)))
            ((if eneg then - Z.of_N (digits_value ep)
              else Z.of_N (digits_value ep)) - Z.of_nat (length fp)),
          c :: rest).
Proof.
  intros Hd Hfp Hep Hepne Hc.
  pose proof (parse_number_literal [d] fp (Some (eneg, ep)) c rest) as Hlit.
  unfold number_literal in Hlit.
  assert (all_digits [d] = true) as Hd1 by (cbn; by rewrite Hd).
  assert (∀ d0 r, [d] = d0 :: r → d0 = 48%N → r = []) as Hz
    by (by intros ? ? [= <- <-]).
  assert (∀ eneg0 ep0, Some (eneg, ep) = Some (eneg0, ep0) →
            all_digits ep0 = true ∧ ep0 ≠ []) as Hex
    by (by intros ? ? [= <- <-]).
  specialize (Hlit Hd1 ltac:(done) Hz Hfp Hex Hc).
  destruct fp as [|f0 fp']; cbn [app] in *;
    rewrite <- ?app_assoc in Hlit; cbn [app] in Hlit;
    rewrite Hlit; by destruct eneg.
Qed.
Lemma format_cases s e :
  let ds := digits_of (Z.to_N s) in
  let k := Z.of_nat (length ds) in
  let n := e + k in
  (k <= n <= 21 ∧ format_decimal s e = ds ++ zeros (n - k))
  ∨ (0 < n < k ∧ n <= 21
     ∧ format_decimal s e = take (Z.to_nat n) ds ++ 46%N :: drop (Z.to_nat n) ds)
  ∨ (-6 < n <= 0 ∧ n < k
     ∧ format_decimal s e = 48%N :: 46%N :: zeros (- n) ++ ds)
  ∨ ((21 < n ∨ n <= -6)
     ∧ format_decimal s e
       = match ds with
         | d :: ((_ :: _) as r) => d :: 46%N :: r
         | _ => ds
         end ++ 101%N :: (if n - 1 <? 0 then 45%N else 43%N)
             :: digits_of (Z.to_N (Z.abs (n - 1)))).
Proof.
  intros ds k n. unfold format_decimal. fold ds. fold k. fold n.
  assert (0 <= k) by (subst k; lia).
  destruct (Z.leb_spec k n), (Z.leb_spec n 21), (Z.ltb_spec 0 n),
    (Z.ltb_spec (-6) n), (Z.leb_spec n 0); cbn [andb]; try lia;
    first [ left; split; [lia | done]
          | right; left; split_and!; [lia | lia | lia | done]
          | right; right; left; split_and!; [lia | lia | lia | done]
          | right; right; right; split; [lia | done] ].
Qed.

Lemma parse_format_decimal s e c rest :
  0 < s → ends_number c →
  parse_number (format_decimal s e ++ c :: rest)
  = Some (dec_value s e, c :: rest).
Proof.
  intros Hs Hc.
  destruct (digits_of_spec (Z.to_N s)) as (Hall & Hne & Hval & Hhd).
  specialize (Hhd ltac:(lia)).
  destruct (format_cases s e) as
    [[Hn ->] | [(Hn & Hn' & ->) | [(Hn & Hn' & ->) | [Hn ->]]]];
    set (ds := digits_of (Z.to_N s)) in *;
    set (k := Z.of_nat (length ds)) in *;
    assert (Z.of_N (digits_value ds) = s) as Hs' by (rewrite Hval; lia).
  - (* digits, then zeros *)
    destruct (zeros_spec (e + k - k)) as (Hz1 & Hz2 & Hz3).
    rewrite read_plain; try done.
    + f_equal. f_equal. rewrite digits_value_app, Hz2, Hz3, N.add_0_r.
      rewrite N2Z.inj_mul, N2Z.inj_pow, Hs'.
      replace (Z.of_N (N.of_nat (Z.to_nat (e + k - k)))) with e by lia.
      apply dec_value_whole. lia.
    + by rewrite all_digits_app, Hall, Hz1.
    + by destruct ds.
    + intros d r Heq. destruct ds as [|d' ds']; [done|].
      injection Heq as <- _. by apply (Hhd d' ds').
  - (* digits, point, digits *)
    assert (length (drop (Z.to_nat (e + k)) ds) = Z.to_nat (- e)) as Hlen
      by (rewrite length_drop; subst k; lia).
    assert (all_digits (take (Z.to_nat (e + k)) ds) = true
            ∧ all_digits (drop (Z.to_nat (e + k)) ds) = true) as [Ht Hd].
    { rewrite <- (take_drop (Z.to_nat (e + k)) ds), all_digits_app in Hall.
      by apply andb_true_iff in Hall. }
    rewrite <- app_assoc. cbn [app].
    rewrite read_point; try done.
    + do 3 f_equal; [by rewrite take_drop | rewrite Hlen; lia].
    + destruct ds as [|d ds']; [done|].
      destruct (Z.to_nat (e + k)) eqn:E; [lia | done].
    + intros d r Heq Hd48. destruct ds as [|d' ds']; [done|].
      destruct (Z.to_nat (e + k)) eqn:E; [lia|]. cbn [take] in Heq.
      injection Heq as Hd' _. destruct (Hhd d' ds' eq_refl). congruence.
    + intros Hnil. rewrite Hnil in Hlen. cbn [length] in Hlen. lia.
  - (* zero, point, zeros, digits *)
    destruct (zeros_spec (- (e + k))) as (Hz1 & Hz2 & Hz3).
    change (48%N :: 46%N :: zeros (- (e + k)) ++ ds)
      with ([48%N] ++ 46%N :: zeros (- (e + k)) ++ ds).
    rewrite <- !app_assoc. cbn [app].
    change (48%N :: 46%N :: ?t) with ([48%N] ++ 46%N :: t).
    rewrite read_point; try done.
    + do 3 f_equal.
      * cbn [app].
        by rewrite digits_value_zero_app, digits_value_zeros_app.
      * rewrite length_app, Hz3. subst k. lia.
    + by intros ? ? [= <- <-].
    + by rewrite all_digits_app, Hz1, Hall.
    + by destruct (zeros (- (e + k))), ds.
  - (* exponent form *)
    destruct (digits_of_spec (Z.to_N (Z.abs (e + k - 1)))) as (He1 & He2 & He3 & _).
    destruct ds as [|d r] eqn:Hds; [done|].
    cbn [all_digits forallb] in Hall. apply andb_true_iff in Hall as [Hd Hr].
    pose proof (read_exponent d r (e + k - 1 <? 0)
                  (digits_of (Z.to_N (Z.abs (e + k - 1)))) c rest
                  Hd Hr He1 He2 Hc) as Hexp.
    assert (match r with [] => [d] | _ :: _ => d :: 46%N :: r end
            = match d :: r with
              | d0 :: ((_ :: _) as r0) => d0 :: 46%N :: r0
              | _ => d :: r
              end) as Hm by (by destruct r).
    rewrite <- Hm, <- app_assoc. cbn [app].
    rewrite Hexp. do 3 f_equal; [done|].
    rewrite He3. subst k. cbn [length].
    destruct (Z.ltb_spec (e + Z.of_nat (S (length r)) - 1) 0); lia.
Qed.

Lemma format_head s e :
  0 < s → ∃ d t, format_decimal s e = d :: t ∧ is_digit d = true.
Proof.
  intros Hs.
  destruct (digits_of_spec (Z.to_N s)) as (Hall & Hne & _ & _).
  destruct (format_cases s e) as
    [[Hn ->] | [(Hn & Hn' & ->) | [(Hn & Hn' & ->) | [Hn ->]]]];
    destruct (digits_of (Z.to_N s)) as [|d r]; try done;
    cbn [all_digits forallb] in Hall; apply andb_true_iff in Hall as [Hd _].
  - by exists d, (r ++ zeros (e + Z.of_nat (length (d :: r))
                              - Z.of_nat (length (d :: r)))).
  - destruct (Z.to_nat (e + Z.of_nat (length (d :: r)))) eqn:E; [lia|].
    cbn [take app]. eauto.
  - eauto.
  - destruct r; cbn [app]; eauto.
Qed.

Lemma parse_number_minus t v r :
  read_minus t = (false, t) → parse_number t = Some (v, r) →
  parse_number (45%N :: t) = Some (negate v, r).
Proof.
  unfold parse_number. intros Hm. rewrite Hm. cbn [read_minus N.eqb Pos.eqb].
  destruct (read_int t) as [ip s2]. destruct ip; [done|].
  destruct (read_frac s2) as [[fp s3]|]; [|done].
  destruct (read_exp s3) as [[e s4]|]; [|done].
  by intros [= <- <-].
Qed.

Lemma negate_Fin_neg y p k :
  negate y = Fin (Z.neg p) k → y = Fin (Z.pos p) k.
Proof.
  destruct y as [[|q|q] k'| | | |]; cbn [negate Z.opp]; try done.
  by intros [= -> ->].
Qed.

(** A Number that [exact] accepts is printed as a literal that reads
    back as the same Number. *)
Lemma parse_Number_toString x c rest :
  exact x = true → ends_number c →
  parse_number (Number_toString x ++ c :: rest) = Some (x, c :: rest).
Proof.
  intros Hx Hc. destruct x as [z k| | | |]; try done.
  cbn [exact] in Hx. apply number_eqb_eq in Hx.
  destruct z as [|p|p]; cbn [Number_toString].
  - cbn [rnd] in Hx. injection Hx as <-.
    pose proof (parse_number_literal [48%N] [] None c rest) as Hlit.
    unfold number_literal in Hlit. cbn [app] in Hlit.
    change (lit "0" ++ c :: rest) with (48%N :: c :: rest).
    rewrite Hlit; try done. by intros ? ? [= <- <-].
  - destruct (decimal_of (Z.pos p) k) as [s e] eqn:Hdec.
    apply decimal_of_sound in Hdec as [Hs Hval]; [|lia|done].
    rewrite parse_format_decimal by done. by rewrite Hval.
  - cbn [rnd] in Hx. apply negate_Fin_neg in Hx.
    change (- Z.neg p) with (Z.pos p) in *.
    destruct (decimal_of (Z.pos p) k) as [s e] eqn:Hdec.
    apply decimal_of_sound in Hdec as [Hs Hval]; [|lia|done].
    cbn [app]. destruct (format_head s e Hs) as (d & t & Hfmt & Hd).
    rewrite (parse_number_minus _ (Fin (Z.pos p) k) (c :: rest)).
    + done.
    + rewrite Hfmt. cbn [app read_minus].
      destruct (N.eqb_spec d 45) as [->|]; done.
    + rewrite parse_format_decimal by done. by rewrite Hval.
Qed.

(** ** Values survive [JSON.stringify] and [JSON.parse] *)

Lemma value_ind' (P : value → Prop) :
  P VNull → (∀ b, P (VBool b)) → (∀ x, P (VNum x)) → (∀ s, P (VStr s)) →
  (∀ items, Forall P items → P (VArr items)) →
  (∀ props, Forall (λ kv, P (snd kv)) props → P (VObj props)) →
  ∀ v, P v.
Proof.
  intros Hnull Hbool Hnum Hstr Harr Hobj.
  fix IH 1. intros [ |b|x|s|items|props].
  - exact Hnull.
  - apply Hbool.
  - apply Hnum.
  - apply Hstr.
  - apply Harr. induction items as [|v items IHitems]; constructor.
    + apply IH.
    + exact IHitems.
  - apply Hobj. induction props as [|[k v] props IHprops]; constructor.
    + apply IH.
    + exact IHprops.
Qed.

Lemma delimited_ends rest :
  delimited rest → ∃ c r, rest = c :: r ∧ ends_number c.
Proof.
  intros (c & r & -> & Hc). exists c, r. split; [done|].
  unfold ends_number. destruct Hc as [-> | [-> | ->]]; done.
Qed.

Lemma Number_toString_head x :
  exact x = true →
  ∃ d t, Number_toString x = d :: t ∧ (is_digit d = true ∨ d = 45%N).
Proof.
  intros Hx. destruct x as [[|p|p] k| | | |]; try done; cbn [Number_toString].
  - exists 48%N, []. split; [done | by left].
  - destruct (decimal_of (Z.pos p) k) as [s e] eqn:Hdec.
    cbn [exact] in Hx. apply number_eqb_eq in Hx.
    apply decimal_of_sound in Hdec as [Hs _]; [|lia|done].
    destruct (format_head s e Hs) as (d & t & -> & Hd). eauto.
  - change (- Z.neg p) with (Z.pos p).
    destruct (decimal_of (Z.pos p) k) as [s e]. eauto.
Qed.

Lemma digit_or_minus_opens d :
  is_digit d = true ∨ d = 45%N → opens d.
Proof.
  unfold opens, is_ws, is_digit. intros [H| ->]; [|done].
  apply andb_true_iff in H as [H1 H2].
  apply N.leb_le in H1. apply N.leb_le in H2.
  split_and!; [|lia..]. case_N; (done || lia).
Qed.

Lemma JSON_stringify_head v :
  printable v = true → ∃ c t, JSON_stringify v = c :: t ∧ opens c.
Proof.
  destruct v as [ |[|]|x|s|items|props]; intros Hv; cbn [JSON_stringify].
  - by exists 110%N, (lit "ull").
  - by exists 116%N, (lit "rue").
  - by exists 102%N, (lit "alse").
  - cbn [printable] in Hv.
    destruct (Number_toString_head x Hv) as (d & t & Hd & Hdm).
    exists d, t. split; [|by apply digit_or_minus_opens].
    by destruct x.
  - unfold quote. by eexists _, _.
  - by eexists _, _.
  - by eexists _, _.
Qed.
Lemma skip_ws_opens c t : is_ws c = false → skip_ws (c :: t) = c :: t.
Proof. intros H. cbn [skip_ws]. by rewrite H. Qed.

Lemma strip_prefix_ne a p b s :
  a ≠ b → strip_prefix (a :: p) (b :: s) = None.
Proof. intros H. cbn [strip_prefix]. by destruct (N.eqb_spec a b). Qed.

Lemma parse_value_number f d t :
  is_digit d = true ∨ d = 45%N →
  parse_value (S f) (d :: t)
  = match parse_number (d :: t) with
    | Some (x, r) => Done (VNum x) r
    | None => Invalid
    end.
Proof.
  intros Hd.
  assert (is_ws d = false ∧ d ≠ 34%N ∧ d ≠ 91%N ∧ d ≠ 123%N
          ∧ d ≠ 110%N ∧ d ≠ 116%N ∧ d ≠ 102%N) as (Hws & H1 & H2 & H3 & H4 & H5 & H6).
  { destruct Hd as [H| ->]; [|done].
    unfold is_digit in H. apply andb_true_iff in H as [Ha Hb].
    apply N.leb_le in Ha. apply N.leb_le in Hb.
    split_and!; [|lia..]. unfold is_ws. case_N; (done || lia). }
  cbn [parse_value]. rewrite skip_ws_opens by done.
  apply N.eqb_neq in H1, H2, H3. rewrite H1, H2, H3.
  change (lit "null") with (110%N :: lit "ull").
  change (lit "true") with (116%N :: lit "rue").
  change (lit "false") with (102%N :: lit "alse").
  by rewrite !strip_prefix_ne by done.
Qed.

Lemma parse_elements_stringify items :
  Forall (λ v, printable v = true →
               ∀ fuel rest, (weight v <= fuel)%nat → delimited rest →
                 parse_value fuel (JSON_stringify v ++ rest) = Done v rest)
         items →
  forallb printable items = true → items ≠ [] →
  ∀ fuel rest,
    (fold_right (λ x acc, S (weight x + acc)) O items <= fuel)%nat →
    parse_elements fuel
      (join_commas (map JSON_stringify items) ++ 93%N :: rest)
    = Done items rest.
Proof.
  induction 1 as [|v items Hv _ IH]; [done|].
  cbn [forallb]. intros Hp _ fuel rest Hfuel.
  apply andb_true_iff in Hp as [Hpv Hpi].
  cbn [fold_right] in Hfuel. destruct fuel as [|f]; [lia|].
  cbn [parse_elements map join_commas].
  destruct items as [|v2 items].
  - cbn [map concat]. rewrite app_nil_r.
    rewrite Hv; [|done|cbn [fold_right] in *; lia|by exists 93%N, rest; eauto].
    cbn [skip_ws is_ws N.eqb Pos.eqb orb]. done.
  - specialize (IH Hpi ltac:(done) f rest ltac:(lia)).
    cbn [map concat] in *.
    rewrite <- !app_assoc. cbn [app].
    rewrite Hv; [|done|lia|by eexists 44%N, _; eauto].
    cbn [skip_ws is_ws N.eqb Pos.eqb orb].
    cbn [join_commas] in IH. rewrite <- app_assoc in IH.
    by rewrite IH.
Qed.

Lemma obj_replace_fresh k v ps :
  k ∉ map fst ps → obj_replace k v ps = None.
Proof.
  induction ps as [|[k' v'] ps IH]; [done|]. cbn [map fst obj_replace].
  rewrite not_elem_of_cons. intros [Hne Hin].
  destruct (decide (k' = k)); [congruence|]. by rewrite IH.
Qed.

Lemma obj_add_plain k v ps :
  plain_key k = true → obj_add k v ps = ps ++ [(k, v)].
Proof.
  unfold plain_key. intros Hk. induction ps as [|[k' v'] ps IH]; [done|].
  cbn [obj_add app]. destruct (array_index k); [done|]. by rewrite IH.
Qed.

Lemma obj_set_fresh k v ps :
  plain_key k = true → k ∉ map fst ps → obj_set k v ps = ps ++ [(k, v)].
Proof.
  intros Hk Hin. unfold obj_set. rewrite obj_replace_fresh by done.
  by apply obj_add_plain.
Qed.

Lemma parse_chars_quoted s rest :
  parse_chars ((quote_units s ++ [34%N]) ++ rest) = Some (s, rest).
Proof.
  rewrite <- (app_assoc (quote_units s) [34%N] rest).
  apply parse_chars_quote_units.
Qed.

Lemma parse_members_stringify props :
  Forall (λ kv, printable (snd kv) = true →
                ∀ fuel rest, (weight (snd kv) <= fuel)%nat → delimited rest →
                  parse_value fuel (JSON_stringify (snd kv) ++ rest)
                  = Done (snd kv) rest)
         props →
  forallb (λ kv, match kv with (k, v') => plain_key k && printable v' end)
          props = true →
  props ≠ [] →
  ∀ fuel rest acc,
    NoDup (map fst (acc ++ props)) →
    (fold_right (λ kv acc, match kv with (_, v') => S (weight v' + acc) end)
                O props <= fuel)%nat →
    parse_members fuel
      (join_commas (map member_text props) ++ 125%N :: rest) acc
    = Done (acc ++ props) rest.
Proof.
  induction 1 as [|[k v] props Hv _ IH]; [done|].
  cbn [forallb]. intros Hp _ fuel rest acc Hdup Hfuel.
  apply andb_true_iff in Hp as [Hkv Hpi].
  apply andb_true_iff in Hkv as [Hk Hpv].
  cbn [fold_right] in Hfuel. destruct fuel as [|f]; [lia|].
  cbn [snd] in Hv.
  assert (k ∉ map fst acc) as Hfresh.
  { rewrite map_app in Hdup. apply NoDup_app in Hdup as (_ & Hdisj & Hd2).
    intros Hin. apply (Hdisj k Hin). cbn [map fst]. left. }
  assert (∀ t, parse_members (S f)
                 (member_text (k, v) ++ t) acc
               = match parse_value f (JSON_stringify v ++ t) with
                 | Done v0 r3 =>
                     match skip_ws r3 with
                     | c3 :: r4 =>
                         if (c3 =? 44)%N
                         then parse_members f r4 (obj_set k v0 acc)
                         else if (c3 =? 125)%N
                         then Done (obj_set k v0 acc) r4
                         else Invalid
                     | [] => Invalid
                     end
                 | Invalid => Invalid
                 | Starved => Starved
                 end) as Hstep.
  { intros t. unfold member_text, quote. cbn [fst snd].
    rewrite <- app_assoc.
    cbn [app parse_members skip_ws is_ws N.eqb Pos.eqb orb].
    rewrite parse_chars_quoted.
    cbn [skip_ws is_ws N.eqb Pos.eqb orb]. done. }
  cbn [map join_commas].
  destruct props as [|kv2 props].
  - cbn [map concat]. rewrite app_nil_r, Hstep.
    rewrite Hv; [|done|lia|by exists 125%N, rest; eauto].
    cbn [skip_ws is_ws N.eqb Pos.eqb orb].
    by rewrite obj_set_fresh.
  - cbn [map concat] in *. rewrite <- !app_assoc. cbn [app]. rewrite Hstep.
    rewrite Hv; [|done|lia|by eexists 44%N, _; eauto].
    cbn [skip_ws is_ws N.eqb Pos.eqb orb].
    rewrite obj_set_fresh by done.
    specialize (IH Hpi ltac:(done) f rest (acc ++ [(k, v)])).
    cbn [join_commas] in IH. rewrite <- !app_assoc in IH. cbn [app] in IH.
    rewrite IH; [done | done | lia].
Qed.

Lemma forallb_printable_props props :
  forallb (λ kv, match kv with (k, v') => plain_key k && printable v' end)
          props = true →
  Forall (λ kv, printable (snd kv) = true) props.
Proof.
  induction props as [|[k v] props IH]; [done|]. cbn [forallb].
  intros H. apply andb_true_iff in H as [Hkv Hp].
  apply andb_true_iff in Hkv as [_ Hv]. constructor; [done | by apply IH].
Qed.

(** Reading the text of a printable value gives the value back and
    stops right after it.  A number must be followed by something: a
    delimiter, as it always is inside an array or an object. *)
Lemma parse_value_stringify v :
  printable v = true →
  ∀ fuel rest,
    (weight v <= fuel)%nat →
    (∀ x, v = VNum x → delimited rest) →
    parse_value fuel (JSON_stringify v ++ rest) = Done v rest.
Proof.
  induction v as [ |b|x|s|items IH|props IH] using value_ind';
    intros Hp fuel rest Hfuel Hrest;
    (destruct fuel as [|f]; [cbn [weight] in Hfuel; lia|]).
  - done.
  - by destruct b.
  - cbn [printable] in Hp.
    destruct (delimited_ends rest (Hrest x eq_refl)) as (c & r & -> & Hc).
    destruct (Number_toString_head x Hp) as (d & t & Hd & Hdm).
    assert (JSON_stringify (VNum x) = Number_toString x) as ->
      by (by destruct x).
    pose proof (parse_Number_toString x c r Hp Hc) as Hnum.
    rewrite Hd in *. cbn [app] in *.
    by rewrite parse_value_number, Hnum.
  - cbn [JSON_stringify]. unfold quote.
    cbn [app parse_value skip_ws is_ws N.eqb Pos.eqb orb].
    by rewrite parse_chars_quoted.
  - cbn [printable] in Hp. cbn [weight] in Hfuel.
    cbn [JSON_stringify app parse_value skip_ws is_ws N.eqb Pos.eqb orb].
    rewrite <- app_assoc. cbn [app].
    destruct items as [|v items]; [done|].
    assert (∃ c t, join_commas (map JSON_stringify (v :: items))
                     ++ 93%N :: rest = c :: t ∧ opens c)
      as (c & t & Hhead & Hws & H93 & _).
    { cbn [forallb] in Hp. apply andb_true_iff in Hp as [Hv _].
      destruct (JSON_stringify_head v Hv) as (c & t & Ht & Hc).
      cbn [map join_commas]. rewrite Ht. cbn [app]. eauto. }
    rewrite Hhead, skip_ws_opens by done.
    apply N.eqb_neq in H93. rewrite H93, <- Hhead.
    rewrite parse_elements_stringify; [done| |done|done|lia].
    eapply Forall_impl; [exact IH|].
    intros v' Hv' Hpv' fuel' rest' Hf' Hd'. by apply Hv'.
  - cbn [printable] in Hp. cbn [weight] in Hfuel.
    apply andb_true_iff in Hp as [Hp Hdup]. apply bool_decide_eq_true in Hdup.
    cbn [JSON_stringify app parse_value skip_ws is_ws N.eqb Pos.eqb orb].
    rewrite <- app_assoc. cbn [app].
    destruct props as [|[k v] props]; [done|].
    fold (member_text).
    assert (∃ t, join_commas (map member_text ((k, v) :: props))
                   ++ 125%N :: rest = 34%N :: t) as [t Hhead].
    { cbn [map join_commas]. unfold member_text at 1, quote.
      cbn [app]. eauto. }
    rewrite Hhead. cbn [skip_ws is_ws N.eqb Pos.eqb orb]. rewrite <- Hhead.
    rewrite (parse_members_stringify ((k, v) :: props)); [done| |done|done|done|lia].
    eapply Forall_impl; [exact IH|].
    intros kv Hkv Hpkv fuel' rest' Hf' Hd'. by apply Hkv.
Qed.

Lemma weight_items items :
  Forall (λ v, (weight v <= length (JSON_stringify v))%nat) items →
  (fold_right (λ x acc, S (weight x + acc)) O items
   <= length (concat (map (λ x, 44%N :: x) (map JSON_stringify items))))%nat.
Proof.
  induction 1 as [|v items Hv _ IH]; [done|].
  cbn [fold_right map concat]. rewrite length_app. cbn [length]. lia.
Qed.

Lemma weight_props props :
  Forall (λ kv, (weight (snd kv) <= length (JSON_stringify (snd kv)))%nat)
         props →
  (fold_right (λ kv acc, match kv with (_, v') => S (weight v' + acc) end)
              O props
   <= length (concat (map (λ x, 44%N :: x) (map member_text props))))%nat.
Proof.
  induction 1 as [|[k v] props Hv _ IH]; [done|].
  cbn [fold_right map concat snd] in *. rewrite length_app.
  unfold member_text at 1. cbn [fst snd length].
  rewrite length_app. cbn [length]. lia.
Qed.

Lemma forallb_Forall_true {A} (f : A → bool) l :
  forallb f l = true → Forall (λ x, f x = true) l.
Proof.
  induction l as [|x l IH]; [done|]. cbn [forallb]. intros H.
  apply andb_true_iff in H as [Hx Hl]. constructor; [done | by apply IH].
Qed.

Lemma weight_le_length v :
  printable v = true → (weight v <= length (JSON_stringify v))%nat.
Proof.
  induction v as [ |b|x|s|items IH|props IH] using value_ind'; intros Hp.
  - cbn. lia.
  - destruct b; cbn; lia.
  - destruct (JSON_stringify_head (VNum x) Hp) as (c & t & -> & _).
    cbn [weight length]. lia.
  - cbn [JSON_stringify weight]. unfold quote. cbn [length]. lia.
  - cbn [printable] in Hp. cbn [JSON_stringify weight length].
    rewrite length_app. cbn [length].
    destruct items as [|v items]; [cbn; lia|].
    cbn [forallb] in Hp. apply andb_true_iff in Hp as [Hv Hitems].
    apply Forall_cons in IH as [IHv IHitems].
    cbn [map join_commas fold_right]. rewrite length_app.
    specialize (IHv Hv).
    assert (Forall (λ v, (weight v <= length (JSON_stringify v))%nat) items)
      as Hall.
    { apply forallb_Forall_true in Hitems.
      eapply Forall_impl; [apply Forall_and; split; [exact IHitems | exact Hitems]|].
      intros v' [H1 H2]. by apply H1. }
    pose proof (weight_items items Hall). lia.
  - cbn [printable] in Hp. apply andb_true_iff in Hp as [Hp _].
    cbn [JSON_stringify weight length]. rewrite length_app. cbn [length].
    fold member_text.
    destruct props as [|[k v] props]; [cbn; lia|].
    pose proof (forallb_printable_props _ Hp) as Hpp.
    apply Forall_cons in IH as [IHv IHprops].
    apply Forall_cons in Hpp as [Hpv Hpprops].
    cbn [map join_commas fold_right snd] in *. rewrite length_app.
    specialize (IHv Hpv).
    assert (Forall (λ kv, (weight (snd kv)
                           <= length (JSON_stringify (snd kv)))%nat) props)
      as Hall.
    { eapply Forall_impl;
        [apply Forall_and; split; [exact IHprops | exact Hpprops]|].
      intros kv [H1 H2]. by apply H1. }
    pose proof (weight_props props Hall).
    unfold member_text at 1. cbn [fst snd]. rewrite length_app. cbn [length].
    lia.
Qed.

(** [JSON.parse (JSON.stringify (v))] is [v] for a printable array,
    object, string, boolean or null. *)
Lemma JSON_parse_stringify v :
  printable v = true → (∀ x, v ≠ VNum x) →
  JSON_parse (JSON_stringify v) = Normal v.
Proof.
  intros Hp Hnum. unfold JSON_parse.
  pose proof (weight_le_length v Hp).
  pose proof (parse_value_stringify v Hp
                (2 * length (JSON_stringify v) + 1) [] ltac:(lia)) as Hparse.
  rewrite app_nil_r in Hparse. rewrite Hparse; [done|].
  intros x ->. by destruct (Hnum x).
Qed.

(** ** Saving and loading *)

Lemma printable_meal m : exact_meal m = true → printable (meal_value m) = true.
Proof.
  unfold exact_meal, exact_macros. intros H.
  apply andb_true_iff in H as [Hts H].
  apply andb_true_iff in H as [H Hf].
  apply andb_true_iff in H as [H Hcb].
  apply andb_true_iff in H as [Hc Hp].
  unfold meal_value, macros_value.
  cbn [printable forallb map fst]. rewrite Hts, Hc, Hp, Hcb, Hf.
  reflexivity.
Qed.

Lemma printable_meals ms :
  Forall (λ m, exact_meal m = true) ms → printable (meals_value ms) = true.
Proof.
  unfold meals_value. cbn [printable].
  induction 1 as [|m ms Hm _ IH]; [done|].
  cbn [map forallb]. by rewrite printable_meal, IH.
Qed.

Lemma meal_value_inj m m' : meal_value m = meal_value m' → m = m'.
Proof.
  destruct m as [i t im [c p cb f] rt], m' as [i' t' im' [c' p' cb' f'] rt'].
  unfold meal_value, macros_value. cbn [id timestamp image macros rawText
    calories protein carbs fat].
  intros H. injection H. congruence.
Qed.

Lemma meals_value_inj ms ms' : meals_value ms' = meals_value ms → ms' = ms.
Proof.
  unfold meals_value. intros [= H]. revert ms H.
  induction ms' as [|m' ms' IH]; intros [|m ms] H; try done.
  cbn [map] in H. injection H as Hi Ht Him Hc Hp Hcb Hf Hr Hrest.
  f_equal; [|by apply IH].
  destruct m' as [a1 a2 a3 [a4 a5 a6 a7] a8], m as [b1 b2 b3 [b4 b5 b6 b7] b8].
  cbn [id timestamp image macros rawText calories protein carbs fat] in *.
  congruence.
Qed.

(** C7, as amended: for every collection whose numeric fields are
    finite binary64 values other than negative zero, saving it and then
    loading yields the same ordered sequence of records; saving puts
    the serialization under the one storage key in place of what was
    there, so saving twice leaves what the last save wrote, and no
    other key changes. *)
Theorem save_then_load (localStorage : gmap (list N) (list N))
    (ms : list Meal) :
  Forall (λ m, exact_meal m = true) ms →
  load (save localStorage (meals_value ms)) initial_meals = meals_value ms
  ∧ (∀ ms', meals_value ms' = meals_value ms → ms' = ms)
  ∧ save localStorage (meals_value ms) !! storage_key
    = Some (JSON_stringify (meals_value ms))
  ∧ (∀ v, save (save localStorage v) (meals_value ms)
          = save localStorage (meals_value ms))
  ∧ (∀ k, k ≠ storage_key →
          save localStorage (meals_value ms) !! k = localStorage !! k).
Proof.
  intros Hms. split_and!.
  - unfold load, save. rewrite lookup_insert_eq.
    rewrite JSON_parse_stringify; [done | by apply printable_meals | done].
  - apply meals_value_inj.
  - unfold save. apply lookup_insert_eq.
  - intros v. unfold save. apply insert_insert_eq.
  - intros k Hk. unfold save. by rewrite lookup_insert_ne.
Qed.

Lemma save_then_load_witness :
  load (save ∅ (meals_value [sample_meal "2" 540 30 60 20;
                             sample_meal "1" 20 4 5 6])) initial_meals
  = meals_value [sample_meal "2" 540 30 60 20; sample_meal "1" 20 4 5 6].
Proof.
  destruct (save_then_load ∅ [sample_meal "2" 540 30 60 20;
                              sample_meal "1" 20 4 5 6]) as [H _].
  - repeat constructor.
  - exact H.
Defined.

(** C7 as stated fails for a record with an infinite macro value:
    [JSON.stringify] writes it as [null], and [null] is what loading
    brings back. *)
Lemma save_then_load_loses_infinity :
  of_N (10 ^ 309) = PInf
  ∧ JSON_stringify (VNum PInf) = lit "null"
  ∧ load (save ∅ (meals_value [overflowed_meal])) initial_meals
    ≠ meals_value [overflowed_meal].
Proof.
  split_and!; [by vm_compute | done |].
  unfold load, save. rewrite lookup_insert_eq.
  vm_compute. discriminate.
Qed.

(** ** The canvas *)

(** C8 as stated fails: a square picture 281 pixels wide is drawn on a
    canvas 300 by 299, because 300 / 281 is rounded and the product
    with 281 falls just below 300 before its fraction is dropped. *)
Lemma canvas_size_not_exact :
  canvas_size 281 281 = (300, 299)%N
  ∧ (281 * 300 = 300 * 281)%N
  ∧ (299 * 281 ≠ 300 * 281)%N.
Proof. split_and!; [by vm_compute | done | done]. Qed.
(** ** How far a rounded quotient is from the exact one *)

Lemma reduce_value j : ∀ m,
  ∃ z k, reduce m j = Fin z k ∧ z * 2 ^ Z.of_nat j = m * 2 ^ Z.of_nat k
         ∧ (k <= j)%nat ∧ (0 < m → 0 < z).
Proof.
  induction j as [|j IH]; intros m.
  - exists m, O. by split_and!.
  - cbn [reduce]. destruct (Z.even m) eqn:Hev.
    + destruct (IH (m / 2)) as (z & k & Hred & Hval & Hk & Hpos).
      exists z, k. split_and!; [done| |lia|].
      * apply Z.even_spec in Hev as [m' ->].
        replace (2 * m' / 2) with m' in Hval
          by (symmetry; rewrite (Z.mul_comm 2 m'); apply Z.div_mul; lia).
        rewrite Nat2Z.inj_succ, Z.pow_succ_r by lia. lia.
      * intros Hm. apply Hpos. apply Z.even_spec in Hev as [m' ->].
        replace (2 * m' / 2) with m'
          by (symmetry; rewrite (Z.mul_comm 2 m'); apply Z.div_mul; lia).
        lia.
    + exists m, (S j). by split_and!.
Qed.

Lemma reduce_floor j m z k :
  reduce m j = Fin z k → z / 2 ^ Z.of_nat k = m / 2 ^ Z.of_nat j.
Proof.
  intros Hred.
  destruct (reduce_value j m) as (z' & k' & Hred' & Hval & Hk & _).
  rewrite Hred in Hred'. injection Hred' as <- <-.
  replace (Z.of_nat j) with (Z.of_nat k + Z.of_nat (j - k)) in * by lia.
  rewrite Z.pow_add_r in * by lia.
  assert (0 < 2 ^ Z.of_nat k) by (apply Z.pow_pos_nonneg; lia).
  assert (0 < 2 ^ Z.of_nat (j - k)) by (apply Z.pow_pos_nonneg; lia).
  assert (m = z * 2 ^ Z.of_nat (j - k)) as -> by nia.
  by rewrite Z.div_mul_cancel_r by lia.
Qed.

Lemma ge_pow2_split p q e a b :
  0 <= a → 0 <= b → a - b = e → ge_pow2 p q e = (q * 2 ^ a <=? p * 2 ^ b).
Proof.
  intros Ha Hb He. rewrite (ge_pow2_shift p q e (a + b)) by lia.
  replace (a + b + e) with (a + a) by lia.
  rewrite !Z.pow_add_r by lia.
  assert (0 < 2 ^ a) by (apply Z.pow_pos_nonneg; lia).
  apply eq_true_iff_eq. rewrite !Z.leb_le. nia.
Qed.

(** For a quotient in the normal range below [2^52] the rounding keeps
    53 significant bits: the result is [m / 2^t] with [m] the integer
    nearest to [p * 2^t / q]. *)
Lemma rnd_pos_near p q :
  0 < p → 0 < q → -1022 <= ilog2_ratio p q <= 51 →
  ∃ m, rnd_pos p q = reduce m (Z.to_nat (52 - ilog2_ratio p q))
       ∧ 2 * Z.abs (m * q - p * 2 ^ (52 - ilog2_ratio p q)) <= q
       ∧ 2 ^ 52 <= m <= 2 ^ 53.
Proof.
  intros Hp Hq HE.
  destruct (ilog2_ratio_spec p q Hp Hq) as [Hlo Hhi].
  unfold rnd_pos.
  remember (ilog2_ratio p q) as E eqn:HeqE. clear HeqE.
  set (t := 52 - E) in *.
  rewrite (ge_pow2_split p q E 52 t) in Hlo by lia.
  rewrite (ge_pow2_split p q (E + 1) 53 t) in Hhi by lia.
  apply Z.leb_le in Hlo. apply Z.leb_gt in Hhi.
  rewrite Z.max_l by lia.
  replace (E - 52) with (- t) by lia. rewrite Z.opp_involutive.
  rewrite (pow2_nonneg_eq t), (pow2_nonpos_eq (- t)) by lia.
  rewrite !Z.mul_1_r.
  assert (0 < 2 ^ t) as HA by (apply Z.pow_pos_nonneg; lia).
  remember (2 ^ t) as A eqn:HeqA.
  pose proof (Z.div_mod (p * A) q ltac:(lia)) as Hdm.
  pose proof (Z.mod_pos_bound (p * A) q Hq) as Hr.
  remember (p * A / q) as m0 eqn:Hm0. remember ((p * A) mod q) as r eqn:Hr0.
  clear Hm0 Hr0.
  assert (2 ^ 52 <= m0 < 2 ^ 53) as Hm0b.
  { change (2 ^ 53) with (2 * 2 ^ 52) in *.
    remember (2 ^ 52) as T. clear HeqT HeqA. nia. }
  set (m' := match 2 * r ?= q with
             | Eq => if Z.even m0 then m0 else m0 + 1
             | Lt => m0
             | Gt => m0 + 1
             end).
  assert (2 * Z.abs (m' * q - p * A) <= q ∧ m0 <= m' <= m0 + 1) as [Hnear Hm'].
  { subst m'. destruct (2 * r ?= q) eqn:Hcmp.
    - apply Z.compare_eq_iff in Hcmp. destruct (Z.even m0); split; lia.
    - change (2 * r < q) in Hcmp. split; lia.
    - change (2 * r > q) in Hcmp. split; lia. }
  exists m'. split_and!; [|done|lia|lia].
  assert (2 ^ 53 < 2 ^ 1024) by (apply Z.pow_lt_mono_r; lia).
  destruct (Z.leb_spec (2 ^ 1024 * A) m') as [Hov|_]; [nia|].
  unfold normalise. destruct (Z.leb_spec 0 (- t)); [lia|].
  by rewrite Z.opp_involutive.
Qed.

Lemma ilog2_ratio_bounds p q lo hi :
  0 < p → 0 < q →
  ge_pow2 p q lo = true → ge_pow2 p q (hi + 1) = false →
  lo <= ilog2_ratio p q <= hi.
Proof.
  intros Hp Hq Hlo Hhi.
  destruct (ilog2_ratio_spec p q Hp Hq) as [H1 H2]. split.
  - destruct (Z.le_gt_cases lo (ilog2_ratio p q)); [done|].
    rewrite (ge_pow2_mono p q lo (ilog2_ratio p q + 1)) in H2
      by (done || lia). done.
  - destruct (Z.le_gt_cases (ilog2_ratio p q) hi); [done|].
    rewrite (ge_pow2_mono p q (ilog2_ratio p q) (hi + 1)) in Hhi
      by (done || lia). done.
Qed.

Lemma num_div_whole a b :
  0 < a → 0 < b → num_div (Fin a 0) (Fin b 0) = rnd_pos a b.
Proof.
  intros Ha Hb. destruct a as [|a|a], b as [|b|b]; try lia.
  unfold num_div. cbn [Z.ltb Z.compare xorb signed Z.abs].
  change (Z.of_nat 0) with 0. rewrite Z.pow_0_r, !Z.mul_1_r. done.
Qed.

Lemma num_mul_whole a z k :
  0 < a → 0 < z →
  num_mul (Fin a 0) (Fin z k) = rnd_pos (a * z) (2 ^ Z.of_nat k).
Proof.
  intros Ha Hz. destruct a as [|a|a], z as [|z|z]; try lia.
  unfold num_mul. cbn [Z.ltb Z.compare xorb signed Z.abs Nat.add]. done.
Qed.

Lemma set_canvas_dim_floor z k :
  0 <= z → z / 2 ^ Z.of_nat k <= 2147483647 →
  set_canvas_dim 150 (Fin z k) = Z.to_N (z / 2 ^ Z.of_nat k).
Proof.
  intros Hz Hle. unfold set_canvas_dim, to_unsigned_long.
  assert (0 < 2 ^ Z.of_nat k) by (apply Z.pow_pos_nonneg; lia).
  assert (0 <= z / 2 ^ Z.of_nat k) by (apply Z.div_pos; lia).
  rewrite Z.quot_div_nonneg by lia.
  rewrite Z.mod_small by lia.
  destruct (N.ltb_spec 2147483647 (Z.to_N (z / 2 ^ Z.of_nat k))); [lia | done].
Qed.

(** The arithmetic behind the canvas height: two roundings to 53 bits
    move the product by far less than one part in [w]. *)
Lemma scaled_height_bounds w h m1 A m2 B :
  0 < w < 2 ^ 32 → 0 < h < 2 ^ 32 →
  2 ^ 52 <= m1 → 0 < A → 2 * Z.abs (m1 * w - 300 * A) <= w →
  2 ^ 52 <= m2 → 0 < B → 2 * Z.abs (m2 * A - h * m1 * B) <= A →
  (m2 / B) * w <= 300 * h ∧ 300 * h < (m2 / B + 2) * w.
Proof.
  intros Hw Hh Hm1 HA H1 Hm2 HB H2.
  change (2 ^ 32) with 4294967296 in *.
  change (2 ^ 52) with 4503599627370496 in *.
  pose proof (Z.div_mod m2 B ltac:(lia)) as Hdm.
  pose proof (Z.mod_pos_bound m2 B HB) as Hr.
  remember (m2 / B) as F eqn:HF. remember (m2 mod B) as r eqn:Hr0.
  clear HF Hr0.
  assert (0 <= F) as HF0 by nia.
  assert (- w <= 2 * (m1 * w - 300 * A) <= w) as H1' by lia.
  assert (- A <= 2 * (m2 * A - h * m1 * B) <= A) as H2' by lia.
  clear H1 H2.
  (* the first rounding is fine compared with h * w *)
  assert (h * w < A) as S1.
  { assert (4503599627370496 * w <= m1 * w)
      by (apply Z.mul_le_mono_nonneg_r; lia).
    assert (h * w <= 4294967295 * w)
      by (apply Z.mul_le_mono_nonneg_r; lia).
    lia. }
  assert (0 <= h * m1) by (apply Z.mul_nonneg_nonneg; lia).
  assert (0 <= h * B) by (apply Z.mul_nonneg_nonneg; lia).
  assert (0 <= A * B) by (apply Z.mul_nonneg_nonneg; lia).
  assert (0 <= A * w) by (apply Z.mul_nonneg_nonneg; lia).
  assert (2 * (h * m1 * B) * w = h * B * (2 * (m1 * w))) as Heq by ring.
  (* the second is fine compared with w *)
  assert (w < B) as S2.
  { destruct (Z.lt_ge_cases w B) as [|Hge]; [done|exfalso].
    assert (h * m1 * B <= h * m1 * w)
      by (apply Z.mul_le_mono_nonneg_l; lia).
    assert (h * (2 * (m1 * w)) <= h * (600 * A + w))
      by (apply Z.mul_le_mono_nonneg_l; lia).
    assert (A * (2 * m2 - 1) < A * (600 * h + 1)) as Hlt by lia.
    apply Z.mul_lt_mono_pos_l in Hlt; lia. }
  assert (h * w * B < A * B) by (apply Z.mul_lt_mono_pos_r; lia).
  assert (w * A < B * A) by (apply Z.mul_lt_mono_pos_r; lia).
  split.
  - destruct (Z.le_gt_cases (F * w) (300 * h)) as [|Hgt]; [done|exfalso].
    assert (A * B * (300 * h + 1) <= A * B * (F * w))
      by (apply Z.mul_le_mono_nonneg_l; lia).
    assert (B * F * (A * w) <= m2 * (A * w))
      by (apply Z.mul_le_mono_nonneg_r; lia).
    assert (2 * (m2 * A) * w <= (2 * (h * m1 * B) + A) * w)
      by (apply Z.mul_le_mono_nonneg_r; lia).
    assert (h * B * (2 * (m1 * w)) <= h * B * (600 * A + w))
      by (apply Z.mul_le_mono_nonneg_l; lia).
    lia.
  - destruct (Z.lt_ge_cases (300 * h) ((F + 2) * w)) as [|Hge]; [done|exfalso].
    assert (h * 1 <= h * w) by (apply Z.mul_le_mono_nonneg_l; lia).
    assert (m2 * (A * w) < B * (F + 1) * (A * w))
      by (apply Z.mul_lt_mono_pos_r;
          [apply Z.mul_pos_pos; lia | lia]).
    assert (A * B * ((F + 1) * w) <= A * B * (300 * h - w))
      by (apply Z.mul_le_mono_nonneg_l; lia).
    assert ((2 * (h * m1 * B) - A) * w <= 2 * (m2 * A) * w)
      by (apply Z.mul_le_mono_nonneg_r; lia).
    assert (h * B * (600 * A - w) <= h * B * (2 * (m1 * w)))
      by (apply Z.mul_le_mono_nonneg_l; lia).
    assert (h * B <= A * B) by (apply Z.mul_le_mono_nonneg_r; lia).
    assert (A * 1 <= A * B) by (apply Z.mul_le_mono_nonneg_l; lia).
    assert (h * B * w <= A * B * w) by (apply Z.mul_le_mono_nonneg_r; lia).
    assert (A * 1 * w <= A * B * w) by (apply Z.mul_le_mono_nonneg_r; lia).
    lia.
Qed.

Lemma canvas_height (w h : N) :
  (0 < w < 2 ^ 32)%N → (0 < h < 2 ^ 32)%N →
  (300 * h <= 2147483647 * w)%N →
  ∃ H, snd (canvas_size w h) = H
       ∧ (H * w <= 300 * h)%N ∧ (300 * h < (H + 2) * w)%N.
Proof.
  intros Hw Hh Hfit. unfold canvas_size, MAX_WIDTH. cbn [snd].
  change (2 ^ 32)%N with 4294967296%N in *.
  rewrite !of_N_whole by (change (2 ^ 53)%N with 9007199254740992%N; lia).
  unfold whole.
  set (W := Z.of_N w). set (Hh' := Z.of_N h).
  assert (0 < W < 2 ^ 32) as HW by (subst W; change (2 ^ 32) with 4294967296; lia).
  assert (0 < Hh' < 2 ^ 32) as HH
    by (subst Hh'; change (2 ^ 32) with 4294967296; lia).
  change (Z.of_N 300) with 300.
  rewrite num_div_whole by lia.
  (* the quotient *)
  assert (-31 <= ilog2_ratio 300 W <= 8) as HE1.
  { apply ilog2_ratio_bounds; [lia | lia | |].
    - rewrite (ge_pow2_split 300 W (-31) 0 31) by lia.
      apply Z.leb_le. change (2 ^ 32) with 4294967296 in HW.
      change (2 ^ 0) with 1. change (2 ^ 31) with 2147483648. lia.
    - change (8 + 1) with 9. rewrite (ge_pow2_split 300 W 9 9 0) by lia.
      apply Z.leb_gt. change (2 ^ 9) with 512. change (2 ^ 0) with 1. lia. }
  destruct (rnd_pos_near 300 W) as (m1 & Hs & Hnear1 & Hm1); [lia..|].
  set (t1 := 52 - ilog2_ratio 300 W) in *.
  destruct (reduce_value (Z.to_nat t1) m1) as (zs & ks & Hred1 & Hval1 & Hk1 & Hzs).
  rewrite Hs, Hred1.
  specialize (Hzs ltac:(lia)).
  rewrite num_mul_whole by lia.
  (* the product, with the quotient written as m1 / 2^t1 *)
  assert (0 < 2 ^ t1) as HA by (apply Z.pow_pos_nonneg; lia).
  assert (0 < 2 ^ Z.of_nat ks) as Hks by (apply Z.pow_pos_nonneg; lia).
  rewrite Z2Nat.id in Hval1 by lia.
  assert (rnd_pos (Hh' * zs) (2 ^ Z.of_nat ks) = rnd_pos (Hh' * m1) (2 ^ t1))
    as ->.
  { rewrite <- (rnd_pos_scale (Hh' * zs) (2 ^ Z.of_nat ks) (2 ^ t1))
      by (done || nia).
    rewrite <- (rnd_pos_scale (Hh' * m1) (2 ^ t1) (2 ^ Z.of_nat ks))
      by (done || nia).
    f_equal; [|ring]. rewrite <- !Z.mul_assoc. by rewrite Hval1. }
  assert (2 ^ 44 <= 2 ^ t1 <= 2 ^ 83) as HAb
    by (split; apply Z.pow_le_mono_r; lia).
  remember (2 ^ t1) as A eqn:HeqA.
  change (2 ^ 32) with 4294967296 in *.
  change (2 ^ 52) with 4503599627370496 in *.
  change (2 ^ 53) with 9007199254740992 in *.
  change (2 ^ 44) with 17592186044416 in *.
  change (2 ^ 83) with 9671406556917033397649408 in *.
  assert (m1 <= 301 * A) as Hm1A.
  { assert (m1 * 1 <= m1 * W) by (apply Z.mul_le_mono_nonneg_l; lia). lia. }
  assert (-40 <= ilog2_ratio (Hh' * m1) A <= 41) as HE2.
  { assert (4503599627370496 * 1 <= m1 * Hh')
      by (apply Z.mul_le_mono_nonneg; lia).
    assert (Hh' * m1 <= 4294967296 * m1)
      by (apply Z.mul_le_mono_nonneg_r; lia).
    apply ilog2_ratio_bounds; [lia | lia | |].
    - rewrite (ge_pow2_split (Hh' * m1) A (-40) 0 40) by lia.
      apply Z.leb_le. change (2 ^ 0) with 1.
      change (2 ^ 40) with 1099511627776. lia.
    - change (41 + 1) with 42.
      rewrite (ge_pow2_split (Hh' * m1) A 42 42 0) by lia.
      apply Z.leb_gt. change (2 ^ 0) with 1.
      change (2 ^ 42) with 4398046511104. lia. }
  destruct (rnd_pos_near (Hh' * m1) A) as (m2 & Hp & Hnear2 & Hm2);
    [nia | lia | lia |].
  set (t2 := 52 - ilog2_ratio (Hh' * m1) A) in *.
  destruct (reduce_value (Z.to_nat t2) m2) as (zp & kp & Hred2 & _ & _ & Hzp).
  specialize (Hzp ltac:(lia)).
  pose proof (reduce_floor _ _ _ _ Hred2) as Hfloor.
  rewrite Z2Nat.id in Hfloor by lia.
  assert (0 < 2 ^ t2) as HB by (apply Z.pow_pos_nonneg; lia).
  change (2 ^ 52) with 4503599627370496 in *.
  change (2 ^ 53) with 9007199254740992 in *.
  destruct (scaled_height_bounds W Hh' m1 A m2 (2 ^ t2)) as [Ha Hb];
    try (change (2 ^ 32) with 4294967296;
         change (2 ^ 52) with 4503599627370496); try lia.
  rewrite Hp, Hred2.
  assert (0 <= m2 / 2 ^ t2) by (apply Z.div_pos; lia).
  assert (300 * Hh' <= 2147483647 * W) as Hfit' by (subst W Hh'; lia).
  assert (m2 / 2 ^ t2 <= 2147483647).
  { apply (Z.mul_le_mono_pos_r _ _ W); lia. }
  rewrite set_canvas_dim_floor; rewrite ?Hfloor; [|lia|lia].
  eexists; split; [done|]. split.
  - apply N2Z.inj_le. rewrite !N2Z.inj_mul, Z2N.id by lia. exact Ha.
  - apply N2Z.inj_lt. rewrite !N2Z.inj_mul, N2Z.inj_add, Z2N.id by lia.
    exact Hb.
Qed.

(** C8, as amended: for a decoded picture of width [w] and height [h]
    (positive, below 2^32, the scaled height within the 2^31 - 1 a
    canvas dimension holds) the canvas is exactly 300 wide and its
    height [H] satisfies [H <= 300 * h / w < H + 2]: the exactly scaled
    height rounded down, or one less when the two roundings of the
    double arithmetic fall just short.  Narrower pictures are scaled
    up.  A picture 1200 by 800 gives 300 by 200 and one 100 by 100
    gives 300 by 300.  The data URL that [compressImage] resolves with
    is that of this canvas. *)
Theorem canvas_size_scaled (w h : N) :
  (0 < w < 2 ^ 32)%N → (0 < h < 2 ^ 32)%N →
  (300 * h <= 2147483647 * w)%N →
  fst (canvas_size w h) = 300%N
  ∧ (snd (canvas_size w h) * w <= 300 * h)%N
  ∧ (300 * h < (snd (canvas_size w h) + 2) * w)%N
  ∧ (∀ world f, decode world f = Some (w, h) → context2d world = true →
       compressImage world f
       = Fulfilled (toDataURL world f 300 (snd (canvas_size w h))))
  ∧ canvas_size 1200 800 = (300, 200)%N
  ∧ canvas_size 100 100 = (300, 300)%N.
Proof.
  intros Hw Hh Hfit.
  destruct (canvas_height w h Hw Hh Hfit) as (H & HH & Hlo & Hhi).
  assert (fst (canvas_size w h) = 300%N) as Hfst by reflexivity.
  split_and!; [done | by rewrite HH | by rewrite HH | | by vm_compute..].
  intros world f Hdec Hctx. unfold compressImage. rewrite Hdec.
  destruct (canvas_size w h) as [cw ch] eqn:Hcs. cbn [fst snd] in *.
  by rewrite Hctx, Hfst.
Qed.

Lemma canvas_size_scaled_witness :
  fst (canvas_size 1200 800) = 300%N
  ∧ (snd (canvas_size 1200 800) * 1200 <= 300 * 800)%N
  ∧ (300 * 800 < (snd (canvas_size 1200 800) + 2) * 1200)%N.
Proof.
  destruct (canvas_size_scaled 1200 800) as (H1 & H2 & H3 & _);
    [vm_compute; split; reflexivity | vm_compute; split; reflexivity
    | vm_compute; discriminate |].
  split_and!; [exact H1 | exact H2 | exact H3].
Defined.

(** ** The reader never runs out of fuel *)

Lemma skip_ws_length s : (length (skip_ws s) <= length s)%nat.
Proof.
  induction s as [|c s IH]; [done|]. cbn [skip_ws].
  destruct (is_ws c); cbn [length]; lia.
Qed.

Lemma skip_ws_cons s c r :
  skip_ws s = c :: r → (length r < length s)%nat.
Proof.
  intros H. pose proof (skip_ws_length s) as Hl. rewrite H in Hl.
  cbn [length] in Hl. lia.
Qed.

Lemma strip_prefix_length p : ∀ s r,
  strip_prefix p s = Some r → (length s = length p + length r)%nat.
Proof.
  induction p as [|a p IH]; intros s r; cbn [strip_prefix].
  - by intros [= ->].
  - destruct s as [|b s]; [done|]. destruct (a =? b)%N; [|done].
    intros H. apply IH in H. cbn [length]. lia.
Qed.

Lemma push_length c o str rest n :
  push c o = Some (str, rest) →
  (∀ str' rest', o = Some (str', rest') → (length rest' < n)%nat) →
  (length rest < n)%nat.
Proof.
  destruct o as [[str' rest']|]; [|done]. cbn [push].
  intros [= <- <-] H. by apply (H str').
Qed.

Lemma parse_chars_length s : ∀ str rest,
  parse_chars s = Some (str, rest) → (length rest < length s)%nat.
Proof.
  assert (∀ (n : nat) s str rest, (length s <= n)%nat →
            parse_chars s = Some (str, rest) → (length rest < length s)%nat)
    as Hind.
  { clear s. induction n as [|n IH]; intros s str rest Hlen.
    - destruct s; [done | cbn [length] in Hlen; lia].
    - destruct s as [|c r]; [done|]. cbn [length] in Hlen.
      cbn [parse_chars].
      destruct (c =? 34)%N; [intros [= <- <-]; cbn [length]; lia|].
      destruct (c =? 92)%N.
      + destruct r as [|e r1]; [done|].
        destruct (e =? 117)%N.
        * destruct r1 as [|h1 [|h2 [|h3 [|h4 r2]]]]; try done.
          destruct (hex_val h1), (hex_val h2), (hex_val h3), (hex_val h4);
            try done.
          intros H. eapply push_length; [exact H|].
          intros str' rest' H'. apply IH in H'; cbn [length] in *; lia.
        * destruct (unescape e); [|done].
          intros H. eapply push_length; [exact H|].
          intros str' rest' H'. apply IH in H'; cbn [length] in *; lia.
      + destruct (c <? 32)%N; [done|].
        intros H. eapply push_length; [exact H|].
        intros str' rest' H'. apply IH in H'; cbn [length] in *; lia. }
  intros str rest. by apply (Hind (length s)).
Qed.

Lemma span_digits_length s ds rest :
  span_digits s = (ds, rest) → (length ds + length rest = length s)%nat.
Proof.
  revert ds rest. induction s as [|c s IH]; intros ds rest; cbn [span_digits].
  - by intros [= <- <-].
  - destruct (is_digit c).
    + destruct (span_digits s) as [ds' rest']. intros [= <- <-].
      specialize (IH ds' rest' eq_refl). cbn [length]. lia.
    + intros [= <- <-]. cbn [length]. lia.
Qed.

Lemma parse_number_length s x r :
  parse_number s = Some (x, r) → (length r < length s)%nat.
Proof.
  unfold parse_number.
  destruct (read_minus s) as [neg s1] eqn:Hm.
  assert (length s1 <= length s)%nat as H1.
  { unfold read_minus in Hm. destruct s as [|c s']; [by injection Hm as <- <-|].
    destruct (c =? 45)%N; injection Hm as <- <-; cbn [length]; lia. }
  destruct (read_int s1) as [ip s2] eqn:Hi.
  assert (length ip + length s2 = length s1)%nat as H2.
  { unfold read_int in Hi. destruct s1 as [|c s1']; [by injection Hi as <- <-|].
    destruct (c =? 48)%N; [by injection Hi as <- <-|].
    by apply span_digits_length. }
  destruct ip as [|d ip]; [done|]. cbn [length] in H2.
  destruct (read_frac s2) as [[fp s3]|] eqn:Hf; [|done].
  assert (length s3 <= length s2)%nat as H3.
  { unfold read_frac in Hf. destruct s2 as [|c s2']; [by injection Hf as <- <-|].
    destruct (c =? 46)%N; [|by injection Hf as <- <-].
    destruct (span_digits s2') as [fp' s3'] eqn:Hsp.
    apply span_digits_length in Hsp.
    destruct fp'; [done|]. injection Hf as <- <-. cbn [length] in *. lia. }
  destruct (read_exp s3) as [[e s4]|] eqn:He; [|done].
  assert (length s4 <= length s3)%nat as H4.
  { unfold read_exp in He. destruct s3 as [|c s3']; [by injection He as <- <-|].
    destruct ((c =? 101)%N || (c =? 69)%N); [|by injection He as <- <-].
    destruct (match s3' with
              | [] => (false, s3')
              | c' :: r'' =>
                  if (c' =? 45)%N then (true, r'')
                  else if (c' =? 43)%N then (false, r'') else (false, s3')
              end) as [eneg r'] eqn:Hsign.
    assert (length r' <= length s3')%nat.
    { destruct s3' as [|c' r'']; [by injection Hsign as <- <-|].
      destruct (c' =? 45)%N; [injection Hsign as <- <-; cbn [length]; lia|].
      destruct (c' =? 43)%N; injection Hsign as <- <-; cbn [length]; lia. }
    destruct (span_digits r') as [ep s'] eqn:Hsp.
    apply span_digits_length in Hsp.
    destruct ep; [done|]. injection He as <- <-. cbn [length] in *. lia. }
  intros [= <- <-]. lia.
Qed.

Lemma reader_fuel fuel :
  (∀ s, (2 * length s + 1 <= fuel)%nat →
        parse_value fuel s ≠ Starved
        ∧ ∀ v r, parse_value fuel s = Done v r → (length r < length s)%nat)
  ∧ (∀ s, (2 * length s + 2 <= fuel)%nat →
          parse_elements fuel s ≠ Starved
          ∧ ∀ vs r, parse_elements fuel s = Done vs r →
                    (length r < length s)%nat)
  ∧ (∀ s acc, (2 * length s + 2 <= fuel)%nat →
              parse_members fuel s acc ≠ Starved
              ∧ ∀ ps r, parse_members fuel s acc = Done ps r →
                        (length r < length s)%nat).
Proof.
  induction fuel as [|f (IHv & IHe & IHm)]; [split_and!; intros; lia|].
  split_and!.
  - intros s Hf. cbn [parse_value].
    destruct (skip_ws s) as [|c r] eqn:Hs; [done|].
    pose proof (skip_ws_cons _ _ _ Hs) as Hr.
    destruct (c =? 34)%N.
    { destruct (parse_chars r) as [[str r']|] eqn:Hc; [|done].
      apply parse_chars_length in Hc. split; [done|].
      intros v r0 [= <- <-]. lia. }
    destruct (c =? 91)%N.
    { destruct (skip_ws r) as [|c' r'] eqn:Hs'; [done|].
      pose proof (skip_ws_cons _ _ _ Hs') as Hr'.
      destruct (c' =? 93)%N; [split; [done|]; intros v r0 [= <- <-]; lia|].
      destruct (IHe r ltac:(lia)) as [Hne Hlen].
      destruct (parse_elements f r) as [vs r''| |] eqn:He; try done.
      split; [done|]. intros v r0 [= <- <-].
      specialize (Hlen vs r'' eq_refl). lia. }
    destruct (c =? 123)%N.
    { destruct (skip_ws r) as [|c' r'] eqn:Hs'; [done|].
      pose proof (skip_ws_cons _ _ _ Hs') as Hr'.
      destruct (c' =? 125)%N; [split; [done|]; intros v r0 [= <- <-]; lia|].
      destruct (IHm r [] ltac:(lia)) as [Hne Hlen].
      destruct (parse_members f r []) as [ps r''| |] eqn:He; try done.
      split; [done|]. intros v r0 [= <- <-].
      specialize (Hlen ps r'' eq_refl). lia. }
    pose proof (skip_ws_length s) as Hsl. rewrite Hs in Hsl.
    assert (∀ p r', strip_prefix (lit p) (c :: r) = Some r' → p ≠ EmptyString →
              (length r' < length s)%nat) as Hlit.
    { intros p r' H Hp. apply strip_prefix_length in H.
      destruct p; [done|]. cbn [lit list_ascii_of_string map length] in H.
      cbn [length] in H. lia. }
    destruct (strip_prefix (lit "null") (c :: r)) as [r'|] eqn:H1.
    { split; [done|]. intros v r0 [= <- <-]. by eapply Hlit. }
    destruct (strip_prefix (lit "true") (c :: r)) as [r'|] eqn:H2.
    { split; [done|]. intros v r0 [= <- <-]. by eapply Hlit. }
    destruct (strip_prefix (lit "false") (c :: r)) as [r'|] eqn:H3.
    { split; [done|]. intros v r0 [= <- <-]. by eapply Hlit. }
    destruct (parse_number (c :: r)) as [[x r']|] eqn:Hn; [|done].
    apply parse_number_length in Hn. split; [done|].
    intros v r0 [= <- <-]. lia.
  - intros s Hf. cbn [parse_elements].
    destruct (IHv s ltac:(lia)) as [Hne Hlen].
    destruct (parse_value f s) as [v r| |] eqn:Hv; try done.
    specialize (Hlen v r eq_refl).
    destruct (skip_ws r) as [|c r'] eqn:Hs; [done|].
    pose proof (skip_ws_cons _ _ _ Hs) as Hr.
    destruct (c =? 44)%N.
    { destruct (IHe r' ltac:(lia)) as [Hne' Hlen'].
      destruct (parse_elements f r') as [vs r''| |] eqn:He; try done.
      split; [done|]. intros vs0 r0 [= <- <-].
      specialize (Hlen' vs r'' eq_refl). lia. }
    destruct (c =? 93)%N; [|done].
    split; [done|]. intros vs0 r0 [= <- <-]. lia.
  - intros s acc Hf. cbn [parse_members].
    destruct (skip_ws s) as [|c r] eqn:Hs; [done|].
    pose proof (skip_ws_cons _ _ _ Hs) as Hr.
    destruct (c =? 34)%N; [|done].
    destruct (parse_chars r) as [[key r1]|] eqn:Hc; [|done].
    apply parse_chars_length in Hc.
    destruct (skip_ws r1) as [|c1 r2] eqn:Hs1; [done|].
    pose proof (skip_ws_cons _ _ _ Hs1) as Hr1.
    destruct (c1 =? 58)%N; [|done].
    destruct (IHv r2 ltac:(lia)) as [Hne Hlen].
    destruct (parse_value f r2) as [v r3| |] eqn:Hv; try done.
    specialize (Hlen v r3 eq_refl).
    destruct (skip_ws r3) as [|c3 r4] eqn:Hs3; [done|].
    pose proof (skip_ws_cons _ _ _ Hs3) as Hr3.
    destruct (c3 =? 44)%N.
    { destruct (IHm r4 (obj_set key v acc) ltac:(lia)) as [Hne' Hlen'].
      split; [done|]. intros ps r0 Hd. specialize (Hlen' ps r0 Hd). lia. }
    destruct (c3 =? 125)%N; [|done].
    split; [done|]. intros ps r0 [= <- <-]. lia.
Qed.

(** [JSON_parse] gives its reader fuel enough for any text: a throw is
    a rejection of the text, never an exhausted reader. *)
Lemma JSON_parse_fuel text :
  parse_value (2 * length text + 1) text ≠ Starved.
Proof.
  destruct (reader_fuel (2 * length text + 1)) as (Hv & _ & _).
  by apply Hv.
Qed.
(** ** More on the collection *)

Lemma deleteMeal_cons i m ms :
  deleteMeal i (m :: ms)
  = if decide (id m ≠ i) then m :: deleteMeal i ms else deleteMeal i ms.
Proof. unfold deleteMeal. by rewrite filter_cons. Qed.

(** X1: deleting is idempotent and deletions commute: deleting an
    identifier a second time changes nothing, the order in which two
    identifiers are deleted does not matter, and no deletion lengthens
    the collection. *)
Theorem deleteMeal_idempotent_commutes (ms : list Meal) (i j : jsstring) :
  deleteMeal i (deleteMeal i ms) = deleteMeal i ms
  ∧ deleteMeal i (deleteMeal j ms) = deleteMeal j (deleteMeal i ms)
  ∧ (length (deleteMeal i ms) <= length ms)%nat.
Proof.
  split_and!.
  - apply deleteMeal_absent, Forall_forall. intros m Hm.
    unfold deleteMeal in Hm. apply list_elem_of_filter in Hm. tauto.
  - induction ms as [|m ms IH]; [done|].
    rewrite !deleteMeal_cons.
    destruct (decide (id m ≠ j)), (decide (id m ≠ i));
      rewrite ?deleteMeal_cons; repeat case_decide; try done; by rewrite IH.
  - apply length_filter.
Qed.

Lemma deleteMeal_split (ms : list Meal) (m : Meal) :
  NoDup (map id ms) → m ∈ ms →
  ∃ before after,
    ms = before ++ m :: after ∧ deleteMeal (id m) ms = before ++ after.
Proof.
  intros Hnd Hin. apply list_elem_of_split in Hin as (a & b & ->).
  exists a, b. split; [done|]. rewrite map_app in Hnd. cbn [map] in Hnd.
  apply NoDup_app in Hnd as (_ & Hab & Hb).
  apply NoDup_cons in Hb as [Hb _].
  unfold deleteMeal.
  rewrite filter_app, filter_cons_False by (intros H; by apply H).
  fold (deleteMeal (id m) a). fold (deleteMeal (id m) b).
  rewrite !deleteMeal_absent; [done| |].
  - apply Forall_forall. intros x Hx Heq. apply Hb. rewrite <- Heq.
    apply list_elem_of_fmap. by exists x.
  - apply Forall_forall. intros x Hx Heq. apply (Hab (id x)).
    + apply list_elem_of_fmap. by exists x.
    + rewrite Heq. apply list_elem_of_here.
Qed.

(** X2: in a collection whose identifiers are all different, deleting
    by the identifier of one of its records takes out that record and
    no other: the records before it and after it stay as they are, in
    order, and the collection is one record shorter. *)
Theorem deleteMeal_unique (ms : list Meal) (m : Meal) :
  NoDup (map id ms) → m ∈ ms →
  ∃ before after,
    ms = before ++ m :: after
    ∧ deleteMeal (id m) ms = before ++ after
    ∧ length ms = S (length (deleteMeal (id m) ms)).
Proof.
  intros Hnd Hin. destruct (deleteMeal_split ms m Hnd Hin) as (a & b & -> & Hdel).
  exists a, b. split_and!; [done | done |].
  rewrite Hdel, !length_app. cbn [length]. lia.
Qed.

Lemma deleteMeal_unique_witness :
  ∃ before after,
    [sample_meal "3" 540 30 60 20; sample_meal "2" 10 1 2 3;
     sample_meal "1" 20 4 5 6]
    = before ++ sample_meal "2" 10 1 2 3 :: after
    ∧ deleteMeal (id (sample_meal "2" 10 1 2 3))
        [sample_meal "3" 540 30 60 20; sample_meal "2" 10 1 2 3;
         sample_meal "1" 20 4 5 6]
      = before ++ after
    ∧ length [sample_meal "3" 540 30 60 20; sample_meal "2" 10 1 2 3;
              sample_meal "1" 20 4 5 6]
      = S (length (deleteMeal (id (sample_meal "2" 10 1 2 3))
                     [sample_meal "3" 540 30 60 20; sample_meal "2" 10 1 2 3;
                      sample_meal "1" 20 4 5 6])).
Proof.
  apply (deleteMeal_unique
           [sample_meal "3" 540 30 60 20; sample_meal "2" 10 1 2 3;
            sample_meal "1" 20 4 5 6] (sample_meal "2" 10 1 2 3)).
  - refine (bool_decide_unpack _ _). vm_compute. exact I.
  - apply list_elem_of_further, list_elem_of_here.
Defined.

(** ** Identifiers *)

(** X3: the identifier made from a clock reading is its decimal
    digits: only digits, at least one, no leading zero unless the
    reading is 0; [parseInt] reads it back as the reading; and two
    different readings never give the same identifier. *)
Theorem Date_toString_round_trip (now : N) :
  all_digits (Date_toString now) = true
  ∧ Date_toString now ≠ []
  ∧ parseInt (Date_toString now) = of_N now
  ∧ (∀ d r, Date_toString now = d :: r → d = 48%N → now = 0%N)
  ∧ ∀ now', Date_toString now' = Date_toString now → now' = now.
Proof.
  unfold Date_toString.
  destruct (digits_of_spec now) as (Hd & Hne & Hv & Hz).
  split_and!; [done | done | | |].
  - rewrite parseInt_digits by done. by rewrite Hv.
  - intros d r Heq ->. destruct (N.eq_dec now 0%N) as [|Hpos]; [done|].
    exfalso. by apply (Hz ltac:(lia) _ _ Heq).
  - intros now' Heq. destruct (digits_of_spec now') as (_ & _ & Hv' & _).
    by rewrite <- Hv', Heq.
Qed.

(** X4: a submission keeps the identifiers of the collection all
    different, provided they were and the identifier of the clock
    reading is not among them; and whatever the state and the outside
    world, with no condition at all, no record of the collection is
    dropped or changed by a submission: the collection before is a
    suffix of the collection after. *)
Theorem handleSubmit_keeps_ids_unique (w : World) (st : State) :
  (NoDup (map id (meals st)) →
   Date_toString (clock_id w) ∉ map id (meals st) →
   NoDup (map id (meals (fst (handleSubmit w st)))))
  ∧ meals st `suffix_of` meals (fst (handleSubmit w st)).
Proof.
  unfold handleSubmit.
  destruct (file st) as [f|]; [|done].
  destruct (reachable w); [|done].
  destruct (resp_error _) as [[|? ?]|]; cbv beta iota zeta;
    destruct (compressImage w f); cbn [fst meals insertMeal map id];
    try done;
    (split; [intros Hnd Hfresh; by apply NoDup_cons | by apply suffix_cons_r]).
Qed.

Lemma handleSubmit_keeps_ids_unique_witness :
  NoDup (map id (meals (fst (handleSubmit answering_world stored_state))))
  ∧ meals stored_state
    `suffix_of` meals (fst (handleSubmit answering_world stored_state)).
Proof.
  destruct (handleSubmit_keeps_ids_unique answering_world stored_state)
    as [Hids Hsuffix].
  split; [|exact Hsuffix]. apply Hids.
  - refine (bool_decide_unpack _ _). vm_compute. exact I.
  - refine (bool_decide_unpack _ _). vm_compute. exact I.
Defined.

(** ** The server action and the outcomes of a submission *)

Ltac in_list :=
  repeat first [apply list_elem_of_here | apply list_elem_of_further].

(** X5: [analyzeImage] always returns, with either a text or one of
    three error messages and never both.  Without a file the error is
    that no image was provided, whatever the credential; with a file
    but a credential that is unset or empty the error is that the key
    is not set, whatever the model would have answered; a text is
    returned exactly when there is a file, the credential is set and
    the model answers, and it is the model's answer unchanged. *)
Theorem analyzeImage_outcomes (w : World) (formData : option File) :
  (resp_text (analyzeImage w formData) = None
   ↔ resp_error (analyzeImage w formData) ≠ None)
  ∧ resp_error (analyzeImage w formData)
    ∈ [None; Some (lit "No image provided");
       Some (lit "GEMINI_API_KEY is not set");
       Some (lit "Failed to analyze image")]
  ∧ (formData = None →
     resp_error (analyzeImage w formData) = Some (lit "No image provided"))
  ∧ (formData ≠ None → (api_key w = None ∨ api_key w = Some []) →
     resp_error (analyzeImage w formData)
     = Some (lit "GEMINI_API_KEY is not set"))
  ∧ (∀ t, resp_text (analyzeImage w formData) = Some t
          ↔ ∃ f key, formData = Some f ∧ api_key w = Some key
                     ∧ truthy key = true ∧ generateContent w f = Some t).
Proof.
  unfold analyzeImage.
  destruct formData as [f|]; [|cbn [resp_text resp_error]; split_and!].
  - destruct (api_key w) as [[|c k]|] eqn:Hk;
      [| destruct (generateContent w f) as [t|] eqn:Hg |];
      cbn [resp_text resp_error]; split_and!.
    all: try (split; [done | by intros ?]).
    all: try (split; [by intros [] | done]).
    all: try in_list.
    all: try done.
    all: try (by intros _ [|]).
    all: intros t'; split; try done.
    all: try (intros (f' & key & [= <-] & [= <-] & Ht & Hg');
              first [done | congruence]).
    intros [= <-]. by exists f, (c :: k).
  - split; [done | by intros ?].
  - in_list.
  - done.
  - done.
  - intros t. split; [done | by intros (? & ? & ? & _)].
Qed.

(** X6: a submission with no file selected does nothing: the state is
    as before and nothing is sent.  With a file selected that file is
    sent, once; the busy flag is off when the submission has ended; and
    the error then shown is none or one of three messages: that the key
    is not set, that the analysis failed, or that something unexpected
    happened.  That no image was provided is never shown. *)
Theorem handleSubmit_outcomes (w : World) (st : State) :
  (file st = None → handleSubmit w st = (st, []))
  ∧ ∀ f, file st = Some f →
      snd (handleSubmit w st) = [f]
      ∧ loading (fst (handleSubmit w st)) = false
      ∧ error (fst (handleSubmit w st))
        ∈ [None; Some unexpected; Some (lit "GEMINI_API_KEY is not set");
           Some (lit "Failed to analyze image")].
Proof.
  split; [intros Hf; unfold handleSubmit; by rewrite Hf|].
  intros f Hf. unfold handleSubmit, analyzeImage. rewrite Hf.
  destruct (reachable w); [|split_and!; [done | done | in_list]].
  destruct (api_key w) as [[|c k]|];
    [| destruct (generateContent w f) |]; cbn [resp_error resp_text];
    cbv beta iota zeta; try destruct (compressImage w f);
    cbn [fst snd loading error]; (split_and!; [done | done | in_list]).
Qed.

Lemma handleSubmit_success (w : World) (st : State) (f : File)
    (key t : jsstring) (img_width img_height : N) :
  file st = Some f → reachable w = true →
  api_key w = Some key → truthy key = true →
  generateContent w f = Some t →
  decode w f = Some (img_width, img_height) → context2d w = true →
  fst (handleSubmit w st)
  = mkState ({| id := Date_toString (clock_id w);
                timestamp := of_N (clock_timestamp w);
                image := toDataURL w f 300
                           (snd (canvas_size img_width img_height));
                macros := parseMacros t;
                rawText := t |} :: meals st)
            false None None None.
Proof.
  intros Hf Hr Hk Ht Hg Hd Hc.
  unfold handleSubmit, analyzeImage, compressImage.
  rewrite Hf, Hr, Hk, Hg, Hd, Hc. destruct key as [|c k]; [done|].
  cbn [resp_error resp_text].
  destruct (canvas_size img_width img_height) as [cw ch] eqn:Hcs.
  assert (cw = 300%N) as -> by (change cw with (fst (cw, ch)); by rewrite <- Hcs).
  done.
Qed.


(** X7: when the server is reached and has its credential, the model
    answers with a text, the picture decodes and a drawing context is
    to be had, the submission ends with no error shown, no file and no
    preview selected, and one record put in front of the collection:
    its identifier is the digits of the clock reading, its text the
    answer as it came, its macros what [parseMacros] reads in the
    answer, its image the encoder's output for a canvas 300 wide and as
    high as [canvas_size] says. *)
Theorem successful_submission (w : World) (st : State) (f : File)
    (key t : jsstring) (img_width img_height : N) :
  file st = Some f → reachable w = true →
  api_key w = Some key → truthy key = true →
  generateContent w f = Some t →
  decode w f = Some (img_width, img_height) → context2d w = true →
  fst (handleSubmit w st)
  = mkState ({| id := Date_toString (clock_id w);
                timestamp := of_N (clock_timestamp w);
                image := toDataURL w f 300
                           (snd (canvas_size img_width img_height));
                macros := parseMacros t;
                rawText := t |} :: meals st)
            false None None None.
Proof. apply handleSubmit_success. Qed.

Lemma successful_submission_witness :
  fst (handleSubmit answering_world stored_state)
  = mkState ({| id := lit "1700000000000";
                timestamp := whole 1700000000000;
                image := lit "data:image/jpeg;base64,";
                macros := macros_of 540 30 60 20;
                rawText := sample_answer |} :: meals stored_state)
            false None None None.
Proof.
  rewrite (successful_submission answering_world stored_state sample_file
             (lit "key") sample_answer 1200 800);
    [| reflexivity..].
  by vm_compute.
Defined.

(** ** Totals follow the collection *)

Lemma parseMacros_of_template c p cb f :
  all_digits c = true → c ≠ [] → all_digits p = true → p ≠ [] →
  all_digits cb = true → cb ≠ [] → all_digits f = true → f ≠ [] →
  (digits_value c <= 2 ^ 53)%N → (digits_value p <= 2 ^ 53)%N →
  (digits_value cb <= 2 ^ 53)%N → (digits_value f <= 2 ^ 53)%N →
  parseMacros (template c p cb f)
  = macros_of (digits_value c) (digits_value p) (digits_value cb)
              (digits_value f).
Proof.
  intros. apply Macros_ext. intros fd.
  assert (proj fd (parseMacros (template c p cb f))
          = getVal (template c p cb f) (pattern_of fd)) as -> by (by destruct fd).
  rewrite getVal_template by done.
  destruct fd; cbn [proj macros_of calories protein carbs fat];
    by apply of_N_whole.
Qed.

Lemma field_sum_insert f m ms n s :
  f (macros m) = whole n → field_sum f ms = Some s →
  field_sum f (m :: ms) = Some (n + s)%N.
Proof.
  intros Hn Hs. cbn [field_sum foldr]. fold (field_sum f ms).
  rewrite Hn, Hs. unfold whole, whole_of.
  destruct (Z.leb_spec 0 (Z.of_N n)); [|lia]. by rewrite N2Z.id.
Qed.

(** X8: when a submission succeeds and the model's answer is the
    template around four digit strings, the totals of the collection
    grow by exactly the four numbers, provided the collection held
    whole numbers and no sum passes 2^53. *)
Theorem template_answer_adds_to_totals (w : World) (st : State) (f : File)
    (key c p cb fa : jsstring) (img_width img_height c0 p0 cb0 f0 : N) :
  file st = Some f → reachable w = true →
  api_key w = Some key → truthy key = true →
  generateContent w f = Some (template c p cb fa) →
  decode w f = Some (img_width, img_height) → context2d w = true →
  all_digits c = true → c ≠ [] → all_digits p = true → p ≠ [] →
  all_digits cb = true → cb ≠ [] → all_digits fa = true → fa ≠ [] →
  field_sum calories (meals st) = Some c0 →
  field_sum protein (meals st) = Some p0 →
  field_sum carbs (meals st) = Some cb0 →
  field_sum fat (meals st) = Some f0 →
  (digits_value c + c0 <= 2 ^ 53)%N → (digits_value p + p0 <= 2 ^ 53)%N →
  (digits_value cb + cb0 <= 2 ^ 53)%N → (digits_value fa + f0 <= 2 ^ 53)%N →
  totalMacros (meals (fst (handleSubmit w st)))
  = macros_of (digits_value c + c0) (digits_value p + p0)
              (digits_value cb + cb0) (digits_value fa + f0).
Proof.
  intros Hf Hr Hk Ht Hg Hd Hctx ? ? ? ? ? ? ? ? Hc0 Hp0 Hcb0 Hf0 ? ? ? ?.
  rewrite (handleSubmit_success w st f key _ img_width img_height)
    by done.
  cbn [meals]. rewrite parseMacros_of_template by (done || lia).
  apply totalMacros_whole; try done; by apply field_sum_insert.
Qed.

Lemma template_answer_adds_to_totals_witness :
  totalMacros (meals (fst (handleSubmit answering_world stored_state)))
  = macros_of 560 34 65 26.
Proof.
  apply (template_answer_adds_to_totals answering_world stored_state
           sample_file (lit "key") (lit "540") (lit "30") (lit "60")
           (lit "20") 1200 800 20 4 5 6);
    try reflexivity; try discriminate; by vm_compute.
Defined.

(** X9: in a collection of whole-number macros with sums within 2^53
    and identifiers all different, deleting a record lowers each total
    by exactly that record's value. *)
Theorem totals_after_delete (ms : list Meal) (m : Meal) (c p cb f : N) :
  NoDup (map id ms) → m ∈ ms →
  field_sum calories ms = Some c → field_sum protein ms = Some p →
  field_sum carbs ms = Some cb → field_sum fat ms = Some f →
  (c <= 2 ^ 53)%N → (p <= 2 ^ 53)%N → (cb <= 2 ^ 53)%N → (f <= 2 ^ 53)%N →
  ∃ c' p' cb' f',
    macros m = macros_of c' p' cb' f'
    ∧ (c' <= c)%N ∧ (p' <= p)%N ∧ (cb' <= cb)%N ∧ (f' <= f)%N
    ∧ totalMacros (deleteMeal (id m) ms)
      = macros_of (c - c') (p - p') (cb - cb') (f - f').
Proof.
  intros Hnd Hin Hc Hp Hcb Hf ? ? ? ?.
  destruct (deleteMeal_split ms m Hnd Hin) as (a & b & -> & Hdel).
  rewrite Hdel.
  assert (∀ g s, field_sum g (a ++ m :: b) = Some s →
            ∃ n s', g (macros m) = whole n ∧ field_sum g (a ++ b) = Some s'
                    ∧ s = (n + s')%N) as Hsplit.
  { intros g s Hs. apply field_sum_cons.
    rewrite <- Hs. apply field_sum_perm. by rewrite Permutation_middle. }
  apply Hsplit in Hc as (c' & c'' & Hc1 & Hc2 & ->).
  apply Hsplit in Hp as (p' & p'' & Hp1 & Hp2 & ->).
  apply Hsplit in Hcb as (cb' & cb'' & Hcb1 & Hcb2 & ->).
  apply Hsplit in Hf as (f' & f'' & Hf1 & Hf2 & ->).
  exists c', p', cb', f'. split_and!; try lia.
  - apply Macros_ext. by intros [].
  - replace (c' + c'' - c')%N with c'' by lia.
    replace (p' + p'' - p')%N with p'' by lia.
    replace (cb' + cb'' - cb')%N with cb'' by lia.
    replace (f' + f'' - f')%N with f'' by lia.
    apply totalMacros_whole; (done || lia).
Qed.

Lemma totals_after_delete_witness :
  ∃ c' p' cb' f',
    macros (sample_meal "2" 10 1 2 3) = macros_of c' p' cb' f'
    ∧ (c' <= 570)%N ∧ (p' <= 35)%N ∧ (cb' <= 67)%N ∧ (f' <= 29)%N
    ∧ totalMacros
        (deleteMeal (id (sample_meal "2" 10 1 2 3))
           [sample_meal "3" 540 30 60 20; sample_meal "2" 10 1 2 3;
            sample_meal "1" 20 4 5 6])
      = macros_of (570 - c') (35 - p') (67 - cb') (29 - f').
Proof.
  apply (totals_after_delete
           [sample_meal "3" 540 30 60 20; sample_meal "2" 10 1 2 3;
            sample_meal "1" 20 4 5 6] (sample_meal "2" 10 1 2 3)).
  - refine (bool_decide_unpack _ _). vm_compute. exact I.
  - apply list_elem_of_further, list_elem_of_here.
  - reflexivity.
  - reflexivity.
  - reflexivity.
  - reflexivity.
  - by vm_compute.
  - by vm_compute.
  - by vm_compute.
  - by vm_compute.
Defined.

(** ** Selecting, submitting and deleting in turn *)

(** X10: selecting a file replaces the selection and its preview and
    clears the error, leaving the collection and the busy flag alone;
    closing the dialog without a file changes nothing, not even an
    error that is shown; and a submission after a selection sends the
    file selected last, whatever was selected or had failed before. *)
Theorem selection_then_submission (st : State) (f : File) (objectUrl : jsstring)
    (w : World) :
  handleFileChange None st = st
  ∧ file (handleFileChange (Some (f, objectUrl)) st) = Some f
  ∧ preview (handleFileChange (Some (f, objectUrl)) st) = Some objectUrl
  ∧ error (handleFileChange (Some (f, objectUrl)) st) = None
  ∧ meals (handleFileChange (Some (f, objectUrl)) st) = meals st
  ∧ loading (handleFileChange (Some (f, objectUrl)) st) = loading st
  ∧ snd (handleSubmit w (handleFileChange (Some (f, objectUrl)) st)) = [f]
  ∧ ∀ g u, snd (handleSubmit w
                  (handleFileChange (Some (f, objectUrl))
                     (handleFileChange (Some (g, u)) st))) = [f].
Proof.
  assert (∀ st', snd (handleSubmit w (handleFileChange (Some (f, objectUrl)) st'))
                 = [f]) as Hsend.
  { intros st'. unfold handleSubmit, handleFileChange. cbn [file].
    destruct (reachable w); [|done].
    destruct (resp_error _) as [[|? ?]|]; cbv beta iota zeta;
      by destruct (compressImage w f). }
  split_and!; done.
Qed.

Lemma handle_invariant st e :
  (loading st = false
   ∧ (file st = None ↔ preview st = None)
   ∧ (error st ≠ None → shows_retry st = true ∧ file st ≠ None)) →
  loading (handle st e) = false
  ∧ (file (handle st e) = None ↔ preview (handle st e) = None)
  ∧ (error (handle st e) ≠ None
     → shows_retry (handle st e) = true ∧ file (handle st e) ≠ None).
Proof.
  intros (Hl & Hfp & Herr). destruct e as [[[f u]|]|w|i]; cbn [handle].
  - unfold handleFileChange. cbn [loading file preview error]. split_and!; try done.
  - done.
  - unfold handleSubmit. destruct (file st) as [f|] eqn:Hf;
      [|cbn [fst]; rewrite Hf; by split_and!].
    assert (preview st ≠ None) as Hp by (intros Hp; by apply Hfp in Hp).
    unfold shows_retry.
    destruct (reachable w);
      [destruct (resp_error _) as [[|? ?]|]; cbv beta iota zeta;
       destruct (compressImage w f)|];
      cbn [fst loading file preview error]; rewrite ?Hf;
      (split_and!; [done | by split | done]).
  - cbn [loading file preview error]. unfold shows_retry in *.
    cbn [error]. done.
Qed.

(** X11: in every state the page reaches from a loaded collection, with
    each event handled to its end before the next, the busy flag is
    off; a file is selected exactly when there is a preview; and when
    an error is set its message is not empty, so that the error box and
    the retry button show, and a file is still selected for the retry
    to send. *)
Theorem page_invariants (ms : list Meal) (history : list event) :
  loading (page ms history) = false
  ∧ (file (page ms history) = None ↔ preview (page ms history) = None)
  ∧ (error (page ms history) ≠ None
     → shows_retry (page ms history) = true ∧ file (page ms history) ≠ None).
Proof.
  unfold page.
  assert (loading (mounted ms) = false
          ∧ (file (mounted ms) = None ↔ preview (mounted ms) = None)
          ∧ (error (mounted ms) ≠ None
             → shows_retry (mounted ms) = true ∧ file (mounted ms) ≠ None))
    as Hinit by done.
  revert Hinit. generalize (mounted ms) as st.
  induction history as [|e h IH]; intros st Hst; [done|].
  cbn [fold_left]. by apply IH, handle_invariant.
Qed.

Lemma handleSubmit_sends w st :
  snd (handleSubmit w st) = match file st with Some f => [f] | None => [] end
  ∧ (file (fst (handleSubmit w st)) = None
     ∨ file (fst (handleSubmit w st)) = file st).
Proof.
  unfold handleSubmit. destruct (file st) as [f|] eqn:Hf; [|by split; [|left]].
  destruct (reachable w); [|by split; [|right]].
  destruct (resp_error _) as [[|? ?]|]; cbv beta iota zeta;
    destruct (compressImage w f); cbn [fst snd file];
    (split; [done | (by left) || (by right)]).
Qed.

Lemma sent_selected (P : File → Prop) history : ∀ st earlier,
  (∀ f, file st = Some f → P f) →
  (∀ f u, Select (Some (f, u)) ∈ history → P f) →
  Forall P earlier → Forall P (sent st history earlier).
Proof.
  induction history as [|e h IH]; intros st earlier Hst Hsel Hearlier; [done|].
  cbn [sent]. apply IH.
  - intros f. destruct e as [[[g u]|]|w|i]; cbn [handle handleFileChange file].
    + intros [= <-]. apply (Hsel g u), list_elem_of_here.
    + apply Hst.
    + destruct (handleSubmit_sends w st) as [_ [Hn | Hk]].
      * by rewrite Hn.
      * rewrite Hk. apply Hst.
    + apply Hst.
  - intros f u Hin. apply (Hsel f u). by apply list_elem_of_further.
  - destruct e as [sel|w|i]; try done.
    destruct (handleSubmit_sends w st) as [-> _].
    destruct (file st) as [f|] eqn:Hf; [|done].
    apply Forall_cons. split; [by apply Hst | done].
Qed.

(** X12: the page sends for analysis only files the user selected:
    whatever the history of selections, submissions, retries and
    deletions from a freshly loaded page, each file sent was selected
    by an earlier event of that history; and there are no more sends
    than submissions. *)
Theorem only_selected_files_are_sent (ms : list Meal) (history : list event) :
  Forall (λ f, ∃ objectUrl, Select (Some (f, objectUrl)) ∈ history)
         (sent (mounted ms) history [])
  ∧ (length (sent (mounted ms) history [])
     <= length (List.filter is_submit history))%nat.
Proof.
  split.
  - apply sent_selected; [done | by eauto | done].
  - assert (∀ st earlier,
              (length (sent st history earlier)
               <= length (List.filter is_submit history)
                  + length earlier)%nat) as H.
    { induction history as [|e h IH]; intros st earlier; [done|].
      cbn [sent]. etrans; [apply IH|].
      destruct e as [sel|w|i].
      - cbn [List.filter is_submit]. lia.
      - cbn [List.filter is_submit length].
        destruct (handleSubmit_sends w st) as [-> _].
        destruct (file st); cbn [length app]; lia.
      - cbn [List.filter is_submit]. lia. }
    specialize (H (mounted ms) []). cbn [length] in H. lia.
Qed.

(** ** Totals are never [NaN] *)

Lemma reduce_nonneg k : ∀ z, 0 <= z → nonneg (reduce z k) = true.
Proof.
  induction k as [|k IH]; intros z Hz; cbn [reduce nonneg].
  - by apply Z.leb_le.
  - destruct (Z.even z); [|by apply Z.leb_le].
    apply IH. by apply Z.div_pos.
Qed.

Lemma rnd_pos_nonneg p q : 0 < p → 0 < q → nonneg (rnd_pos p q) = true.
Proof.
  intros Hp Hq. unfold rnd_pos.
  set (u := Z.max (ilog2_ratio p q - 52) (-1074)).
  set (num := p * pow2 (- u)). set (den := q * pow2 u).
  assert (0 < den) as Hden by (apply Z.mul_pos_pos; [done | apply pow2_pos]).
  assert (0 <= num) as Hnum.
  { apply Z.mul_nonneg_nonneg; [lia|]. pose proof (pow2_pos (- u)). lia. }
  assert (0 <= num / den) as Hm by (by apply Z.div_pos).
  set (m' := match 2 * (num mod den) ?= den with
             | Eq => if Z.even (num / den) then num / den else num / den + 1
             | Lt => num / den
             | Gt => num / den + 1
             end).
  assert (0 <= m') as Hm'.
  { unfold m'. destruct (_ ?= _); [destruct (Z.even _)|..]; lia. }
  destruct (_ <=? _); [done|]. unfold normalise.
  destruct (0 <=? u).
  - cbn [nonneg]. apply Z.leb_le. apply Z.mul_nonneg_nonneg; [done|].
    apply Z.pow_nonneg. lia.
  - by apply reduce_nonneg.
Qed.

Lemma rnd_nonneg p q : 0 <= p → 0 < q → nonneg (rnd p q) = true.
Proof.
  intros Hp Hq. destruct p as [|p|p]; [done | by apply rnd_pos_nonneg | lia].
Qed.

Lemma of_N_nonneg n : nonneg (of_N n) = true.
Proof. apply rnd_nonneg; lia. Qed.

Lemma num_add_nonneg x y :
  nonneg x = true → nonneg y = true → nonneg (num_add x y) = true.
Proof.
  destruct x as [z1 k1| | | |], y as [z2 k2| | | |]; try done.
  cbn [nonneg num_add]. intros H1%Z.leb_le H2%Z.leb_le.
  apply rnd_nonneg.
  - apply Z.add_nonneg_nonneg; apply Z.mul_nonneg_nonneg; try done;
      apply Z.pow_nonneg; lia.
  - apply Z.pow_pos_nonneg; lia.
Qed.

Lemma parseMacros_nonneg text fd : nonneg (proj fd (parseMacros text)) = true.
Proof.
  assert (proj fd (parseMacros text) = getVal text (pattern_of fd)) as ->
    by (by destruct fd).
  destruct (getVal_whole text (pattern_of fd)) as [n ->]. apply of_N_nonneg.
Qed.

Lemma totalMacros_nonneg ms fd :
  Forall (λ m, ∀ fd, nonneg (proj fd (macros m)) = true) ms →
  nonneg (proj fd (totalMacros ms)) = true.
Proof.
  unfold totalMacros.
  assert (nonneg (proj fd no_macros) = true) as Hacc by (by destruct fd).
  revert Hacc. generalize no_macros as acc.
  induction ms as [|m ms IH]; intros acc Hacc Hms; [done|].
  apply Forall_cons in Hms as [Hm Hms]. cbn [fold_left].
  apply IH; [|done]. rewrite proj_add_meal. by apply num_add_nonneg.
Qed.

Lemma handle_nonneg st e :
  Forall (λ m, ∀ fd, nonneg (proj fd (macros m)) = true) (meals st) →
  Forall (λ m, ∀ fd, nonneg (proj fd (macros m)) = true) (meals (handle st e)).
Proof.
  intros Hst. destruct e as [[[f u]|]|w|i]; cbn [handle handleFileChange meals];
    try done.
  - unfold handleSubmit. destruct (file st) as [f|]; [|done].
    destruct (reachable w); [|done].
    destruct (resp_error _) as [[|? ?]|]; cbv beta iota zeta;
      destruct (compressImage w f); cbn [fst meals insertMeal]; try done;
      (apply Forall_cons; split; [|done]); intros fd; cbn [macros];
      apply parseMacros_nonneg.
  - rewrite Forall_forall in *. intros m Hm. apply Hst.
    unfold deleteMeal in Hm. apply list_elem_of_filter in Hm. tauto.
Qed.

(** X13: the totals are never [NaN] and never negative.  This holds
    for every collection whose macro values are not, in particular for
    what [parseMacros] returns for any text; so on a page that loaded
    such a collection (an empty one for instance) no history of
    selections, submissions and deletions leads to a total that is
    [NaN] or negative, whatever the model answers. *)
Theorem totals_never_NaN (ms : list Meal) (history : list event) (fd : field) :
  Forall (λ m, ∀ fd, nonneg (proj fd (macros m)) = true) ms →
  nonneg (proj fd (totalMacros ms)) = true
  ∧ nonneg (proj fd (totalMacros (meals (page ms history)))) = true
  ∧ ∀ text, nonneg (proj fd (parseMacros text)) = true.
Proof.
  intros Hms. split_and!.
  - by apply totalMacros_nonneg.
  - apply totalMacros_nonneg. unfold page.
    change ms with (meals (mounted ms)) in Hms.
    revert Hms. generalize (mounted ms) as st.
    induction history as [|e h IH]; intros st Hst; [done|].
    cbn [fold_left]. by apply IH, handle_nonneg.
  - intros text. apply parseMacros_nonneg.
Qed.


Lemma totals_never_NaN_witness :
  nonneg (proj Calories (totalMacros [overflowed_meal])) = true
  ∧ nonneg (proj Calories
              (totalMacros
                 (meals (page [overflowed_meal]
                           [Select (Some (sample_file, lit "blob:preview"));
                            Submit answering_world])))) = true.
Proof.
  destruct (totals_never_NaN [overflowed_meal]
              [Select (Some (sample_file, lit "blob:preview"));
               Submit answering_world] Calories) as (H1 & H2 & _).
  - apply Forall_cons. split; [|apply Forall_nil_2].
    intros fd. destruct fd; reflexivity.
  - split; [exact H1 | exact H2].
Defined.

(** ** The canvas at the edges *)

Lemma canvas_width w h : fst (canvas_size w h) = 300%N.
Proof. reflexivity. Qed.

(** X14: a picture of width 0 or of height 0 gets a canvas 300 wide
    and 0 high: the division by a zero width gives an infinite scale
    (or [NaN] when the height is 0 too), and the canvas takes every
    height that is not a finite number as 0. *)
Theorem canvas_size_degenerate (w h : N) :
  canvas_size 0 h = (300, 0)%N ∧ canvas_size w 0 = (300, 0)%N.
Proof.
  split.
  - apply injective_projections; [apply canvas_width|]. unfold canvas_size.
    change (num_div (of_N MAX_WIDTH) (of_N 0)) with PInf. cbn [snd].
    destruct (of_N h) as [[|z|z] k| | | |]; reflexivity.
  - apply injective_projections; [apply canvas_width|]. unfold canvas_size.
    change (of_N 0) with (Fin 0 0). cbn [snd].
    destruct (num_div (of_N MAX_WIDTH) (of_N w)) as [[|z|z] k| | | |];
      reflexivity.
Qed.

(** X15: a picture more than 300 times as wide as it is high gets a
    canvas of height 0, so nothing of it is drawn. *)
Theorem canvas_size_very_wide (w h : N) :
  (0 < h)%N → (300 * h < w)%N → (w < 2 ^ 32)%N →
  canvas_size w h = (300, 0)%N.
Proof.
  intros Hh Hwide Hw.
  destruct (canvas_height w h) as (H & HH & Hlo & _); [lia | lia | lia |].
  apply injective_projections; [apply canvas_width|]. cbn [snd].
  rewrite HH. destruct (N.eq_dec H 0%N) as [|Hne]; [done|].
  exfalso. assert (1 * w <= H * w)%N by (apply N.mul_le_mono_r; lia). lia.
Qed.

Lemma canvas_size_very_wide_witness : canvas_size 4000 13 = (300, 0)%N.
Proof. apply (canvas_size_very_wide 4000 13); by vm_compute. Defined.

Lemma reduce_shift (a : nat) : ∀ p j,
  reduce (p * 2 ^ Z.of_nat a) (a + j) = reduce p j.
Proof.
  induction a as [|a IH]; intros p j.
  - cbn [Nat.add Z.of_nat]. by rewrite Z.pow_0_r, Z.mul_1_r.
  - cbn [Nat.add reduce]. rewrite Nat2Z.inj_succ, Z.pow_succ_r by lia.
    replace (p * (2 * 2 ^ Z.of_nat a)) with (2 * (p * 2 ^ Z.of_nat a)) by lia.
    rewrite Z.even_mul. cbn [Z.even orb].
    replace (2 * (p * 2 ^ Z.of_nat a)) with (p * 2 ^ Z.of_nat a * 2) by lia.
    rewrite Z.div_mul by lia. apply IH.
Qed.

(** A quotient by a power of two that fits the significand is not
    rounded. *)
Lemma rnd_pos_dyadic p (j : nat) :
  0 < p < 2 ^ 53 → (j <= 1000)%nat → rnd_pos p (2 ^ Z.of_nat j) = reduce p j.
Proof.
  intros [Hp Hlt] Hj.
  pose proof (Z.log2_nonneg p) as Hl.
  assert (Z.log2 p < 53) as Hl53 by (apply Z.log2_lt_pow2; lia).
  destruct (Z.log2_spec p Hp) as [Hlo Hhi].
  assert (0 < 2 ^ Z.of_nat j) as Hq by (apply Z.pow_pos_nonneg; lia).
  assert (ilog2_ratio p (2 ^ Z.of_nat j) = Z.log2 p - Z.of_nat j) as Hlog.
  { apply ilog2_ratio_unique; [done | done | |].
    - rewrite (ge_pow2_split _ _ _ (Z.log2 p) (Z.of_nat j)) by lia.
      apply Z.leb_le. rewrite Z.mul_comm. by apply Z.mul_le_mono_nonneg_r; [lia|].
    - rewrite (ge_pow2_split _ _ _ (Z.log2 p + 1) (Z.of_nat j)) by lia.
      apply Z.leb_gt. rewrite (Z.mul_comm (2 ^ Z.of_nat j)).
      rewrite <- Z.add_1_r in Hhi.
      by apply Z.mul_lt_mono_pos_r. }
  unfold rnd_pos. rewrite Hlog, Z.max_l by lia.
  remember (Z.log2 p - Z.of_nat j - 52) as u eqn:Hu.
  rewrite (pow2_nonpos_eq u), (pow2_nonneg_eq (- u)) by lia.
  rewrite !Z.mul_1_r.
  remember (Z.to_nat (52 - Z.log2 p)) as a eqn:Ha.
  assert (- u = Z.of_nat a + Z.of_nat j) as Hua by lia.
  rewrite Hua, Z.pow_add_r by lia. rewrite !(Z.mul_assoc p).
  rewrite Z.div_mul, Z.mod_mul by lia.
  assert ((2 * 0 ?= 2 ^ Z.of_nat j) = Lt) as -> by (apply Z.compare_lt_iff; lia).
  assert (0 < 2 ^ Z.of_nat a) as Hpa by (apply Z.pow_pos_nonneg; lia).
  assert (p * 2 ^ Z.of_nat a < 2 ^ 53) as Hm.
  { replace 53 with (Z.succ (Z.log2 p) + Z.of_nat a) by lia.
    rewrite Z.pow_add_r by lia. by apply Z.mul_lt_mono_pos_r. }
  assert (2 ^ 53 < 2 ^ 1024) as Hbig by (apply Z.pow_lt_mono_r; lia).
  match goal with
  | |- context [?x <=? ?y] => destruct (Z.leb_spec x y) as [Hle|_]
  end.
  - exfalso.
    assert (2 ^ 1024 * 1 <= 2 ^ 1024 * (2 ^ Z.of_nat a * 2 ^ Z.of_nat j))
      by (apply Z.mul_le_mono_nonneg_l; lia).
    lia.
  - unfold normalise. destruct (Z.leb_spec 0 u) as [Hu0|Hu0].
    + assert (a = 0%nat) as -> by lia. assert (j = 0%nat) as -> by lia.
      assert (u = 0) as -> by lia.
      cbn [Z.of_nat reduce]. by rewrite !Z.pow_0_r, !Z.mul_1_r.
    + replace (Z.to_nat (- u)) with (a + j)%nat by lia. apply reduce_shift.
Qed.

(** X16: for a picture whose width is a divisor of 300 times a power
    of two (100, 150, 300, 600, 1200, 2400, ...) the scale is a binary
    fraction and nothing is rounded: the canvas height is the exactly
    scaled height [300 * h / w] with its fraction dropped. *)
Theorem canvas_size_exact (w h d k : N) (j : nat) :
  (d * k = 300)%N → (w = d * 2 ^ N.of_nat j)%N → (w < 2 ^ 32)%N →
  (0 < h < 2 ^ 32)%N → (300 * h / w <= 2147483647)%N →
  canvas_size w h = (300, 300 * h / w)%N.
Proof.
  intros Hdk Hw Hw32 Hh Hfit.
  apply injective_projections; [apply canvas_width|].
  unfold canvas_size, MAX_WIDTH. cbn [snd].
  change (2 ^ 32)%N with 4294967296%N in *.
  assert (Z.of_N w = Z.of_N d * 2 ^ Z.of_nat j) as HW
    by (by rewrite Hw, N2Z.inj_mul, N2Z.inj_pow, nat_N_Z).
  assert (Z.of_N d * Z.of_N k = 300) as HDK by lia.
  assert (Z.of_N (300 * h / w) = 300 * Z.of_N h / Z.of_N w) as Hquot
    by (by rewrite N2Z.inj_div, N2Z.inj_mul).
  assert (0 < 2 ^ Z.of_nat j) as Hpj by (apply Z.pow_pos_nonneg; lia).
  rewrite !of_N_whole by (change (2 ^ 53)%N with 9007199254740992%N; lia).
  unfold whole. change (Z.of_N 300) with 300.
  remember (Z.of_N w) as W eqn:HeqW. remember (Z.of_N h) as H' eqn:HeqH.
  remember (Z.of_N d) as D eqn:HeqD. remember (Z.of_N k) as K eqn:HeqK.
  remember (2 ^ Z.of_nat j) as P eqn:HeqP.
  assert (0 < D) as HD by nia. assert (0 < K) as HK by nia.
  assert (K <= 300) as HK300 by nia.
  assert (P <= W) as HPW by nia.
  assert (j <= 1000)%nat as Hj.
  { apply Nat2Z.inj_le. apply Z.lt_le_incl.
    apply (Z.pow_lt_mono_r_iff 2); [lia | lia |].
    rewrite <- HeqP. change (2 ^ Z.of_nat 1000) with (2 ^ 1000).
    assert (4294967296 < 2 ^ 1000) by (by vm_compute). lia. }
  assert (0 < W) as HW0 by nia.
  rewrite num_div_whole by lia.
  assert (rnd_pos 300 W = reduce K j) as ->.
  { rewrite <- HDK, HW, (Z.mul_comm D K), (Z.mul_comm D P).
    rewrite rnd_pos_scale by lia. rewrite HeqP. apply rnd_pos_dyadic; [|done].
    change (2 ^ 53) with 9007199254740992. lia. }
  destruct (reduce_value j K) as (z & k' & -> & Hval & Hk' & Hz).
  specialize (Hz HK). rewrite <- HeqP in Hval.
  assert (0 < 2 ^ Z.of_nat k') as Hpk by (apply Z.pow_pos_nonneg; lia).
  remember (2 ^ Z.of_nat k') as Q eqn:HeqQ.
  assert (∃ R, 0 < R ∧ P = Q * R) as (R & HR & HPQ).
  { exists (2 ^ (Z.of_nat j - Z.of_nat k')). split.
    - apply Z.pow_pos_nonneg; lia.
    - rewrite HeqP, HeqQ, <- Z.pow_add_r by lia. f_equal. lia. }
  assert (K = z * R) as HKz by nia.
  assert (z <= 300) as Hz300 by nia.
  assert (0 < H' < 4294967296) as HH by lia.
  rewrite num_mul_whole by lia. rewrite <- HeqQ.
  assert (0 < H' * z) as Hhz by nia.
  assert (H' * z < 2 ^ 53) as Hhz53.
  { change (2 ^ 53) with 9007199254740992.
    assert (H' * z <= 4294967296 * 300) by (apply Z.mul_le_mono_nonneg; lia).
    lia. }
  rewrite HeqQ, rnd_pos_dyadic by (done || lia).
  destruct (reduce_value k' (H' * z)) as (z2 & k2 & Hred & _ & _ & Hz2).
  specialize (Hz2 Hhz). apply reduce_floor in Hred as Hfloor.
  rewrite Hred. rewrite <- HeqQ in Hfloor.
  assert ((300 * H') / W = (H' * z) / Q) as Hsame.
  { rewrite <- HDK, HW, HPQ, HKz.
    replace (D * (z * R) * H') with (H' * z * (D * R)) by ring.
    replace (D * (Q * R)) with (Q * (D * R)) by ring.
    apply Z.div_mul_cancel_r; nia. }
  rewrite set_canvas_dim_floor; rewrite ?Hfloor, <- ?Hsame, <- ?Hquot; try lia.
  by rewrite N2Z.id.
Qed.

Lemma canvas_size_exact_witness : canvas_size 2400 1001 = (300, 125)%N.
Proof.
  apply (canvas_size_exact 2400 1001 75 4 5); by vm_compute.
Defined.

(** ** Amounts that are not whole numbers *)

Lemma digits_then_stop x sf ds c rest :
  is_digit x = false → all_digits ds = true → is_digit c = false → c ≠ x →
  digits_then (x :: sf) (ds ++ c :: rest) = None.
Proof.
  intros Hx Hds Hc Hcx. induction ds as [|d ds IH].
  - cbn [app]. by rewrite digits_then_cons, Hc.
  - cbn [all_digits forallb] in Hds. apply andb_true_iff in Hds as [Hd Hds].
    cbn [app]. rewrite digits_then_cons, Hd, IH by done.
    unfold starts_with. destruct ds as [|d' ds]; cbn [app strip_prefix].
    + destruct (N.eqb_spec x c) as [->|]; [done | done].
    + cbn [all_digits forallb] in Hds. apply andb_true_iff in Hds as [Hd' _].
      destruct (N.eqb_spec x d') as [->|]; [congruence | done].
Qed.

Lemma exec_at_stop re x sf ds c rest :
  suf re = x :: sf → is_digit x = false → all_digits ds = true →
  is_digit c = false → c ≠ x →
  exec_at re (pre re ++ ds ++ c :: rest) = None.
Proof.
  intros Hsuf Hx Hds Hc Hcx. unfold exec_at.
  rewrite strip_prefix_app, Hsuf. by apply digits_then_stop.
Qed.

Ltac stop re ds :=
  rewrite exec_cons_None;
  [| let sfx := eval cbv in (suf re) in
     match sfx with
     | ?x :: ?sf =>
         eapply (exec_at_stop re x sf ds);
         [reflexivity | reflexivity | eassumption | reflexivity | done]
     end ].

(** X17: an amount written with a decimal point is not read as its
    whole part: in the template, a field whose number is digits, a
    point and digits is read as 0, because after the digits the
    pattern wants its closing text and finds the point. *)
Theorem decimal_amount_reads_as_zero (a b c p cb f : jsstring) :
  all_digits a = true → all_digits b = true →
  all_digits c = true → all_digits p = true →
  all_digits cb = true → all_digits f = true →
  calories (parseMacros (template (a ++ 46%N :: b) p cb f)) = zero
  ∧ protein (parseMacros (template c (a ++ 46%N :: b) cb f)) = zero
  ∧ carbs (parseMacros (template c p (a ++ 46%N :: b) f)) = zero
  ∧ fat (parseMacros (template c p cb (a ++ 46%N :: b))) = zero.
Proof.
  intros Ha Hb Hc Hp Hcb Hf.
  unfold parseMacros. cbn [calories protein carbs fat]. unfold getVal.
  split_and!.
  - assert (exec re_calories (template (a ++ 46%N :: b) p cb f) = None) as ->;
      [|done].
    unfold template. rewrite <- !app_assoc. norm_text. skip_to_match.
    stop re_calories a. skip_to_match. reflexivity.
  - assert (exec re_protein (template c (a ++ 46%N :: b) cb f) = None) as ->;
      [|done].
    unfold template. rewrite <- !app_assoc. norm_text. skip_to_match.
    stop re_protein a. skip_to_match. reflexivity.
  - assert (exec re_carbs (template c p (a ++ 46%N :: b) f) = None) as ->;
      [|done].
    unfold template. rewrite <- !app_assoc. norm_text. skip_to_match.
    stop re_carbs a. skip_to_match. reflexivity.
  - assert (exec re_fat (template c p cb (a ++ 46%N :: b)) = None) as ->;
      [|done].
    unfold template. rewrite <- !app_assoc. norm_text. skip_to_match.
    stop re_fat a. skip_to_match. reflexivity.
Qed.

Lemma decimal_amount_reads_as_zero_witness :
  protein (parseMacros (template (lit "540") (lit "30.5") (lit "60") (lit "20")))
  = zero.
Proof.
  destruct (decimal_amount_reads_as_zero (lit "30") (lit "5") (lit "540")
              (lit "30") (lit "60") (lit "20")) as (_ & H & _);
    [reflexivity.. | exact H].
Defined.

(** ** The note under a record *)

Lemma cut_skip s : ∀ t,
  forallb (λ c, negb (is_line_terminator c)) s = true →
  cut true (s ++ t) = cut true t.
Proof.
  induction s as [|c s IH]; intros t; [done|].
  cbn [forallb app cut]. intros H. apply andb_true_iff in H as [Hc Hs].
  rewrite Hc. cbn [andb]. by apply IH.
Qed.

Lemma all_digits_no_terminator ds :
  all_digits ds = true → forallb (λ c, negb (is_line_terminator c)) ds = true.
Proof.
  induction ds as [|d ds IH]; [done|]. cbn [all_digits forallb].
  intros H. apply andb_true_iff in H as [Hd Hds].
  rewrite IH by done. rewrite andb_true_r.
  unfold is_digit in Hd. apply andb_true_iff in Hd as [H1 H2].
  apply N.leb_le in H1, H2. unfold is_line_terminator. cbn [existsb].
  repeat match goal with
         | |- context [(d =? ?n)%N] => destruct (N.eqb_spec d n); [lia|]
         end. done.
Qed.

Lemma cut_marker b x s t :
  marker_at (x :: s ++ t) = true →
  forallb (λ c, negb (is_line_terminator c)) s = true →
  cut b (x :: s ++ t) = cut true t.
Proof.
  intros Hm Hs. cbn [cut]. rewrite Hm.
  destruct (b && negb (is_line_terminator x)); by apply cut_skip.
Qed.

Lemma cut_terminator b c t :
  is_line_terminator c = true → marker_at (c :: t) = false →
  cut b (c :: t) = c :: cut false t.
Proof. intros Hc Hm. cbn [cut]. by rewrite Hc, Hm, andb_false_r. Qed.

(** X18: an answer that is the template and nothing more leaves no
    note at all: both of its lines are cut from their markers on, and
    the line break between them is trimmed away.  This holds for any
    four strings without line breaks in the template's places, digit
    strings among them. *)
Theorem note_of_template_is_empty (c p cb f : jsstring) :
  forallb (λ x, negb (is_line_terminator x)) (c ++ p ++ cb ++ f) = true →
  note (template c p cb f) = [].
Proof.
  intros H. rewrite !forallb_app in H.
  apply andb_true_iff in H as [Hc H]. apply andb_true_iff in H as [Hp H].
  apply andb_true_iff in H as [Hcb Hf].
  unfold note, template.
  assert (lit "# " ++ bolt :: lit " " ++ c ++ lit " Calories" ++ 10%N ::
          lit "**Protein:** " ++ p ++ lit "g  |  **Carbs:** " ++ cb ++
          lit "g  |  **Fat:** " ++ f ++ lit "g"
          = 35%N :: (lit " " ++ bolt :: lit " " ++ c ++ lit " Calories") ++ 10%N ::
            42%N :: (lit "*Protein:** " ++ p ++ lit "g  |  **Carbs:** " ++ cb ++
                     lit "g  |  **Fat:** " ++ f ++ lit "g") ++ []) as ->.
  { rewrite app_nil_r. cbn [lit list_ascii_of_string map app].
    rewrite <- !app_assoc. reflexivity. }
  rewrite cut_marker; [| reflexivity |].
  - rewrite cut_terminator by reflexivity.
    rewrite cut_marker; [done | reflexivity |].
    rewrite !forallb_app, Hp, Hcb, Hf. reflexivity.
  - change (lit " " ++ bolt :: lit " " ++ c ++ lit " Calories")
      with ([32; 9889; 32]%N ++ c ++ lit " Calories").
    rewrite !forallb_app, Hc. reflexivity.
Qed.

Lemma note_of_template_is_empty_witness : note sample_answer = [].
Proof. apply (note_of_template_is_empty (lit "540")). reflexivity. Defined.

Lemma starts_with_cons x m c s :
  starts_with (x :: m) (c :: s) = (x =? c)%N && starts_with m s.
Proof. unfold starts_with. cbn [strip_prefix]. by destruct (x =? c)%N. Qed.

Lemma cut_true_head s :
  match cut true s with
  | [] => True
  | c :: _ => is_line_terminator c = true
  end.
Proof.
  induction s as [|c r IH]; [done|]. cbn [cut andb].
  destruct (is_line_terminator c) eqn:Hc; cbn [negb]; [|done].
  by destruct (marker_at (c :: r)).
Qed.

Lemma starts_with_cut m : ∀ r,
  forallb (λ c, negb (is_line_terminator c)) m = true →
  starts_with m (cut false r) = true → starts_with m r = true.
Proof.
  induction m as [|x m IH]; intros r Hm; [done|].
  cbn [forallb] in Hm. apply andb_true_iff in Hm as [Hx Hm].
  destruct r as [|c r]; [done|]. cbn [cut andb].
  destruct (marker_at (c :: r)).
  - pose proof (cut_true_head r) as Hh.
    destruct (cut true r) as [|t u]; [done|].
    rewrite starts_with_cons. destruct (N.eqb_spec x t) as [->|]; [|done].
    by rewrite Hh in Hx.
  - rewrite !starts_with_cons. intros H. apply andb_true_iff in H as [-> H].
    by rewrite IH.
Qed.

Lemma markers_no_terminator m :
  m ∈ markers → forallb (λ c, negb (is_line_terminator c)) m = true.
Proof.
  unfold markers. rewrite !elem_of_cons, elem_of_nil.
  intros [->|[->|[->|[->|[]]]]]; reflexivity.
Qed.

Lemma marker_at_cut s : ∀ b (i : nat), marker_at (drop i (cut b s)) = false.
Proof.
  induction s as [|c r IH]; intros b i; [by destruct i|].
  cbn [cut]. destruct (b && negb (is_line_terminator c)); [apply IH|].
  destruct (marker_at (c :: r)) eqn:Hm; [apply IH|].
  destruct i as [|i]; [|apply IH]. cbn [drop].
  apply not_true_is_false. intros H. apply not_true_iff_false in Hm.
  apply Hm. unfold marker_at in *. apply existsb_exists in H as (m & Hin & H).
  apply existsb_exists. exists m. split; [done|].
  apply list_elem_of_In, markers_no_terminator in Hin.
  destruct m as [|x m]; [done|]. cbn [forallb] in Hin.
  apply andb_true_iff in Hin as [_ Hin].
  rewrite starts_with_cons in *. apply andb_true_iff in H as [-> H].
  by rewrite (starts_with_cut m r).
Qed.

Lemma skip_white_drop s : ∃ n : nat, skip_white s = drop n s.
Proof.
  induction s as [|c s [n IH]]; [by exists 0%nat|]. cbn [skip_white].
  destruct (is_white c); [by exists (S n) | by exists 0%nat].
Qed.

Lemma skip_white_head s c r : skip_white s = c :: r → is_white c = false.
Proof.
  induction s as [|x s IH]; [done|]. cbn [skip_white].
  destruct (is_white x) eqn:Hx; [done|]. by intros [= <- _].
Qed.

Lemma skip_white_length s : (length (skip_white s) <= length s)%nat.
Proof.
  destruct (skip_white_drop s) as [n ->]. rewrite length_drop. lia.
Qed.

Lemma trim_segment s : ∃ n k : nat, trim s = take k (drop n s).
Proof.
  unfold trim. destruct (skip_white_drop s) as [n ->].
  destruct (skip_white_drop (rev (drop n s))) as [k ->].
  exists n, (length (drop n s) - k)%nat.
  by rewrite skipn_rev, rev_involutive.
Qed.

Lemma starts_with_take m : ∀ (k : nat) s,
  starts_with m (take k s) = true → starts_with m s = true.
Proof.
  induction m as [|x m IH]; intros k s; [done|].
  destruct k as [|k], s as [|c s]; try done. cbn [take].
  rewrite !starts_with_cons. intros H. apply andb_true_iff in H as [-> H].
  by rewrite (IH k s).
Qed.

Lemma cut_length s : ∀ b, (length (cut b s) <= length s)%nat.
Proof.
  induction s as [|c r IH]; intros b; [done|]. cbn [cut length].
  destruct (b && negb (is_line_terminator c));
    [|destruct (marker_at (c :: r))]; cbn [length];
    try (specialize (IH true); lia). specialize (IH false). lia.
Qed.

(** X19: whatever the stored text, the note shown under a record holds
    none of the four markers at any position, begins and ends with a
    code unit that is not white space, and is no longer than the
    text. *)
Theorem note_has_no_marker (rawText : jsstring) (i : nat) :
  marker_at (drop i (note rawText)) = false
  ∧ (∀ c r, note rawText = c :: r → is_white c = false)
  ∧ (∀ r c, note rawText = r ++ [c] → is_white c = false)
  ∧ (length (note rawText) <= length rawText)%nat.
Proof.
  split_and!.
  - unfold note. destruct (trim_segment (cut false rawText)) as (n & k & ->).
    rewrite skipn_firstn_comm, drop_drop.
    apply not_true_is_false. intros H.
    pose proof (marker_at_cut rawText false (n + i)) as Hcut.
    apply not_true_iff_false in Hcut. apply Hcut.
    unfold marker_at in *. apply existsb_exists in H as (m & Hin & H).
    apply existsb_exists. exists m. split; [done|].
    by apply starts_with_take in H.
  - intros c r. unfold note, trim.
    destruct (skip_white_drop (rev (skip_white (cut false rawText)))) as [k ->].
    rewrite skipn_rev, rev_involutive. intros H.
    apply (skip_white_head (cut false rawText) c
             (drop 1 (skip_white (cut false rawText)))).
    destruct (skip_white (cut false rawText)) as [|x u]; [by destruct (_ - _)%nat|].
    destruct (_ - _)%nat; [done|]. cbn [take] in H. by injection H as ->.
  - intros r c. unfold note, trim. intros H.
    apply (f_equal (@rev N)) in H. rewrite rev_involutive, rev_app_distr in H.
    cbn [rev app] in H. by apply skip_white_head in H.
  - unfold note, trim. rewrite length_rev.
    etrans; [apply skip_white_length|]. rewrite length_rev.
    etrans; [apply skip_white_length|]. apply cut_length.
Qed.

Lemma marker_at_head c r :
  marker_at (c :: r) = true → c = 35%N ∨ c = 42%N.
Proof.
  unfold marker_at. intros H. apply existsb_exists in H as (m & Hin & H).
  apply list_elem_of_In in Hin. unfold markers in Hin.
  rewrite !elem_of_cons, elem_of_nil in Hin.
  assert (∃ x m', m = x :: m' ∧ (x = 35%N ∨ x = 42%N)) as (x & m' & -> & Hx).
  { destruct Hin as [->|[->|[->|[->|[]]]]];
      eexists _, _; (split; [reflexivity|]); auto. }
  rewrite starts_with_cons in H. apply andb_true_iff in H as [Heq _].
  apply N.eqb_eq in Heq. by subst.
Qed.

(** X20: a text that holds neither [#] nor [*] holds no marker, so
    nothing is cut from it: the note is the text with the white space
    at its two ends dropped. *)
Theorem note_of_plain_text (rawText : jsstring) :
  forallb (λ c, negb ((c =? 35) || (c =? 42))%N) rawText = true →
  note rawText = trim rawText.
Proof.
  intros H. unfold note. f_equal.
  induction rawText as [|c r IH]; [done|].
  cbn [forallb] in H. apply andb_true_iff in H as [Hc Hr].
  cbn [cut andb]. destruct (marker_at (c :: r)) eqn:Hm.
  - apply marker_at_head in Hm as [-> | ->]; done.
  - by rewrite IH.
Qed.

Lemma note_of_plain_text_witness :
  note (lit "  No food found. ") = lit "No food found.".
Proof.
  rewrite (note_of_plain_text (lit "  No food found. ")); reflexivity.
Defined.

(** ** Opening the page *)

(** X21: opening the page first overwrites the stored collection: the
    second effect runs with the initial empty collection before the
    loaded one is rendered, so after the first pass of the effects the
    store holds the text of the empty array under the key, other keys
    untouched.  The state is asked to change exactly when there is a
    stored text that is not empty and parses; otherwise nothing more
    happens and what was stored is gone.  For a store written by the
    page for a collection of finite numbers the state asked for is that
    collection, and writing it again gives the store back as it was. *)
Theorem mount_overwrites_store (localStorage : gmap (list N) (list N))
    (ms : list Meal) :
  snd (effects_on_mount localStorage) !! storage_key = Some (lit "[]")
  ∧ (∀ k, k ≠ storage_key →
          snd (effects_on_mount localStorage) !! k = localStorage !! k)
  ∧ (∀ meals, load localStorage meals
              = default meals (fst (effects_on_mount localStorage)))
  ∧ (fst (effects_on_mount localStorage) = None
     ↔ localStorage !! storage_key = None
       ∨ ∃ saved, localStorage !! storage_key = Some saved
                  ∧ (truthy saved = false ∨ ∃ msg, JSON_parse saved = Throw msg))
  ∧ (Forall (λ m, exact_meal m = true) ms →
     fst (effects_on_mount (save localStorage (meals_value ms)))
     = Some (meals_value ms)
     ∧ save (snd (effects_on_mount (save localStorage (meals_value ms))))
            (meals_value ms)
       = save localStorage (meals_value ms)).
Proof.
  unfold effects_on_mount. cbn [fst snd]. split_and!.
  - unfold save. by rewrite lookup_insert_eq.
  - intros k Hk. unfold save. by rewrite lookup_insert_ne.
  - intros meals. unfold load, first_effect.
    destruct (localStorage !! storage_key) as [saved|]; [|done].
    destruct (truthy saved); [|done]. by destruct (JSON_parse saved).
  - unfold first_effect.
    destruct (localStorage !! storage_key) as [saved|]; [|by split; [left|]].
    destruct (truthy saved) eqn:Ht.
    + destruct (JSON_parse saved) as [v|msg] eqn:Hp.
      * split; [done|]. intros [|(s & [= <-] & [|[msg Hmsg]])]; congruence.
      * split; [|done]. intros _. right. exists saved. eauto.
    + split; [|done]. intros _. right. exists saved. eauto.
  - intros Hms. split.
    + unfold first_effect, save. rewrite lookup_insert_eq.
      rewrite JSON_parse_stringify; [| by apply printable_meals | done].
      assert (truthy (JSON_stringify (meals_value ms)) = true) as ->; [|done].
      unfold meals_value. cbn [JSON_stringify]. done.
    + unfold save. by rewrite !insert_insert_eq.
Qed.

(** ** Submitting again *)

(** X22: submitting again changes nothing more.  After a submission
    that ended in an error, a retry that meets the same outside world
    ends in the same state; after one that succeeded the selection is
    gone, so a further submission sends nothing and records nothing,
    whatever the outside world: one selected picture is recorded at
    most once. *)
Theorem submitting_again (w w' : World) (st : State) :
  (error (fst (handleSubmit w st)) ≠ None →
   handleSubmit w (fst (handleSubmit w st)) = handleSubmit w st)
  ∧ (file st ≠ None → error (fst (handleSubmit w st)) = None →
     handleSubmit w' (fst (handleSubmit w st))
     = (fst (handleSubmit w st), [])).
Proof.
  remember (handleSubmit w st) as res eqn:Hres.
  pose proof Hres as Hdef. unfold handleSubmit in Hdef.
  destruct (file st) as [f|] eqn:Hf.
  - destruct (reachable w) eqn:Hr; cbv beta iota zeta in Hdef.
    + destruct (resp_error (analyzeImage w (Some f))) as [[|c e]|] eqn:He;
        cbv beta iota zeta in Hdef; destruct (compressImage w f) eqn:Hc;
        rewrite Hdef; cbn [fst error];
        (split; [intros Herr | intros _ Herr]); try done;
        unfold handleSubmit; cbn [file meals preview];
        rewrite ?Hr, ?He, ?Hc; done.
    + rewrite Hdef. cbn [fst error]. split; [intros _ | done].
      unfold handleSubmit. cbn [file meals preview]. by rewrite Hr.
  - rewrite Hdef. cbn [fst]. split; [|done]. intros Herr.
    unfold handleSubmit. by rewrite Hf.
Qed.

(** ** Amounts beyond the range of a Number *)

Lemma of_N_overflow n : (2 ^ 1024 <= n)%N → of_N n = PInf.
Proof.
  intros Hn. unfold of_N.
  assert (2 ^ 1024 <= Z.of_N n) as Hz.
  { change (2 ^ 1024) with (Z.of_N (2 ^ 1024)). lia. }
  remember (Z.of_N n) as p eqn:Hp. clear Hp Hn n.
  assert (0 < 2 ^ 1024) as Hbig by (by apply Z.pow_pos_nonneg).
  assert (0 < p) as Hpos by lia.
  destruct p as [|p|p]; [lia | | lia]. unfold rnd, rnd_pos.
  rewrite ilog2_ratio_whole by done.
  assert (1024 <= Z.log2 (Z.pos p)) as Hl by (by apply Z.log2_le_pow2).
  rewrite Z.max_l by lia.
  remember (Z.log2 (Z.pos p) - 52) as u eqn:Hu.
  rewrite (pow2_nonneg_eq u), (pow2_nonpos_eq (- u)) by lia.
  rewrite !Z.mul_1_r, !Z.mul_1_l.
  destruct (Z.log2_spec (Z.pos p) Hpos) as [Hlo _].
  assert (0 < 2 ^ u) as Hpu by (apply Z.pow_pos_nonneg; lia).
  assert (2 ^ Z.log2 (Z.pos p) = 2 ^ 52 * 2 ^ u) as Hsplit.
  { rewrite <- Z.pow_add_r by lia. f_equal. lia. }
  assert (2 ^ 52 <= Z.pos p / 2 ^ u) as Hm.
  { apply Z.div_le_lower_bound; [done|]. lia. }
  remember (Z.pos p / 2 ^ u) as m eqn:Heqm.
  remember (match 2 * (Z.pos p mod 2 ^ u) ?= 2 ^ u with
            | Eq => if Z.even m then m else m + 1
            | Lt => m
            | Gt => m + 1
            end) as m' eqn:Hm'.
  assert (m <= m') as Hmm.
  { subst m'. destruct (_ ?= _); [destruct (Z.even m)|..]; lia. }
  destruct (Z.leb_spec (2 ^ 1024) (m' * 2 ^ u)) as [|Hlt]; [done|].
  exfalso.
  assert (2 ^ 1024 <= 2 ^ Z.log2 (Z.pos p)) by (apply Z.pow_le_mono_r; lia).
  assert (2 ^ 52 * 2 ^ u <= m' * 2 ^ u)
    by (apply Z.mul_le_mono_nonneg_r; lia).
  lia.
Qed.

Lemma num_add_PInf x : nonneg x = true → num_add x PInf = PInf ∧ num_add PInf x = PInf.
Proof. by destruct x. Qed.

Lemma total_PInf fd ms : ∀ acc,
  Forall (λ m, ∀ fd, nonneg (proj fd (macros m)) = true) ms →
  nonneg (proj fd acc) = true →
  (proj fd acc = PInf ∨ ∃ m, m ∈ ms ∧ proj fd (macros m) = PInf) →
  proj fd (fold_left add_meal ms acc) = PInf.
Proof.
  induction ms as [|m ms IH]; intros acc Hms Hacc Hinf.
  - destruct Hinf as [|(m & Hm & _)]; [done | by apply elem_of_nil in Hm].
  - apply Forall_cons in Hms as [Hm Hms]. cbn [fold_left].
    apply IH; [done | |].
    + rewrite proj_add_meal. by apply num_add_nonneg.
    + rewrite proj_add_meal.
      destruct Hinf as [Hinf | (m' & Hin & Hinf)].
      * left. rewrite Hinf. by apply num_add_PInf.
      * apply elem_of_cons in Hin as [-> | Hin].
        -- left. rewrite Hinf. by apply num_add_PInf.
        -- right. by exists m'.
Qed.

(** X23: an amount of 2^1024 or more (some 309 digits) is read as
    [Infinity]; and in a collection without [NaN] or negative values,
    one record with an infinite value makes that total infinite,
    wherever the record stands. *)
Theorem overflowing_amount (ds : jsstring) (ms : list Meal) (m : Meal)
    (fd : field) :
  all_digits ds = true → (2 ^ 1024 <= digits_value ds)%N →
  Forall (λ m, ∀ fd, nonneg (proj fd (macros m)) = true) ms →
  m ∈ ms → proj fd (macros m) = parseInt ds →
  parseInt ds = PInf ∧ proj fd (totalMacros ms) = PInf.
Proof.
  intros Hds Hbig Hms Hin Hm.
  assert (parseInt ds = PInf) as Hinf.
  { rewrite parseInt_digits; [by apply of_N_overflow | done |].
    intros ->. by vm_compute in Hbig. }
  split; [done|]. unfold totalMacros. apply total_PInf; [done | by destruct fd |].
  right. exists m. split; [done|]. by rewrite Hm.
Qed.

Lemma overflowing_amount_witness :
  parseInt (49%N :: repeat 48%N 309) = PInf
  ∧ proj Calories (totalMacros [sample_meal "1" 20 4 5 6; overflowed_meal])
    = PInf.
Proof.
  apply (overflowing_amount (49%N :: repeat 48%N 309)
           [sample_meal "1" 20 4 5 6; overflowed_meal] overflowed_meal
           Calories).
  - by vm_compute.
  - by vm_compute.
  - apply Forall_cons. split; [intros fd; destruct fd; reflexivity|].
    apply Forall_cons. split; [intros fd; destruct fd; reflexivity|].
    apply Forall_nil_2.
  - apply list_elem_of_further, list_elem_of_here.
  - by vm_compute.
Defined.

(** ** Records made by the page and the store *)

Lemma exact_whole n : (n <= 2 ^ 53)%N → exact (whole n) = true.
Proof.
  intros Hn. unfold whole, exact. change (2 ^ Z.of_nat 0) with 1.
  change (rnd (Z.of_N n) 1) with (of_N n). rewrite of_N_whole by done.
  unfold whole, number_eqb. by rewrite Z.eqb_refl.
Qed.

(** X24: a record made by a successful submission survives saving and
    loading: when the answer is the template around four numbers of at
    most 2^53, the clock reading is at most 2^53 and the records
    already there hold finite numbers, the collection after the
    submission is read back from the store as it was written. *)
Theorem recorded_collection_survives_reload (w : World) (st : State)
    (f : File) (key c p cb fa : jsstring) (img_width img_height : N)
    (localStorage : gmap (list N) (list N)) :
  file st = Some f → reachable w = true →
  api_key w = Some key → truthy key = true →
  generateContent w f = Some (template c p cb fa) →
  decode w f = Some (img_width, img_height) → context2d w = true →
  all_digits c = true → c ≠ [] → all_digits p = true → p ≠ [] →
  all_digits cb = true → cb ≠ [] → all_digits fa = true → fa ≠ [] →
  (digits_value c <= 2 ^ 53)%N → (digits_value p <= 2 ^ 53)%N →
  (digits_value cb <= 2 ^ 53)%N → (digits_value fa <= 2 ^ 53)%N →
  (clock_timestamp w <= 2 ^ 53)%N →
  Forall (λ m, exact_meal m = true) (meals st) →
  load (save localStorage (meals_value (meals (fst (handleSubmit w st)))))
       initial_meals
  = meals_value (meals (fst (handleSubmit w st))).
Proof.
  intros Hf Hr Hk Ht Hg Hd Hctx ? ? ? ? ? ? ? ? ? ? ? ? Hclock Hms.
  rewrite (handleSubmit_success w st f key _ img_width img_height) by done.
  cbn [meals]. unfold load, save. rewrite lookup_insert_eq.
  rewrite JSON_parse_stringify; [done | | done].
  apply printable_meals. apply Forall_cons. split; [|done].
  unfold exact_meal, exact_macros. cbn [timestamp macros].
  rewrite parseMacros_of_template by done.
  cbn [macros_of calories protein carbs fat].
  rewrite of_N_whole by done. by rewrite !exact_whole.
Qed.


Lemma recorded_collection_survives_reload_witness :
  load (save ∅ (meals_value
                  (meals (fst (handleSubmit answering_world stored_state)))))
       initial_meals
  = meals_value (meals (fst (handleSubmit answering_world stored_state))).
Proof.
  apply (recorded_collection_survives_reload answering_world stored_state
           sample_file (lit "key") (lit "540") (lit "30") (lit "60")
           (lit "20") 1200 800 ∅).
  - reflexivity.
  - reflexivity.
  - reflexivity.
  - reflexivity.
  - reflexivity.
  - reflexivity.
  - reflexivity.
  - reflexivity.
  - discriminate.
  - reflexivity.
  - discriminate.
  - reflexivity.
  - discriminate.
  - reflexivity.
  - discriminate.
  - by vm_compute.
  - by vm_compute.
  - by vm_compute.
  - by vm_compute.
  - by vm_compute.
  - apply Forall_cons. split; [reflexivity | apply Forall_nil_2].
Defined.

(** ** Text around the template *)

Lemma exec_skip_plain re a pr s t :
  pre re = a :: pr → forallb (λ x, negb (x =? a)%N) s = true →
  exec re (s ++ t) = exec re t.
Proof.
  intros Hpre. induction s as [|x s IH]; [done|].
  cbn [forallb]. intros H. apply andb_true_iff in H as [Hx Hs].
  cbn [app]. rewrite exec_cons_None; [by apply IH|].
  unfold exec_at. rewrite Hpre. cbn [strip_prefix].
  rewrite N.eqb_sym. by destruct (x =? a)%N.
Qed.

Lemma plain_text_split s :
  forallb (λ x, negb ((x =? 35) || (x =? 42))%N) s = true →
  forallb (λ x, negb (x =? 35)%N) s = true
  ∧ forallb (λ x, negb (x =? 42)%N) s = true.
Proof.
  induction s as [|x s IH]; [done|]. cbn [forallb].
  intros H. apply andb_true_iff in H as [Hx Hs].
  destruct (IH Hs) as [-> ->]. rewrite !andb_true_r.
  by destruct (x =? 35)%N, (x =? 42)%N.
Qed.

Lemma exec_template_within fd before after c p cb f :
  forallb (λ x, negb ((x =? 35) || (x =? 42))%N) before = true →
  all_digits c = true → c ≠ [] → all_digits p = true → p ≠ [] →
  all_digits cb = true → cb ≠ [] → all_digits f = true → f ≠ [] →
  exec (pattern_of fd) (before ++ template c p cb f ++ after)
  = Some (match fd with
          | Calories => c
          | Protein => p
          | Carbs => cb
          | Fat => f
          end).
Proof.
  intros Hb Hc Hc' Hp Hp' Hcb Hcb' Hf Hf'.
  apply plain_text_split in Hb as [Hb1 Hb2].
  destruct fd; cbn [pattern_of].
  - rewrite (exec_skip_plain re_calories 35%N (lit " " ++ bolt :: lit " "))
      by done.
    unfold template. norm_text. repeat (rewrite <- app_assoc; cbn [app]).
    skip_to_match. capture re_calories c.
  - rewrite (exec_skip_plain re_protein 42%N (lit "*Protein:** ")) by done.
    unfold template. norm_text. repeat (rewrite <- app_assoc; cbn [app]).
    skip_to_match. capture re_protein p.
  - rewrite (exec_skip_plain re_carbs 42%N (lit "*Carbs:** ")) by done.
    unfold template. norm_text. repeat (rewrite <- app_assoc; cbn [app]).
    skip_to_match. capture re_carbs cb.
  - rewrite (exec_skip_plain re_fat 42%N (lit "*Fat:** ")) by done.
    unfold template. norm_text. repeat (rewrite <- app_assoc; cbn [app]).
    skip_to_match. capture re_fat f.
Qed.

(** X25: text around the template does not disturb the reading: when
    the answer is some text holding neither [#] nor [*], then the
    template around four digit strings of at most 2^53 each, then any
    text whatever, [parseMacros] returns the four numbers of the
    template. *)
Theorem parseMacros_ignores_surrounding_text
    (before after c p cb f : jsstring) :
  forallb (λ x, negb ((x =? 35) || (x =? 42))%N) before = true →
  all_digits c = true → c ≠ [] → all_digits p = true → p ≠ [] →
  all_digits cb = true → cb ≠ [] → all_digits f = true → f ≠ [] →
  (digits_value c <= 2 ^ 53)%N → (digits_value p <= 2 ^ 53)%N →
  (digits_value cb <= 2 ^ 53)%N → (digits_value f <= 2 ^ 53)%N →
  parseMacros (before ++ template c p cb f ++ after)
  = macros_of (digits_value c) (digits_value p) (digits_value cb)
              (digits_value f).
Proof.
  intros. apply Macros_ext. intros fd.
  assert (proj fd (parseMacros (before ++ template c p cb f ++ after))
          = getVal (before ++ template c p cb f ++ after) (pattern_of fd))
    as -> by (by destruct fd).
  unfold getVal. rewrite exec_template_within by done.
  destruct fd; cbn [proj macros_of calories protein carbs fat];
    rewrite parseInt_digits by done; by apply of_N_whole.
Qed.

Lemma parseMacros_ignores_surrounding_text_witness :
  parseMacros (lit "Here you go:" ++ sample_answer ++ lit " **Fat:** 99g")
  = macros_of 540 30 60 20.
Proof.
  apply (parseMacros_ignores_surrounding_text (lit "Here you go:")
           (lit " **Fat:** 99g") (lit "540") (lit "30") (lit "60") (lit "20")).
  - reflexivity.
  - reflexivity.
  - discriminate.
  - reflexivity.
  - discriminate.
  - reflexivity.
  - discriminate.
  - reflexivity.
  - discriminate.
  - by vm_compute.
  - by vm_compute.
  - by vm_compute.
  - by vm_compute.
Defined.
